(** * Durak engine (DurakEnv.py, DurakPlayer.py): a shallow embedding

    The engine of the repository is the class [DurakEnv]; the players it
    drives are objects of (subclasses of) [DurakPlayer].  The embedding keeps
    the Python names.  Python objects that are shared by reference (the
    players, which sit in [players], in [active_players], in [turn_player]
    and in [attacking_player] at once) live in a store indexed by object
    identity; every method that can raise returns a [result]. *)

From Stdlib Require Import ZArith Lia Sorted.
From stdpp Require Import base list gmap strings functions.

(** ** Cards and the deck *)

(** [Deck.CardType]: a card is the tuple [(value, suit)]; the code reads the
    value as [card[0]] and the suit as [card[1]]. *)
Abbreviation CardType := (Z * Z)%type.

(** [DurakEnv.StateType]: attacking cards, defending cards, legal attacking
    cards, legal defending cards. *)
Abbreviation StateType :=
  (list CardType * list CardType * list CardType * list CardType)%type.

(** Modelled from the spec: Deck.py is not among the sources, so the
    constants of the class [Deck] are taken as parameters.  The spec fixes
    that [NO_CARD] is a sentinel distinct from every real card, that a suit
    is one of four enumerants, and that [get_full_list_of_cards] (the
    spec's fullCardUniverse) excludes [NO_CARD]. *)
Class DeckConsts := {
  NO_CARD : CardType;
  HEARTS : Z;
  DIAMONDS : Z;
  SPADES : Z;
  CLUBS : Z;
  ACE : Z;
  get_full_list_of_cards : list CardType;
  full_list_excludes_NO_CARD : NO_CARD ∉ get_full_list_of_cards;
  suits_distinct : NoDup [HEARTS; DIAMONDS; SPADES; CLUBS]
}.

(** Modelled from the spec: [Deck.draw(n)] removes and returns up to [n]
    cards from the front of the remaining cards, fewer if exhausted; it never
    raises.  The deck object is the list of its remaining cards. *)
Definition draw (d : list CardType) (n : Z) : list CardType * list CardType :=
  (take (Z.to_nat n) d, drop (Z.to_nat n) d).

(** Modelled from the spec: [Deck.current_num_cards] (remainingCount). *)
Definition current_num_cards (d : list CardType) : Z := Z.of_nat (length d).

(** ** Exceptions *)

Inductive exn := IndexError | ValueError | AttributeError | TypeError.

(** [Diverge] is not an exception: it marks that the bound the model puts on
    a Python [while] loop was reached with the loop still running. *)
Inductive result (A : Type) :=
| Ok (a : A)
| Raise (e : exn)
| Diverge.
Arguments Ok {A} a.
Arguments Raise {A} e.
Arguments Diverge {A}.

#[export] Instance result_ret : MRet result := fun A a => Ok a.
#[export] Instance result_bind : MBind result := fun A B f m =>
  match m with
  | Ok a => f a
  | Raise e => Raise e
  | Diverge => Diverge
  end.

(** [l[i]] with Python's negative indices. *)
Definition getitem {A} (l : list A) (i : Z) : result A :=
  let n := Z.of_nat (length l) in
  let j := if (i <? 0)%Z then (i + n)%Z else i in
  if ((j <? 0) || (n <=? j))%Z then Raise IndexError
  else match l !! Z.to_nat j with
       | Some x => Ok x
       | None => Raise IndexError
       end.

(** [l.index(x)]: position of the first occurrence, [ValueError] if none. *)
Fixpoint index_from `{EqDecision A} (l : list A) (x : A) (k : Z) : result Z :=
  match l with
  | [] => Raise ValueError
  | y :: l' => if decide (y = x) then Ok k else index_from l' x (k + 1)%Z
  end.
Definition index `{EqDecision A} (l : list A) (x : A) : result Z :=
  index_from l x 0%Z.

(** [l.remove(x)]: drops the first occurrence, [ValueError] if none. *)
Fixpoint list_remove `{EqDecision A} (l : list A) (x : A) : result (list A) :=
  match l with
  | [] => Raise ValueError
  | y :: l' => if decide (y = x) then Ok l'
               else l'' ← list_remove l' x; Ok (y :: l'')
  end.

(** ** DurakPlayer *)

Record DurakPlayer := {
  _hand : list CardType;
  _trump_rank : option Z;
  initial_hand_size : Z;
  name : string
}.

Definition with_hand (p : DurakPlayer) (h : list CardType) : DurakPlayer :=
  {| _hand := h; _trump_rank := _trump_rank p;
     initial_hand_size := initial_hand_size p; name := name p |}.

Definition with_trump (p : DurakPlayer) (t : option Z) : DurakPlayer :=
  {| _hand := _hand p; _trump_rank := t;
     initial_hand_size := initial_hand_size p; name := name p |}.

Module Player.

(** [take_cards]: [self._hand = self._hand + cards]. *)
Definition take_cards (p : DurakPlayer) (cards : list CardType) : DurakPlayer :=
  with_hand p (_hand p ++ cards).

Definition empty_hand (p : DurakPlayer) : DurakPlayer := with_hand p [].

(** The engine calls [set_trump_suit]; the class under src/ names the same
    setter [set_trump_rank]. *)
Definition set_trump_suit (p : DurakPlayer) (suit : Z) : DurakPlayer :=
  with_trump p (Some suit).

Definition hand_size (p : DurakPlayer) : Z := Z.of_nat (length (_hand p)).

Definition hand (p : DurakPlayer) : list CardType := _hand p.

Section WithDeck.
Context `{DeckConsts}.

(** The four counters of [is_starting_hand_legal], kept in the order
    hearts, diamonds, spades, clubs; the [else] branch counts every suit
    that is none of the first three as a club. *)
Definition count_suits_step (acc : Z * Z * Z * Z) (c : CardType) : Z * Z * Z * Z :=
  let '(num_hearts, num_diamonds, num_spades, num_clubs) := acc in
  let rank := c.2 in
  if decide (rank = HEARTS) then ((num_hearts + 1)%Z, num_diamonds, num_spades, num_clubs)
  else if decide (rank = DIAMONDS) then (num_hearts, (num_diamonds + 1)%Z, num_spades, num_clubs)
  else if decide (rank = SPADES) then (num_hearts, num_diamonds, (num_spades + 1)%Z, num_clubs)
  else (num_hearts, num_diamonds, num_spades, (num_clubs + 1)%Z).

Definition count_suits (h : list CardType) : Z * Z * Z * Z :=
  foldl count_suits_step (0, 0, 0, 0)%Z h.

Definition is_starting_hand_legal (p : DurakPlayer) : bool :=
  let '(num_hearts, num_diamonds, num_spades, num_clubs) := count_suits (_hand p) in
  if bool_decide ((initial_hand_size p - 1)%Z ∈ [num_hearts; num_diamonds; num_spades; num_clubs])
     || bool_decide ((num_hearts + num_diamonds)%Z = initial_hand_size p)
     || bool_decide ((num_spades + num_clubs)%Z = initial_hand_size p)
  then false
  else true.

(** [get_lowest_trump]: the lowest value among the cards of the trump suit.
    [None] stands for the [Deck.NO_CARD] the method returns when the hand
    holds no trump. *)
Definition lowest_trump_step (trump : option Z) (min_trump : option Z) (c : CardType)
  : option Z :=
  let '(value, series) := c in
  if decide (Some series = trump) then
    match min_trump with
    | None => Some value
    | Some m => if (value <? m)%Z then Some value else min_trump
    end
  else min_trump.

Definition get_lowest_trump (p : DurakPlayer) : option Z :=
  foldl (lowest_trump_step (_trump_rank p)) None (_hand p).

End WithDeck.
End Player.

(** ** DurakEnv *)

(** Identity of a player object.  Python compares players with the default
    [==], which is object identity. *)
Definition pid := nat.

(** The fields of [DurakEnv.__init__], without the GUI.  [heap] holds the
    player objects; [players], [active_players], [turn_player],
    [attacking_player] and [loser] refer to them.  [deck] is the list of the
    cards that remain in [self.deck]. *)
Record DurakEnv := {
  players : list pid;
  heap : pid -> DurakPlayer;
  active_players : list pid;
  attacking_player : option pid;
  turn_player : option pid;
  loser : option pid;
  attacking_cards : list CardType;
  defending_cards : list CardType;
  legal_attacking_cards : list CardType;
  legal_defending_cards : list CardType;
  deck : list CardType;
  trump_suit : Z;
  defending : bool;
  successful : bool;
  limit : Z;
  last_action : CardType;
  reset_round : bool;
  attack_phase : bool;
  reset_attacker : bool;
  reward : Z
}.

Definition set_heap (v : pid -> DurakPlayer) (s : DurakEnv) : DurakEnv :=
  {| players := players s; heap := v; active_players := active_players s;
     attacking_player := attacking_player s; turn_player := turn_player s; loser := loser s;
     attacking_cards := attacking_cards s; defending_cards := defending_cards s;
     legal_attacking_cards := legal_attacking_cards s;
     legal_defending_cards := legal_defending_cards s; deck := deck s; trump_suit := trump_suit s;
     defending := defending s; successful := successful s; limit := limit s;
     last_action := last_action s; reset_round := reset_round s; attack_phase := attack_phase s;
     reset_attacker := reset_attacker s; reward := reward s |}.

Definition set_active_players (v : list pid) (s : DurakEnv) : DurakEnv :=
  {| players := players s; heap := heap s; active_players := v;
     attacking_player := attacking_player s; turn_player := turn_player s; loser := loser s;
     attacking_cards := attacking_cards s; defending_cards := defending_cards s;
     legal_attacking_cards := legal_attacking_cards s;
     legal_defending_cards := legal_defending_cards s; deck := deck s; trump_suit := trump_suit s;
     defending := defending s; successful := successful s; limit := limit s;
     last_action := last_action s; reset_round := reset_round s; attack_phase := attack_phase s;
     reset_attacker := reset_attacker s; reward := reward s |}.

Definition set_attacking_player (v : option pid) (s : DurakEnv) : DurakEnv :=
  {| players := players s; heap := heap s; active_players := active_players s;
     attacking_player := v; turn_player := turn_player s; loser := loser s;
     attacking_cards := attacking_cards s; defending_cards := defending_cards s;
     legal_attacking_cards := legal_attacking_cards s;
     legal_defending_cards := legal_defending_cards s; deck := deck s; trump_suit := trump_suit s;
     defending := defending s; successful := successful s; limit := limit s;
     last_action := last_action s; reset_round := reset_round s; attack_phase := attack_phase s;
     reset_attacker := reset_attacker s; reward := reward s |}.

Definition set_turn_player (v : option pid) (s : DurakEnv) : DurakEnv :=
  {| players := players s; heap := heap s; active_players := active_players s;
     attacking_player := attacking_player s; turn_player := v; loser := loser s;
     attacking_cards := attacking_cards s; defending_cards := defending_cards s;
     legal_attacking_cards := legal_attacking_cards s;
     legal_defending_cards := legal_defending_cards s; deck := deck s; trump_suit := trump_suit s;
     defending := defending s; successful := successful s; limit := limit s;
     last_action := last_action s; reset_round := reset_round s; attack_phase := attack_phase s;
     reset_attacker := reset_attacker s; reward := reward s |}.

Definition set_loser (v : option pid) (s : DurakEnv) : DurakEnv :=
  {| players := players s; heap := heap s; active_players := active_players s;
     attacking_player := attacking_player s; turn_player := turn_player s; loser := v;
     attacking_cards := attacking_cards s; defending_cards := defending_cards s;
     legal_attacking_cards := legal_attacking_cards s;
     legal_defending_cards := legal_defending_cards s; deck := deck s; trump_suit := trump_suit s;
     defending := defending s; successful := successful s; limit := limit s;
     last_action := last_action s; reset_round := reset_round s; attack_phase := attack_phase s;
     reset_attacker := reset_attacker s; reward := reward s |}.

Definition set_attacking_cards (v : list CardType) (s : DurakEnv) : DurakEnv :=
  {| players := players s; heap := heap s; active_players := active_players s;
     attacking_player := attacking_player s; turn_player := turn_player s; loser := loser s;
     attacking_cards := v; defending_cards := defending_cards s;
     legal_attacking_cards := legal_attacking_cards s;
     legal_defending_cards := legal_defending_cards s; deck := deck s; trump_suit := trump_suit s;
     defending := defending s; successful := successful s; limit := limit s;
     last_action := last_action s; reset_round := reset_round s; attack_phase := attack_phase s;
     reset_attacker := reset_attacker s; reward := reward s |}.

Definition set_defending_cards (v : list CardType) (s : DurakEnv) : DurakEnv :=
  {| players := players s; heap := heap s; active_players := active_players s;
     attacking_player := attacking_player s; turn_player := turn_player s; loser := loser s;
     attacking_cards := attacking_cards s; defending_cards := v;
     legal_attacking_cards := legal_attacking_cards s;
     legal_defending_cards := legal_defending_cards s; deck := deck s; trump_suit := trump_suit s;
     defending := defending s; successful := successful s; limit := limit s;
     last_action := last_action s; reset_round := reset_round s; attack_phase := attack_phase s;
     reset_attacker := reset_attacker s; reward := reward s |}.

Definition set_legal_attacking_cards (v : list CardType) (s : DurakEnv) : DurakEnv :=
  {| players := players s; heap := heap s; active_players := active_players s;
     attacking_player := attacking_player s; turn_player := turn_player s; loser := loser s;
     attacking_cards := attacking_cards s; defending_cards := defending_cards s;
     legal_attacking_cards := v; legal_defending_cards := legal_defending_cards s; deck := deck s;
     trump_suit := trump_suit s; defending := defending s; successful := successful s;
     limit := limit s; last_action := last_action s; reset_round := reset_round s;
     attack_phase := attack_phase s; reset_attacker := reset_attacker s; reward := reward s |}.

Definition set_legal_defending_cards (v : list CardType) (s : DurakEnv) : DurakEnv :=
  {| players := players s; heap := heap s; active_players := active_players s;
     attacking_player := attacking_player s; turn_player := turn_player s; loser := loser s;
     attacking_cards := attacking_cards s; defending_cards := defending_cards s;
     legal_attacking_cards := legal_attacking_cards s; legal_defending_cards := v; deck := deck s;
     trump_suit := trump_suit s; defending := defending s; successful := successful s;
     limit := limit s; last_action := last_action s; reset_round := reset_round s;
     attack_phase := attack_phase s; reset_attacker := reset_attacker s; reward := reward s |}.

Definition set_deck (v : list CardType) (s : DurakEnv) : DurakEnv :=
  {| players := players s; heap := heap s; active_players := active_players s;
     attacking_player := attacking_player s; turn_player := turn_player s; loser := loser s;
     attacking_cards := attacking_cards s; defending_cards := defending_cards s;
     legal_attacking_cards := legal_attacking_cards s;
     legal_defending_cards := legal_defending_cards s; deck := v; trump_suit := trump_suit s;
     defending := defending s; successful := successful s; limit := limit s;
     last_action := last_action s; reset_round := reset_round s; attack_phase := attack_phase s;
     reset_attacker := reset_attacker s; reward := reward s |}.

Definition set_trump_suit (v : Z) (s : DurakEnv) : DurakEnv :=
  {| players := players s; heap := heap s; active_players := active_players s;
     attacking_player := attacking_player s; turn_player := turn_player s; loser := loser s;
     attacking_cards := attacking_cards s; defending_cards := defending_cards s;
     legal_attacking_cards := legal_attacking_cards s;
     legal_defending_cards := legal_defending_cards s; deck := deck s; trump_suit := v;
     defending := defending s; successful := successful s; limit := limit s;
     last_action := last_action s; reset_round := reset_round s; attack_phase := attack_phase s;
     reset_attacker := reset_attacker s; reward := reward s |}.

Definition set_defending (v : bool) (s : DurakEnv) : DurakEnv :=
  {| players := players s; heap := heap s; active_players := active_players s;
     attacking_player := attacking_player s; turn_player := turn_player s; loser := loser s;
     attacking_cards := attacking_cards s; defending_cards := defending_cards s;
     legal_attacking_cards := legal_attacking_cards s;
     legal_defending_cards := legal_defending_cards s; deck := deck s; trump_suit := trump_suit s;
     defending := v; successful := successful s; limit := limit s; last_action := last_action s;
     reset_round := reset_round s; attack_phase := attack_phase s;
     reset_attacker := reset_attacker s; reward := reward s |}.

Definition set_successful (v : bool) (s : DurakEnv) : DurakEnv :=
  {| players := players s; heap := heap s; active_players := active_players s;
     attacking_player := attacking_player s; turn_player := turn_player s; loser := loser s;
     attacking_cards := attacking_cards s; defending_cards := defending_cards s;
     legal_attacking_cards := legal_attacking_cards s;
     legal_defending_cards := legal_defending_cards s; deck := deck s; trump_suit := trump_suit s;
     defending := defending s; successful := v; limit := limit s; last_action := last_action s;
     reset_round := reset_round s; attack_phase := attack_phase s;
     reset_attacker := reset_attacker s; reward := reward s |}.

Definition set_limit (v : Z) (s : DurakEnv) : DurakEnv :=
  {| players := players s; heap := heap s; active_players := active_players s;
     attacking_player := attacking_player s; turn_player := turn_player s; loser := loser s;
     attacking_cards := attacking_cards s; defending_cards := defending_cards s;
     legal_attacking_cards := legal_attacking_cards s;
     legal_defending_cards := legal_defending_cards s; deck := deck s; trump_suit := trump_suit s;
     defending := defending s; successful := successful s; limit := v;
     last_action := last_action s; reset_round := reset_round s; attack_phase := attack_phase s;
     reset_attacker := reset_attacker s; reward := reward s |}.

Definition set_last_action (v : CardType) (s : DurakEnv) : DurakEnv :=
  {| players := players s; heap := heap s; active_players := active_players s;
     attacking_player := attacking_player s; turn_player := turn_player s; loser := loser s;
     attacking_cards := attacking_cards s; defending_cards := defending_cards s;
     legal_attacking_cards := legal_attacking_cards s;
     legal_defending_cards := legal_defending_cards s; deck := deck s; trump_suit := trump_suit s;
     defending := defending s; successful := successful s; limit := limit s; last_action := v;
     reset_round := reset_round s; attack_phase := attack_phase s;
     reset_attacker := reset_attacker s; reward := reward s |}.

Definition set_reset_round (v : bool) (s : DurakEnv) : DurakEnv :=
  {| players := players s; heap := heap s; active_players := active_players s;
     attacking_player := attacking_player s; turn_player := turn_player s; loser := loser s;
     attacking_cards := attacking_cards s; defending_cards := defending_cards s;
     legal_attacking_cards := legal_attacking_cards s;
     legal_defending_cards := legal_defending_cards s; deck := deck s; trump_suit := trump_suit s;
     defending := defending s; successful := successful s; limit := limit s;
     last_action := last_action s; reset_round := v; attack_phase := attack_phase s;
     reset_attacker := reset_attacker s; reward := reward s |}.

Definition set_attack_phase (v : bool) (s : DurakEnv) : DurakEnv :=
  {| players := players s; heap := heap s; active_players := active_players s;
     attacking_player := attacking_player s; turn_player := turn_player s; loser := loser s;
     attacking_cards := attacking_cards s; defending_cards := defending_cards s;
     legal_attacking_cards := legal_attacking_cards s;
     legal_defending_cards := legal_defending_cards s; deck := deck s; trump_suit := trump_suit s;
     defending := defending s; successful := successful s; limit := limit s;
     last_action := last_action s; reset_round := reset_round s; attack_phase := v;
     reset_attacker := reset_attacker s; reward := reward s |}.

Definition set_reset_attacker (v : bool) (s : DurakEnv) : DurakEnv :=
  {| players := players s; heap := heap s; active_players := active_players s;
     attacking_player := attacking_player s; turn_player := turn_player s; loser := loser s;
     attacking_cards := attacking_cards s; defending_cards := defending_cards s;
     legal_attacking_cards := legal_attacking_cards s;
     legal_defending_cards := legal_defending_cards s; deck := deck s; trump_suit := trump_suit s;
     defending := defending s; successful := successful s; limit := limit s;
     last_action := last_action s; reset_round := reset_round s; attack_phase := attack_phase s;
     reset_attacker := v; reward := reward s |}.

Definition set_reward (v : Z) (s : DurakEnv) : DurakEnv :=
  {| players := players s; heap := heap s; active_players := active_players s;
     attacking_player := attacking_player s; turn_player := turn_player s; loser := loser s;
     attacking_cards := attacking_cards s; defending_cards := defending_cards s;
     legal_attacking_cards := legal_attacking_cards s;
     legal_defending_cards := legal_defending_cards s; deck := deck s; trump_suit := trump_suit s;
     defending := defending s; successful := successful s; limit := limit s;
     last_action := last_action s; reset_round := reset_round s; attack_phase := attack_phase s;
     reset_attacker := reset_attacker s; reward := v |}.
Definition MIN_PLAYERS : Z := 2.
Definition MAX_PLAYERS : Z := 6.
Definition HAND_SIZE : Z := 6.

(** Positions of the two roles in [active_players]
    ([self.attacker = 0], [self.defender = 1]). *)
Definition attacker : Z := 0.
Definition defender : Z := 1.

(** A method call on the player object [p]. *)
Definition on_player (p : pid) (f : DurakPlayer -> DurakPlayer) (s : DurakEnv) : DurakEnv :=
  set_heap (<[p := f (heap s p)]> (heap s)) s.

Definition hand_size_of (s : DurakEnv) (p : pid) : Z := Player.hand_size (heap s p).

(** [self.state]: the tuple is rebound to the four current list objects
    wherever one of them is rebound (reset, do_reset_round,
    update_legal_cards), and the table lists are otherwise only appended to
    in place, so between method calls it denotes the four current lists. *)
Definition state (s : DurakEnv)
  : list CardType * list CardType * list CardType * list CardType :=
  (attacking_cards s, defending_cards s, legal_attacking_cards s, legal_defending_cards s).

Definition game_over (s : DurakEnv) : bool :=
  bool_decide (Z.of_nat (length (active_players s)) < MIN_PLAYERS)%Z.

Definition move_attacker_back (s : DurakEnv) : result DurakEnv :=
  match active_players s with
  | [] => Raise IndexError
  | temp :: rest => Ok (set_active_players (rest ++ [temp]) s)
  end.

Section Engine.
Context `{DeckConsts}.

(** The inner [for ... break] loops of [update_legal_cards]: some card of
    [l] has the value of [card] and another suit. *)
Definition same_value_other_suit (card : CardType) (l : list CardType) : bool :=
  existsb (fun x => bool_decide (card.1 = x.1) && bool_decide (card.2 ≠ x.2)) l.

(** One turn of the outer loop of [update_legal_cards] (table not empty). *)
Definition legal_cards_step (att def : list CardType) (trump : Z)
    (acc : list CardType * list CardType) (card : CardType)
  : list CardType * list CardType :=
  let '(legal_att, legal_def) := acc in
  let legal_att :=
    if bool_decide (card ∉ att) && bool_decide (card ∉ def) then
      let legal_att :=
        if same_value_other_suit card att then legal_att ++ [card] else legal_att in
      if bool_decide (card ∉ legal_att) then
        if same_value_other_suit card def then legal_att ++ [card] else legal_att
      else legal_att
    else legal_att in
  let legal_def :=
    if (Z.of_nat (length att) >? Z.of_nat (length def))%Z then
      if bool_decide (card ∉ def) then
        match list.last att with
        | Some last_attack =>
            if (bool_decide (card.2 = last_attack.2) && (card.1 >? last_attack.1)%Z)
               || (bool_decide (card.2 = trump) && bool_decide (last_attack.2 ≠ trump))
            then legal_def ++ [card] else legal_def
        | None => legal_def
        end
      else legal_def
    else legal_def in
  (legal_att, legal_def).

Definition update_legal_cards (s : DurakEnv) : DurakEnv :=
  if bool_decide (length (attacking_cards s) = 0) then
    set_legal_defending_cards [NO_CARD] (set_legal_attacking_cards get_full_list_of_cards s)
  else
    let '(legal_att, legal_def) :=
      foldl (legal_cards_step (attacking_cards s) (defending_cards s) (trump_suit s))
            ([NO_CARD], [NO_CARD]) get_full_list_of_cards in
    set_legal_defending_cards legal_def (set_legal_attacking_cards legal_att s).

Definition do_attack_phase (s : DurakEnv) : result DurakEnv :=
  if decide (last_action s ≠ NO_CARD) then
    let s := set_attacking_cards (attacking_cards s ++ [last_action s]) s in
    Ok (set_attack_phase false s)
  else
    last_player ← getitem (active_players s) (-1);
    if decide (turn_player s = Some last_player) then
      Ok (set_reset_attacker true (set_successful true (set_defending false s)))
    else
      let s := set_reset_attacker false s in
      i ← index (Some <$> active_players s) (turn_player s);
      next ← getitem (active_players s) (i + 1);
      let s := set_turn_player (Some next) s in
      defending_player ← getitem (active_players s) defender;
      if decide (turn_player s = Some defending_player) then
        last_player ← getitem (active_players s) (-1);
        if decide (turn_player s ≠ Some last_player) then
          i ← index (Some <$> active_players s) (turn_player s);
          next ← getitem (active_players s) (i + 1);
          Ok (set_turn_player (Some next) s)
        else
          i ← index (Some <$> active_players s) (turn_player s);
          previous ← getitem (active_players s) (i - 1);
          let s := set_turn_player (Some previous) s in
          Ok (set_reset_attacker true (set_successful true (set_defending false s)))
      else Ok s.

Definition do_defence_phase (s : DurakEnv) : result DurakEnv :=
  if decide (last_action s ≠ NO_CARD) then
    let s := set_defending_cards (defending_cards s ++ [last_action s]) s in
    let s := set_attack_phase true s in
    let s :=
      if bool_decide (length (attacking_cards s) = length (defending_cards s))
         && bool_decide (Z.of_nat (length (defending_cards s)) = limit s)
      then set_successful true (set_defending false s)
      else s in
    Ok (set_reset_attacker true s)
  else
    let s := set_successful false (set_defending false s) in
    match turn_player s with
    | None => Raise AttributeError
    | Some p =>
        let s := on_player p (fun q => Player.take_cards q (attacking_cards s)) s in
        Ok (on_player p (fun q => Player.take_cards q (defending_cards s)) s)
    end.

(** One refill of [update_players_hands]: draw up to [HAND_SIZE]. *)
Definition refill (p : pid) (s : DurakEnv) : DurakEnv :=
  let '(drawn_cards, rest) := draw (deck s) (Z.max 0 (HAND_SIZE - hand_size_of s p)) in
  on_player p (fun q => Player.take_cards q drawn_cards) (set_deck rest s).

Definition update_players_hands (s : DurakEnv) : result DurakEnv :=
  let others := take (Z.to_nat defender) (active_players s)
                ++ drop (Z.to_nat (defender + 1)) (active_players s) in
  let s := foldl (fun s p => refill p s) s others in
  d ← getitem (active_players s) defender;
  Ok (refill d s).

Fixpoint remove_each (to_remove : list pid) (l : list pid) : result (list pid) :=
  match to_remove with
  | [] => Ok l
  | p :: to_remove' => l' ← list_remove l p; remove_each to_remove' l'
  end.

Definition remove_winners (s : DurakEnv) : result DurakEnv :=
  let to_remove := filter (fun p => hand_size_of s p = 0%Z) (active_players s) in
  l ← remove_each to_remove (active_players s);
  Ok (set_active_players l s).

Definition update_active_players_order (s : DurakEnv) : result DurakEnv :=
  if bool_decide (length (active_players s) = 1) then
    p ← getitem (active_players s) 0;
    Ok (set_loser (Some p) s)
  else if (Z.of_nat (length (active_players s)) >=? MIN_PLAYERS)%Z then
    a ← getitem (active_players s) attacker;
    s ← (if decide (Some a = attacking_player s) then move_attacker_back s else Ok s);
    if negb (successful s) then move_attacker_back s else Ok s
  else Ok s.

Definition do_reset_round (s : DurakEnv) : result DurakEnv :=
  let s := set_attacking_cards [] s in
  let s := set_defending_cards [] s in
  let s := set_legal_attacking_cards [] s in
  let s := set_legal_defending_cards [] s in
  a ← getitem (active_players s) attacker;
  let s := set_turn_player (Some a) s in
  let s := set_attacking_player (Some a) s in
  let s := set_defending true s in
  let s := set_successful false s in
  d ← getitem (active_players s) defender;
  let s := set_limit (Z.min HAND_SIZE (hand_size_of s d)) s in
  let s := set_attack_phase true s in
  let s := set_reset_attacker true s in
  Ok (set_reset_round false s).

Definition calculate_reward (s : DurakEnv) : result Z :=
  match turn_player s with
  | None => Raise AttributeError
  | Some p =>
      if bool_decide (hand_size_of s p = 0%Z) && bool_decide (current_num_cards (deck s) = 0%Z)
      then Ok 30%Z
      else if negb (defending s) then
        if successful s then Ok 1%Z else Ok (-1)%Z
      else Ok 0%Z
  end.

Definition check_end_round (s : DurakEnv) : result DurakEnv :=
  if negb (defending s) then Ok (set_reset_round true s)
  else if attack_phase s && reset_attacker s then
    a ← getitem (active_players s) attacker;
    Ok (set_turn_player (Some a) s)
  else if negb (attack_phase s) then
    d ← getitem (active_players s) defender;
    Ok (set_turn_player (Some d) s)
  else Ok s.

(** [update_end_round_players]: the notification itself is a no-op of the
    base class; what remains is the lookup of the defender's name, made
    once for every active player. *)
Definition update_end_round_players (s : DurakEnv) : result DurakEnv :=
  match active_players s with
  | [] => Ok s
  | _ :: _ => _ ← getitem (active_players s) defender; Ok s
  end.

(** The round resolution that [step] runs when [reset_round] is set. *)
Definition resolve_round (s : DurakEnv) : result DurakEnv :=
  s ← update_end_round_players s;
  s ← update_players_hands s;
  s ← remove_winners s;
  s ← update_active_players_order s;
  if negb (game_over s) then do_reset_round s else Ok s.

(** The state of the engine after the phase handler of [step] has run:
    this is the state [calculate_reward] reads. *)
Definition run_phase (s : DurakEnv) (action : CardType) : result DurakEnv :=
  let s := set_last_action action s in
  let s := set_reward 0%Z s in
  if attack_phase s then do_attack_phase s else do_defence_phase s.

Definition step (s : DurakEnv) (action : CardType)
  : result (DurakEnv * (StateType * Z * bool)) :=
  s ← run_phase s action;
  r ← calculate_reward s;
  let s := set_reward r s in
  s ← check_end_round s;
  s ← (if reset_round s then resolve_round s else Ok s);
  let s := update_legal_cards s in
  Ok (s, (state s, reward s, game_over s)).


(** *** Dealing and [reset] *)

Definition initialize_deck (shuffled : list CardType) (s : DurakEnv) : DurakEnv :=
  set_deck shuffled s.

Definition reset_hands (s : DurakEnv) : DurakEnv :=
  foldl (fun s p =>
           on_player p (fun q => Player.set_trump_suit (Player.empty_hand q) (trump_suit s)) s)
        s (active_players s).

(** The first two lines of the body of the loop of [deal_cards]: the player
    draws [HAND_SIZE] cards and takes them. *)
Definition deal_to (p : pid) (s : DurakEnv) : DurakEnv :=
  let '(drawn_cards, rest) := draw (deck s) HAND_SIZE in
  on_player p (fun q => Player.take_cards q drawn_cards) (set_deck rest s).

(** The loop of [deal_cards] over the players still to be served; the
    result [true] is the early [return True] at the first illegal hand. *)
Fixpoint deal_cards_loop (ps : list pid) (s : DurakEnv) : bool * DurakEnv :=
  match ps with
  | [] => (false, s)
  | p :: ps' =>
      let s := deal_to p s in
      if negb (Player.is_starting_hand_legal (heap s p)) then (true, s)
      else deal_cards_loop ps' s
  end.

Definition deal_cards (s : DurakEnv) : bool * DurakEnv :=
  deal_cards_loop (active_players s) s.

(** [initialize_players]: the [while deal] loop.  Each turn of the loop
    builds a fresh deck and shuffles it; [shuffles] lists the outcomes of the
    successive calls of [Deck.shuffle], and the loop is still running when
    the list is used up. *)
Fixpoint initialize_players (shuffles : list (list CardType)) (s : DurakEnv)
  : result DurakEnv :=
  match shuffles with
  | [] => Diverge
  | shuffled :: shuffles' =>
      let s := initialize_deck shuffled s in
      let s := reset_hands s in
      let '(deal, s) := deal_cards s in
      if deal then initialize_players shuffles' s else Ok s
  end.

(** The body of the [for] loop of [set_first_attacker].  For a hand without
    trump [get_lowest_trump] returns [Deck.NO_CARD]; the sentinel has the
    shape of a card ([NO_CARD] is a pair here), and the test
    [value < lowest_trump_value] of a tuple against an int raises
    [TypeError]. *)
Definition first_attacker_step (s : DurakEnv) (acc : Z * option string) (p : pid)
  : result (Z * option string) :=
  let '(lowest_trump_value, starting_player_name) := acc in
  match Player.get_lowest_trump (heap s p) with
  | Some value =>
      if (value <? lowest_trump_value)%Z then Ok (value, Some (name (heap s p)))
      else Ok acc
  | None => Raise TypeError
  end.

(** The [for] loop of [set_first_attacker] over the players still to be
    looked at. *)
Fixpoint first_attacker_loop (s : DurakEnv) (acc : Z * option string) (ps : list pid)
  : result (Z * option string) :=
  match ps with
  | [] => Ok acc
  | p :: ps' => acc ← first_attacker_step s acc p; first_attacker_loop s acc ps'
  end.

(** The [while] loop of [set_first_attacker], bounded by [fuel] turns. *)
Fixpoint rotate_to (fuel : nat) (starting_player_name : string) (s : DurakEnv)
  : result DurakEnv :=
  a ← getitem (active_players s) attacker;
  if decide (name (heap s a) ≠ starting_player_name) then
    match fuel with
    | O => Diverge
    | S fuel' => s ← move_attacker_back s; rotate_to fuel' starting_player_name s
    end
  else Ok s.

Definition set_first_attacker (s : DurakEnv) : result DurakEnv :=
  found ← first_attacker_loop s ((ACE + 1)%Z, None) (active_players s);
  match found.2 with
  | Some n => rotate_to (length (active_players s)) n s
  | None => Ok s
  end.

(** [__init__]: [players] are the identities of the player objects handed
    to the constructor, [objects] the objects themselves. *)
Definition init (players : list pid) (objects : pid -> DurakPlayer) : DurakEnv :=
  let s :=
    {| players := players; heap := objects; active_players := players;
       attacking_player := None; turn_player := None; loser := None;
       attacking_cards := []; defending_cards := [];
       legal_attacking_cards := []; legal_defending_cards := [];
       deck := get_full_list_of_cards; trump_suit := HEARTS;
       defending := true; successful := false; limit := 0%Z;
       last_action := NO_CARD; reset_round := false; attack_phase := true;
       reset_attacker := true; reward := 0%Z |} in
  foldl (fun s p => on_player p (fun q => Player.set_trump_suit q (trump_suit s)) s)
        s players.

(** [reset], in two parts: the re-initialisation of the fields, then the
    calls.  [order] is the outcome of [random.shuffle] on the copy of
    [self.players] (a permutation of it), [shuffles] the outcomes of the
    deck shuffles of [initialize_players]. *)
Definition reset_fields (s : DurakEnv) (order : list pid) : DurakEnv :=
  let s := set_active_players order s in
  let s := set_attacking_player None s in
  let s := set_turn_player None s in
  let s := set_loser None s in
  let s := set_attacking_cards [] s in
  let s := set_defending_cards [] s in
  let s := set_legal_attacking_cards [] s in
  let s := set_legal_defending_cards [] s in
  let s := set_deck get_full_list_of_cards s in
  let s := set_trump_suit HEARTS s in
  let s := set_defending true s in
  let s := set_successful false s in
  let s := set_limit 0%Z s in
  let s := set_last_action NO_CARD s in
  let s := set_reset_round false s in
  let s := set_attack_phase true s in
  let s := set_reset_attacker true s in
  set_reward 0%Z s.

Definition reset (s : DurakEnv) (order : list pid) (shuffles : list (list CardType))
  : result (DurakEnv * StateType) :=
  let s := reset_fields s order in
  s ← initialize_players shuffles s;
  s ← set_first_attacker s;
  s ← do_reset_round s;
  let s := update_legal_cards s in
  Ok (s, state s).

(** What every policy under src/ does with the card it has chosen
    (RandomPlayer.attack, LearningPlayer.defend, ...): a real card leaves the
    hand, [NO_CARD] leaves it as it is. *)
Definition remove_played (p : pid) (card : CardType) (s : DurakEnv) : result DurakEnv :=
  if decide (card ≠ NO_CARD) then
    h ← list_remove (_hand (heap s p)) card;
    Ok (on_player p (fun q => with_hand q h) s)
  else Ok s.

End Engine.


(** ** The policies of DurakPlayer.py *)

Section Policies.
Context `{DeckConsts}.

(** *** BasePlayer *)

(** One turn of the loop of [BasePlayer.__do_basic_play]. *)
Definition basic_play_step (trump_rank : option Z) (lowest_card card : CardType)
  : CardType :=
  let '(value, rank) := card in
  if bool_decide (trump_rank ∉ [Some rank; Some lowest_card.2])
     || (bool_decide (Some rank = trump_rank)
         && bool_decide (Some lowest_card.2 = trump_rank))
  then if (value <? lowest_card.1)%Z then card else lowest_card
  else if bool_decide (Some lowest_card.2 = trump_rank) then card
  else lowest_card.

(** [BasePlayer.__do_basic_play]: the player after the call, and the card
    returned. *)
Definition do_basic_play (p : DurakPlayer) (legal_cards_to_play : list CardType)
  : result (DurakPlayer * CardType) :=
  if bool_decide (length legal_cards_to_play = 1) then Ok (p, NO_CARD)
  else
    first ← getitem legal_cards_to_play 1;
    let lowest_card :=
      foldl (basic_play_step (_trump_rank p)) first (drop 2 legal_cards_to_play) in
    h ← list_remove (_hand p) lowest_card;
    Ok (with_hand p h, lowest_card).

(** *** get_weakest_card, get_strongest_card *)

(** [list.sort(key=...)] is stable: an insertion sort that puts an element
    before the first one that does not sort strictly before it. *)
Fixpoint insert_by {K} (before : K → K → bool) (key : CardType → K)
    (x : CardType) (l : list CardType) : list CardType :=
  match l with
  | [] => [x]
  | y :: l' =>
      if before (key y) (key x) then y :: insert_by before key x l'
      else x :: y :: l'
  end.

Definition sort_by {K} (before : K → K → bool) (key : CardType → K)
    (l : list CardType) : list CardType :=
  foldr (insert_by before key) [] l.

(** The keys of [get_weakest_card]: the value of a card, [None] for the
    [np.inf] of [NO_CARD]; ascending. *)
Definition weakest_key (x : CardType) : option Z :=
  if decide (x ≠ NO_CARD) then Some x.1 else None.

Definition weakest_before (a b : option Z) : bool :=
  match a, b with
  | Some a, Some b => (a <? b)%Z
  | Some _, None => true
  | None, _ => false
  end.

(** The keys of [get_strongest_card]: the value of a card, 0 for
    [NO_CARD]; [reverse=True] sorts descending and stays stable. *)
Definition strongest_key (x : CardType) : Z :=
  if decide (x = NO_CARD) then 0%Z else x.1.

Definition strongest_before (a b : Z) : bool := (b <? a)%Z.

(** The part the two methods share after the sort: the first card that is
    not [NO_CARD] and no trump, else the first card of the sorted list; the
    card chosen leaves the hand. *)
Definition pick_sorted (p : DurakPlayer) (sorted : list CardType)
  : result (DurakPlayer * CardType) :=
  first ← getitem sorted 0;
  if decide (first = NO_CARD) then Ok (p, NO_CARD)
  else
    let chosen :=
      match list_find (fun card : CardType =>
                         card ≠ NO_CARD ∧ Some card.2 ≠ _trump_rank p) sorted with
      | Some (_, card) => card
      | None => NO_CARD
      end in
    if decide (chosen = NO_CARD) then
      h ← list_remove (_hand p) first;
      Ok (with_hand p h, first)
    else
      h ← list_remove (_hand p) chosen;
      Ok (with_hand p h, chosen).

(** [get_weakest_card]: the player after the call, the card returned, and
    the list the caller passed, which the method sorts in place. *)
Definition get_weakest_card (p : DurakPlayer) (legal_cards_to_play : list CardType)
  : result (DurakPlayer * CardType * list CardType) :=
  if bool_decide (length legal_cards_to_play = 0) then
    Ok (p, NO_CARD, legal_cards_to_play)
  else
    let sorted := sort_by weakest_before weakest_key legal_cards_to_play in
    '(p', card) ← pick_sorted p sorted;
    Ok (p', card, sorted).

Definition get_strongest_card (p : DurakPlayer) (legal_cards_to_play : list CardType)
  : result (DurakPlayer * CardType * list CardType) :=
  if bool_decide (length legal_cards_to_play = 0) then
    Ok (p, NO_CARD, legal_cards_to_play)
  else
    let sorted := sort_by strongest_before strongest_key legal_cards_to_play in
    '(p', card) ← pick_sorted p sorted;
    Ok (p', card, sorted).

End Policies.

(** *** DurakPlayerWithMemory *)

Module Memory.

(** The two fields the class adds: what each other player is known to
    hold, and the discard pile. *)
Record DurakPlayerWithMemory := {
  other_players_hand : gmap string (gset CardType);
  discard_pile : gset CardType
}.

(** A call returns, or raises [Exception] with a message. *)
Inductive raised (A : Type) :=
| Returns (a : A)
| Exception (message : string).
Arguments Returns {A} a.
Arguments Exception {A} message.

(** The part of [__init__] after the constructor of the base class. *)
Definition init (other_players_names : list string) : DurakPlayerWithMemory :=
  {| other_players_hand :=
       foldl (fun hands player => <[player := ∅]> hands) ∅ other_players_names;
     discard_pile := ∅ |}.

Definition add_cards_to (m : DurakPlayerWithMemory) (name : string)
    (cards : gset CardType) : raised DurakPlayerWithMemory :=
  match other_players_hand m !! name with
  | None => Exception "This player doesn't exist"
  | Some held =>
      Returns {| other_players_hand := <[name := held ∪ cards]> (other_players_hand m);
                 discard_pile := discard_pile m |}
  end.

Definition remove_cards_from (m : DurakPlayerWithMemory) (name : string)
    (cards : gset CardType) : raised DurakPlayerWithMemory :=
  match other_players_hand m !! name with
  | None => Exception "This player doesn't exist"
  | Some held =>
      Returns {| other_players_hand := <[name := held ∖ cards]> (other_players_hand m);
                 discard_pile := discard_pile m ∪ cards |}
  end.

End Memory.

(** *** LearningPlayer (DurakPlayer.py) *)

Module Learning.

(** A call returns, or raises [ValueError] ([list.remove]) or [KeyError]
    (a key the dictionary does not hold). *)
Inductive raised (A : Type) :=
| Returns (a : A)
| RaisesValueError
| RaisesKeyError (key : string).
Arguments Returns {A} a.
Arguments RaisesValueError {A}.
Arguments RaisesKeyError {A} key.

Section WithDeck.
Context `{DeckConsts}.

(** [first_initialize], on the dictionary [cards_memory]. *)
Definition first_initialize (players_names : list string)
    (cards_memory : gmap string (list CardType)) : gmap string (list CardType) :=
  let cards_memory := <["unknown" := []]> cards_memory in
  let cards_memory := <["discarded" := []]> cards_memory in
  foldl (fun m name => <[name := []]> m) cards_memory players_names.

(** The body of the loop over the hand in [initialize_for_game]. *)
Definition remember_card (name : string) (cards_memory : gmap string (list CardType))
    (card : CardType) : raised (gmap string (list CardType)) :=
  match cards_memory !! "unknown" with
  | None => RaisesKeyError "unknown"
  | Some unknown =>
      match list_remove unknown card with
      | Ok unknown =>
          let cards_memory := <["unknown" := unknown]> cards_memory in
          match cards_memory !! name with
          | None => RaisesKeyError name
          | Some own => Returns (<[name := own ++ [card]]> cards_memory)
          end
      | _ => RaisesValueError
      end
  end.

Fixpoint remember_hand (name : string) (cards_memory : gmap string (list CardType))
    (hand : list CardType) : raised (gmap string (list CardType)) :=
  match hand with
  | [] => Returns cards_memory
  | card :: hand' =>
      match remember_card name cards_memory card with
      | Returns cards_memory => remember_hand name cards_memory hand'
      | RaisesValueError => RaisesValueError
      | RaisesKeyError key => RaisesKeyError key
      end
  end.

(** [initialize_for_game]: every list of the dictionary is emptied, the
    unknown cards are the full deck ([Deck.get_full_list_of_cards] is taken
    to hand out a list of its own), and the cards of the hand move from the
    unknown cards to the list under the player's name. *)
Definition initialize_for_game (name : string) (hand : list CardType)
    (cards_memory : gmap string (list CardType))
  : raised (gmap string (list CardType)) :=
  let cards_memory := (fun _ => []) <$> cards_memory in
  let cards_memory := <["unknown" := get_full_list_of_cards]> cards_memory in
  remember_hand name cards_memory hand.

End WithDeck.
End Learning.

(** ** Notions the statements use *)

Section Notions.
Context `{DeckConsts}.

(** Number of cards of one suit in a hand. *)
Definition count_suit (suit : Z) (h : list CardType) : Z :=
  Z.of_nat (length (filter (fun c => c.2 = suit) h)).

(** The spec's words for an illegal starting hand of [n] cards: one suit
    accounts for at least [n - 1] of the cards, or the hand is all red, or
    it is all black. *)
Definition spec_illegal_starting_hand (n : Z) (h : list CardType) : Prop :=
  (∃ suit, suit ∈ [HEARTS; DIAMONDS; SPADES; CLUBS] ∧ (n - 1 ≤ count_suit suit h)%Z)
  ∨ (count_suit HEARTS h + count_suit DIAMONDS h = n)%Z
  ∨ (count_suit SPADES h + count_suit CLUBS h = n)%Z.

(** Every card of the hand is of one of the four suits. *)
Definition four_suits (h : list CardType) : Prop :=
  Forall (fun c : CardType => c.2 ∈ [HEARTS; DIAMONDS; SPADES; CLUBS]) h.

(** One turn of the [while deal] loop: fresh shuffled deck, hands emptied,
    cards dealt. *)
Definition deal_attempt (shuffled : list CardType) (s : DurakEnv) : bool * DurakEnv :=
  deal_cards (reset_hands (initialize_deck shuffled s)).

(** The hand the [i]-th player served receives from the deck [d]. *)
Definition dealt_hand (d : list CardType) (i : nat) : list CardType :=
  take (Z.to_nat HAND_SIZE) (drop (i * Z.to_nat HAND_SIZE) d).

(** The ring with its head moved to the back. *)
Definition move_back (l : list pid) : list pid :=
  match l with
  | [] => []
  | x :: l' => l' ++ [x]
  end.

(** An action is a member of the published legal set of the current phase. *)
Definition legal_action (s : DurakEnv) (action : CardType) : Prop :=
  if attack_phase s then action ∈ legal_attacking_cards s
  else action ∈ legal_defending_cards s.

(** Between two calls of [step] the policies own the hands: they remove the
    card they play.  [hands_changed s s1] lets the hands differ in any way
    and nothing else. *)
Definition hands_changed (s s1 : DurakEnv) : Prop :=
  ∃ h, s1 = set_heap h s ∧ ∀ p, with_hand (h p) [] = with_hand (heap s p) [].

(** States of a game that started in [s0]: each [step] is made while the
    game is not over, with an action of the published legal set. *)
Inductive reachable_from (s0 : DurakEnv) : DurakEnv → Prop :=
| reach_start : reachable_from s0 s0
| reach_step s s1 action s' out :
    reachable_from s0 s →
    game_over s = false →
    legal_action s action →
    hands_changed s s1 →
    step s1 action = Ok (s', out) →
    reachable_from s0 s'.

(** The table respects the limit of the round. *)
Definition table_within_limit (s : DurakEnv) : Prop :=
  (0 ≤ Z.of_nat (length (defending_cards s))
   ∧ Z.of_nat (length (defending_cards s)) ≤ Z.of_nat (length (attacking_cards s))
   ∧ Z.of_nat (length (attacking_cards s)) ≤ limit s)%Z.

(** What holds between two calls of [step] while the game is on: the table
    is within the limit, the round is open, in the attack phase every attack
    is answered and one more attack fits, in the defence phase exactly one
    attack is unanswered and the turn is the defender's. *)
Definition round_invariant (s : DurakEnv) : Prop :=
  table_within_limit s
  ∧ (game_over s = false →
     defending s = true ∧ reset_round s = false
     ∧ (attack_phase s = true →
        length (attacking_cards s) = length (defending_cards s)
        ∧ (Z.of_nat (length (attacking_cards s)) < limit s)%Z)
     ∧ (attack_phase s = false →
        length (attacking_cards s) = S (length (defending_cards s))
        ∧ turn_player s = active_players s !! 1)).

(** A card [c] beats the attack card [a] under the trump suit [trump]. *)
Definition beats (trump : Z) (c a : CardType) : Prop :=
  (c.2 = a.2 ∧ (a.1 < c.1)%Z) ∨ (c.2 = trump ∧ a.2 ≠ trump).

(** A card [c] may answer the open attack of the table [att], [def], as
    [update_legal_cards] tests it: an attack is open, [c] is not among the
    defending cards, and [c] beats the last attacking card. *)
Definition may_defend (att def : list CardType) (trump : Z) (c : CardType) : Prop :=
  length def < length att ∧ (c ∉ def)
  ∧ match list.last att with
    | Some a => beats trump c a
    | None => False
    end.

#[export] Instance may_defend_dec att def trump c : Decision (may_defend att def trump c).
Proof. unfold may_defend, beats. destruct (list.last att); apply _. Defined.

(** A card [c] may join the attack on the table [att], [def]: it is not on
    the table and has the value of a card on it, in another suit. *)
Definition may_attack (att def : list CardType) (c : CardType) : Prop :=
  (c ∉ att) ∧ (c ∉ def)
  ∧ ∃ x, x ∈ att ++ def ∧ c.1 = x.1 ∧ c.2 ≠ x.2.

(** The ring holds every player once, and while the game is on the turn is
    with a member of the ring. *)
Definition ring_ok (s : DurakEnv) : Prop :=
  NoDup (active_players s)
  ∧ (game_over s = false → ∃ t, turn_player s = Some t ∧ t ∈ active_players s).

(** The card [c] is at most as strong as [x]: a trump outranks every card
    that is no trump, and otherwise the value decides. *)
Definition weaker (trump : Z) (c x : CardType) : Prop :=
  (c.2 ≠ trump ∧ x.2 = trump)
  ∨ ((c.2 = trump ↔ x.2 = trump) ∧ (c.1 ≤ x.1)%Z).

End Notions.

(** ** A concrete deck for the worked examples *)

(** Modelled from the spec: one instance of the absent constants of [Deck],
    a 36-card deck (values 6 to 14, the ace high, in four suits) with a
    sentinel outside of it.  The general theorems do not depend on it. *)
Module Deck36.

Definition hearts : Z := 0.
Definition diamonds : Z := 1.
Definition spades : Z := 2.
Definition clubs : Z := 3.

Definition values : list Z := [6; 7; 8; 9; 10; 11; 12; 13; 14]%Z.

Definition full : list CardType :=
  s ← [hearts; diamonds; spades; clubs]; (fun v => (v, s)) <$> values.

Definition no_card : CardType := ((-1)%Z, (-1)%Z).

Definition consts : DeckConsts :=
  {| NO_CARD := no_card;
     HEARTS := hearts; DIAMONDS := diamonds; SPADES := spades; CLUBS := clubs;
     ACE := 14%Z;
     get_full_list_of_cards := full;
     full_list_excludes_NO_CARD := bool_decide_unpack (no_card ∉ full) I;
     suits_distinct := bool_decide_unpack (NoDup [hearts; diamonds; spades; clubs]) I |}.

(** Player objects as the constructor receives them: empty hands, the
    initial hand size of the engine, one name each. *)
Definition fresh_players (p : pid) : DurakPlayer :=
  {| _hand := []; _trump_rank := None; initial_hand_size := HAND_SIZE;
     name := String (Ascii.ascii_of_nat (65 + p)) EmptyString |}.

(** A shuffle that deals (8,H) (8,S) to the first player served and (9,H)
    to the second: the twelve cards on top, the other 24 below. *)
Definition top12 : list CardType :=
  [(8, hearts); (8, spades); (6, clubs); (7, diamonds); (10, spades); (11, clubs);
   (9, hearts); (9, spades); (6, diamonds); (7, clubs); (10, diamonds); (12, clubs)]%Z.

Definition shuffled : list CardType :=
  top12 ++ filter (fun c => c ∉ top12) full.

(** Another shuffle: the cards by value, the four suits of each value in
    turn. *)
Definition by_value : list CardType :=
  v ← values; (fun s => (v, s)) <$> [hearts; diamonds; spades; clubs].

End Deck36.

(** ** A game on the concrete deck *)

(** Two players, the shuffle [Deck36.shuffled]; the first attack (8,H), the
    defence (9,H), the second attack (8,S), each card leaving the hand of
    the player before it reaches [step]. *)
Module Game36.
Import Deck36.

Definition e0 : DurakEnv := @init consts [0; 1] fresh_players.

(** The state a call leaves, the state before it if the call raised. *)
Definition state_of {A} (r : result (DurakEnv * A)) (otherwise : DurakEnv) : DurakEnv :=
  match r with
  | Ok (s, _) => s
  | _ => otherwise
  end.

Definition start : DurakEnv := state_of (@reset consts e0 [0; 1] [shuffled]) e0.

Definition played (p : pid) (card : CardType) (s : DurakEnv) : DurakEnv :=
  match @remove_played consts p card s with
  | Ok s1 => s1
  | _ => s
  end.

Definition after (p : pid) (card : CardType) (s : DurakEnv) : DurakEnv :=
  state_of (@step consts (played p card s) card) s.

Definition after_8H : DurakEnv := after 0 (8, hearts)%Z start.
Definition after_9H : DurakEnv := after 1 (9, hearts)%Z after_8H.
Definition after_8S : DurakEnv := after 0 (8, spades)%Z after_9H.

(** Three players, the shuffle [Deck36.by_value]; then the two ring updates
    of a round resolution, run on the state [reset] hands back. *)
Definition e3 : DurakEnv := @init consts [0; 1; 2] fresh_players.

Definition start3 : DurakEnv := state_of (@reset consts e3 [0; 1; 2] [by_value]) e3.

Definition removed3 : DurakEnv :=
  match @remove_winners start3 with
  | Ok s => s
  | _ => start3
  end.

Definition turned3 : DurakEnv :=
  match @update_active_players_order removed3 with
  | Ok s => s
  | _ => removed3
  end.

(** The table of [after_8S] on its own. *)
Definition table_8H_9H_8S : DurakEnv :=
  set_defending_cards [(9, hearts)%Z]
    (set_attacking_cards [(8, hearts); (8, spades)]%Z e0).

(** A last round: the deck is used up, player 0 has played the last card of
    the hand, player 1 holds one card; then the round resolution. *)
Definition last_round : DurakEnv :=
  set_deck []
    (set_heap (fun p => with_hand (fresh_players p)
                          (if decide (p = 0) then [] else [(6, clubs)%Z]))
       start).

Definition resolved_last : DurakEnv :=
  match resolve_round last_round with
  | Ok s => s
  | _ => last_round
  end.

(** One player, and seven. *)
Definition e1 : DurakEnv := @init consts [0] fresh_players.

Definition dealt1 : DurakEnv :=
  match @initialize_players consts [by_value] (@reset_fields consts e1 [0]) with
  | Ok s => s
  | _ => e1
  end.

Definition e7 : DurakEnv := @init consts [0; 1; 2; 3; 4; 5; 6] fresh_players.

Definition dealt7 : DurakEnv :=
  match @initialize_players consts [by_value]
          (@reset_fields consts e7 [0; 1; 2; 3; 4; 5; 6]) with
  | Ok s => s
  | _ => e7
  end.

End Game36.

(** * Proofs *)

(** ** The result monad and the list primitives *)

Lemma bind_Ok {A B} (m : result A) (f : A → result B) (b : B) :
  m ≫= f = Ok b → ∃ a, m = Ok a ∧ f a = Ok b.
Proof. destruct m as [a| |]; simpl; intros E; try discriminate. by exists a. Qed.

(** Inverts every bind that sits in a hypothesis [_ = Ok _]. *)
Ltac inv_bind :=
  repeat match goal with
  | E : (_ ≫= _) = Ok _ |- _ =>
      let a := fresh "x" in
      let E1 := fresh "E" in
      apply bind_Ok in E as (a & E1 & E)
  | E : Ok _ = Ok _ |- _ => injection E as E; try subst
  | E : Raise _ = Ok _ |- _ => discriminate E
  | E : Diverge = Ok _ |- _ => discriminate E
  end.

Lemma getitem_nat {A} (l : list A) (i : nat) (x : A) :
  l !! i = Some x → getitem l (Z.of_nat i) = Ok x.
Proof.
  intros E. pose proof (lookup_lt_Some _ _ _ E) as Hlt. unfold getitem.
  destruct (Z.ltb_spec (Z.of_nat i) 0); [lia|].
  destruct (Z.ltb_spec (Z.of_nat i) 0); [lia|].
  destruct (Z.leb_spec (Z.of_nat (length l)) (Z.of_nat i)); [lia|].
  simpl. rewrite Nat2Z.id. by rewrite E.
Qed.

Lemma getitem_Ok {A} (l : list A) (i : Z) (x : A) :
  getitem l i = Ok x →
  (0 ≤ i)%Z ∧ l !! Z.to_nat i = Some x
  ∨ (i < 0)%Z ∧ l !! Z.to_nat (i + Z.of_nat (length l)) = Some x.
Proof.
  unfold getitem. destruct (Z.ltb_spec i 0).
  - destruct (Z.ltb_spec (i + Z.of_nat (length l)) 0); simpl; [discriminate|].
    destruct (Z.leb_spec (Z.of_nat (length l)) (i + Z.of_nat (length l)));
      [discriminate|].
    destruct (l !! _) eqn:E; [|discriminate]. intros [= ->]. by right.
  - destruct (Z.ltb_spec i 0); [lia|]. simpl.
    destruct (Z.leb_spec (Z.of_nat (length l)) i); [discriminate|].
    destruct (l !! _) eqn:E; [|discriminate]. intros [= ->]. by left.
Qed.

Lemma getitem_0 {A} (l : list A) (x : A) : getitem l 0 = Ok x ↔ l !! 0 = Some x.
Proof.
  split.
  - intros [[_ E]|[? _]]%getitem_Ok; [done|lia].
  - apply (getitem_nat l 0).
Qed.

Lemma getitem_1 {A} (l : list A) (x : A) : getitem l 1 = Ok x ↔ l !! 1 = Some x.
Proof.
  split.
  - intros [[_ E]|[? _]]%getitem_Ok; [done|lia].
  - apply (getitem_nat l 1).
Qed.

Lemma getitem_last {A} (l : list A) (x : A) : getitem l (-1) = Ok x ↔ list.last l = Some x.
Proof.
  rewrite last_lookup. split.
  - intros [[? _]|[_ E]]%getitem_Ok; [lia|].
    by replace (Z.to_nat (-1 + Z.of_nat (length l))) with (pred (length l)) in E by lia.
  - intros E. pose proof (lookup_lt_Some _ _ _ E) as Hlt.
    unfold getitem.
    destruct (Z.ltb_spec (-1) 0); [|lia].
    destruct (Z.ltb_spec (-1 + Z.of_nat (length l)) 0); [lia|].
    destruct (Z.leb_spec (Z.of_nat (length l)) (-1 + Z.of_nat (length l))); [lia|].
    simpl.
    replace (Z.to_nat (-1 + Z.of_nat (length l))) with (pred (length l)) by lia.
    by rewrite E.
Qed.

Lemma index_from_nat `{EqDecision A} (l : list A) (x : A) (i : nat) (k : Z) :
  l !! i = Some x → (∀ j y, j < i → l !! j = Some y → y ≠ x) →
  index_from l x k = Ok (k + Z.of_nat i)%Z.
Proof.
  revert i k. induction l as [|y l IH]; intros i k E Hfirst; [done|].
  simpl. destruct i as [|i]; simpl in E.
  - injection E as ->. rewrite decide_True by done. f_equal. lia.
  - rewrite decide_False by (apply (Hfirst 0 y); [lia|done]).
    rewrite (IH i (k + 1)%Z E).
    + f_equal. lia.
    + intros j z Hj Ej. apply (Hfirst (S j) z); [lia|done].
Qed.

Lemma index_NoDup `{EqDecision A} (l : list A) (x : A) (i : nat) :
  NoDup l → l !! i = Some x → index l x = Ok (Z.of_nat i).
Proof.
  intros Hnd E. unfold index. rewrite (index_from_nat l x i 0 E); [done|].
  intros j y Hj Ej ->. pose proof (NoDup_lookup _ _ _ _ Hnd E Ej). lia.
Qed.

(** ** Starting hands *)

Section StartingHand.
Context `{DeckConsts}.

Lemma suits_ne :
  HEARTS ≠ DIAMONDS ∧ HEARTS ≠ SPADES ∧ HEARTS ≠ CLUBS
  ∧ DIAMONDS ≠ SPADES ∧ DIAMONDS ≠ CLUBS ∧ SPADES ≠ CLUBS.
Proof.
  pose proof suits_distinct as Hnd.
  rewrite !list.NoDup_cons in Hnd. set_unfold. naive_solver.
Qed.

Lemma count_suit_cons suit (c : CardType) h :
  count_suit suit (c :: h)
  = ((if decide (c.2 = suit) then 1 else 0) + count_suit suit h)%Z.
Proof.
  unfold count_suit. rewrite filter_cons. destruct (decide (c.2 = suit)); simpl; lia.
Qed.

Lemma count_suit_nonneg suit h : (0 ≤ count_suit suit h)%Z.
Proof. unfold count_suit. lia. Qed.

Lemma foldl_count_suits (h : list CardType) (a b c d : Z) :
  four_suits h →
  foldl Player.count_suits_step (a, b, c, d) h
  = ((a + count_suit HEARTS h)%Z, (b + count_suit DIAMONDS h)%Z,
     (c + count_suit SPADES h)%Z, (d + count_suit CLUBS h)%Z).
Proof.
  destruct suits_ne as (? & ? & ? & ? & ? & ?).
  intros Hs. revert a b c d. induction Hs as [|x h Hx Hs IH]; intros a b c d.
  - unfold count_suit. simpl. repeat f_equal; lia.
  - simpl. rewrite !count_suit_cons.
    assert (x.2 = HEARTS ∨ x.2 = DIAMONDS ∨ x.2 = SPADES ∨ x.2 = CLUBS) as Hsuit.
    { set_unfold in Hx. tauto. }
    repeat case_decide; try congruence; try tauto;
      rewrite IH, <- ?Z.add_assoc, ?Z.add_0_l; reflexivity.
Qed.

Lemma count_suits_spec (h : list CardType) :
  four_suits h →
  Player.count_suits h
  = (count_suit HEARTS h, count_suit DIAMONDS h, count_suit SPADES h, count_suit CLUBS h).
Proof. intros Hs. unfold Player.count_suits. by rewrite foldl_count_suits. Qed.

Lemma count_suit_total (h : list CardType) :
  four_suits h →
  (count_suit HEARTS h + count_suit DIAMONDS h + count_suit SPADES h + count_suit CLUBS h
   = Z.of_nat (length h))%Z.
Proof.
  destruct suits_ne as (? & ? & ? & ? & ? & ?).
  induction 1 as [|x h Hx Hs IH]; [done|].
  rewrite !count_suit_cons. simpl length.
  repeat case_decide; try congruence; try lia.
  set_solver.
Qed.

(** The test of [is_starting_hand_legal], on a hand of as many cards as the
    player's initial hand size, says what the spec says. *)
Lemma starting_hand_legal_iff (p : DurakPlayer) :
  four_suits (_hand p) →
  Z.of_nat (length (_hand p)) = initial_hand_size p →
  Player.is_starting_hand_legal p = false
  ↔ spec_illegal_starting_hand (initial_hand_size p) (_hand p).
Proof.
  intros Hs Hlen. unfold Player.is_starting_hand_legal, spec_illegal_starting_hand.
  rewrite (count_suits_spec _ Hs).
  pose proof (count_suit_total _ Hs) as Htot.
  pose proof (count_suit_nonneg HEARTS (_hand p)).
  pose proof (count_suit_nonneg DIAMONDS (_hand p)).
  pose proof (count_suit_nonneg SPADES (_hand p)).
  pose proof (count_suit_nonneg CLUBS (_hand p)).
  set (n := initial_hand_size p) in *.
  split.
  - intros E. repeat case_bool_decide; try discriminate; auto.
    left. match goal with Hin : _ ∈ _ |- _ => rename Hin into Hin' end.
    set_unfold in Hin'.
    destruct Hin' as [E1|[E1|[E1|[E1|[]]]]].
    + exists HEARTS. split; [set_solver|lia].
    + exists DIAMONDS. split; [set_solver|lia].
    + exists SPADES. split; [set_solver|lia].
    + exists CLUBS. split; [set_solver|lia].
  - intros Hill.
    assert ((n - 1)%Z ∈ [count_suit HEARTS (_hand p); count_suit DIAMONDS (_hand p);
                          count_suit SPADES (_hand p); count_suit CLUBS (_hand p)]
            ∨ (count_suit HEARTS (_hand p) + count_suit DIAMONDS (_hand p))%Z = n
            ∨ (count_suit SPADES (_hand p) + count_suit CLUBS (_hand p))%Z = n) as Hcode.
    { destruct Hill as [(suit & Hin & Hge)|[?|?]]; [|by auto|by auto].
      set_unfold in Hin.
      destruct Hin as [->|[->|[->|[->|[]]]]].
      - destruct (decide (count_suit HEARTS (_hand p) = n - 1)%Z) as [E|];
          [left; rewrite <- E; set_solver|right; left; lia].
      - destruct (decide (count_suit DIAMONDS (_hand p) = n - 1)%Z) as [E|];
          [left; rewrite <- E; set_solver|right; left; lia].
      - destruct (decide (count_suit SPADES (_hand p) = n - 1)%Z) as [E|];
          [left; rewrite <- E; set_solver|right; right; lia].
      - destruct (decide (count_suit CLUBS (_hand p) = n - 1)%Z) as [E|];
          [left; rewrite <- E; set_solver|right; right; lia]. }
    repeat case_bool_decide; try done; tauto.
Qed.

End StartingHand.

(** ** Dealing *)

Section Dealing.
Context `{DeckConsts}.

Lemma heap_on_player p f s q :
  heap (on_player p f s) q = if decide (p = q) then f (heap s p) else heap s q.
Proof.
  unfold on_player. simpl. destruct (decide (p = q)) as [->|].
  - by rewrite fn_lookup_insert.
  - by rewrite fn_lookup_insert_ne.
Qed.

Lemma legal_hand_ext (p q : DurakPlayer) :
  _hand p = _hand q → initial_hand_size p = initial_hand_size q →
  Player.is_starting_hand_legal p = Player.is_starting_hand_legal q.
Proof. unfold Player.is_starting_hand_legal. by intros -> ->. Qed.

(** [reset_hands] empties the hand of every active player and leaves the
    rest of the engine alone. *)
Lemma reset_hands_loop ps s :
  let s' := foldl (fun s p =>
              on_player p (fun q => Player.set_trump_suit (Player.empty_hand q) (trump_suit s)) s)
              s ps in
  s' = set_heap (heap s') s
  ∧ (∀ p, p ∈ ps → _hand (heap s' p) = [])
  ∧ (∀ p, p ∉ ps → heap s' p = heap s p)
  ∧ (∀ p, initial_hand_size (heap s' p) = initial_hand_size (heap s p)).
Proof.
  revert s. induction ps as [|p ps IH]; intros s; simpl.
  - split; [by destruct s|]. split; [set_solver|done].
  - set (s1 := on_player p _ s).
    destruct (IH s1) as (Eq & Hin & Hout & Hsz). split_and!.
    + rewrite Eq at 1. done.
    + intros q [Eq'|Hq]%elem_of_cons; [subst q|by apply Hin].
      destruct (decide (p ∈ ps)); [by apply Hin|].
      rewrite Hout by done. unfold s1. rewrite heap_on_player, decide_True by done. done.
    + intros q Hq. apply not_elem_of_cons in Hq as [Hne Hq].
      rewrite Hout by done. unfold s1. by rewrite heap_on_player, decide_False.
    + intros q. rewrite Hsz. unfold s1. rewrite heap_on_player.
      by destruct (decide (p = q)) as [->|].
Qed.

Lemma reset_hands_spec s :
  reset_hands s = set_heap (heap (reset_hands s)) s
  ∧ (∀ p, p ∈ active_players s → _hand (heap (reset_hands s) p) = [])
  ∧ (∀ p, initial_hand_size (heap (reset_hands s) p) = initial_hand_size (heap s p)).
Proof.
  destruct (reset_hands_loop (active_players s) s) as (? & ? & ? & ?). done.
Qed.

(** The loop of [deal_cards]: what it leaves alone. *)
Lemma deal_cards_loop_cons p ps s :
  deal_cards_loop (p :: ps) s
  = if negb (Player.is_starting_hand_legal (heap (deal_to p s) p)) then (true, deal_to p s)
    else deal_cards_loop ps (deal_to p s).
Proof. done. Qed.

Lemma heap_deal_to p s q :
  heap (deal_to p s) q
  = if decide (p = q)
    then Player.take_cards (heap s p) (take (Z.to_nat HAND_SIZE) (deck s))
    else heap s q.
Proof.
  change (deal_to p s) with
    (on_player p (fun q => Player.take_cards q (take (Z.to_nat HAND_SIZE) (deck s)))
       (set_deck (drop (Z.to_nat HAND_SIZE) (deck s)) s)).
  by rewrite heap_on_player.
Qed.

Lemma deck_deal_to p s : deck (deal_to p s) = drop (Z.to_nat HAND_SIZE) (deck s).
Proof. done. Qed.

Lemma deal_to_frame p s :
  deal_to p s = set_deck (deck (deal_to p s)) (set_heap (heap (deal_to p s)) s).
Proof. done. Qed.

Lemma deal_cards_loop_frame ps s b s' :
  deal_cards_loop ps s = (b, s') →
  s' = set_deck (deck s') (set_heap (heap s') s)
  ∧ (∀ q, initial_hand_size (heap s' q) = initial_hand_size (heap s q))
  ∧ (∀ q, length (_hand (heap s q)) ≤ length (_hand (heap s' q))).
Proof.
  revert s. induction ps as [|p ps IH]; intros s.
  - intros [= <- <-]. by destruct s.
  - rewrite deal_cards_loop_cons.
    assert (∀ q, initial_hand_size (heap (deal_to p s) q) = initial_hand_size (heap s q))
      as Hsz1.
    { intros q. rewrite heap_deal_to. by destruct (decide (p = q)) as [->|]. }
    assert (∀ q, length (_hand (heap s q)) ≤ length (_hand (heap (deal_to p s) q)))
      as Hlen1.
    { intros q. rewrite heap_deal_to. destruct (decide (p = q)) as [->|]; simpl; [|done].
      rewrite length_app. lia. }
    destruct (negb _).
    + intros [= <- <-]. done.
    + intros (Eq & Hsz & Hlen)%IH. split_and!.
      * rewrite Eq at 1. done.
      * intros q. by rewrite Hsz.
      * intros q. etrans; [apply Hlen1|apply Hlen].
Qed.

Lemma drop_hand_size (d : list CardType) (k : nat) :
  drop (Z.to_nat HAND_SIZE) (drop (k * Z.to_nat HAND_SIZE) d)
  = drop (S k * Z.to_nat HAND_SIZE) d.
Proof. rewrite drop_drop. f_equal. lia. Qed.

(** A deal that goes through serves the [i]-th player the [i]-th block of
    six cards, and every hand has passed the test. *)
Lemma deal_cards_loop_false ps : ∀ s s' d k,
  NoDup ps →
  (∀ p, p ∈ ps → _hand (heap s p) = []) →
  deck s = drop (k * Z.to_nat HAND_SIZE) d →
  deal_cards_loop ps s = (false, s') →
  (∀ i p, ps !! i = Some p →
     _hand (heap s' p) = dealt_hand d (k + i)
     ∧ Player.is_starting_hand_legal (heap s' p) = true)
  ∧ (∀ q, q ∉ ps → heap s' q = heap s q)
  ∧ deck s' = drop ((k + length ps) * Z.to_nat HAND_SIZE) d.
Proof.
  induction ps as [|p ps IH]; intros s s' d k Hnd Hempty Hdeck.
  - intros [= <-]. split_and!; [done|done|]. rewrite Hdeck. do 2 f_equal. simpl. lia.
  - rewrite deal_cards_loop_cons.
    destruct (Player.is_starting_hand_legal (heap (deal_to p s) p)) eqn:Hlegal; simpl;
      [|intros [=]].
    apply list.NoDup_cons in Hnd as [Hp Hnd]. intros Hloop.
    assert (_hand (heap (deal_to p s) p) = dealt_hand d k) as Hp1.
    { rewrite heap_deal_to, decide_True by done. simpl.
      rewrite Hempty by set_solver. simpl. by rewrite Hdeck. }
    destruct (IH (deal_to p s) s' d (S k)) as (Hserved & Hout & Hdeck'); try done.
    { intros q Hq. rewrite heap_deal_to, decide_False by set_solver.
      apply Hempty. set_solver. }
    { rewrite deck_deal_to, Hdeck. apply drop_hand_size. }
    split_and!.
    + intros [|i] q Hq; simpl in Hq.
      * injection Hq as <-. rewrite Hout by done. rewrite Nat.add_0_r. done.
      * replace (k + S i) with (S k + i) by lia. by apply Hserved.
    + intros q [Hne Hq]%not_elem_of_cons. rewrite Hout by done.
      by rewrite heap_deal_to, decide_False.
    + rewrite Hdeck'. do 2 f_equal. simpl. lia.
Qed.

(** A deal that is broken off has met an illegal hand. *)
Lemma deal_cards_loop_true ps : ∀ s s' d k,
  NoDup ps →
  (∀ p, p ∈ ps → _hand (heap s p) = []) →
  deck s = drop (k * Z.to_nat HAND_SIZE) d →
  deal_cards_loop ps s = (true, s') →
  ∃ i p, ps !! i = Some p
    ∧ Player.is_starting_hand_legal (with_hand (heap s p) (dealt_hand d (k + i))) = false.
Proof.
  induction ps as [|p ps IH]; intros s s' d k Hnd Hempty Hdeck; [done|].
  rewrite deal_cards_loop_cons.
  apply list.NoDup_cons in Hnd as [Hp Hnd].
  assert (_hand (heap (deal_to p s) p) = dealt_hand d k) as Hp1.
  { rewrite heap_deal_to, decide_True by done. simpl.
    rewrite Hempty by set_solver. simpl. by rewrite Hdeck. }
  destruct (Player.is_starting_hand_legal (heap (deal_to p s) p)) eqn:Hlegal; simpl.
  - intros Hloop. destruct (IH (deal_to p s) s' d (S k)) as (i & q & Hq & Hill); try done.
    { intros q Hq. rewrite heap_deal_to, decide_False by set_solver.
      apply Hempty. set_solver. }
    { rewrite deck_deal_to, Hdeck. apply drop_hand_size. }
    exists (S i), q. split; [done|].
    replace (k + S i) with (S k + i) by lia. rewrite <- Hill.
    apply legal_hand_ext; [done|]. rewrite heap_deal_to.
    destruct (decide (p = q)) as [->|]; [|done].
    by apply list_elem_of_lookup_2 in Hq.
  - intros _. exists 0, p. split; [done|]. rewrite Nat.add_0_r, <- Hlegal.
    apply legal_hand_ext; [by rewrite Hp1|].
    by rewrite heap_deal_to, decide_True.
Qed.

End Dealing.

(** ** The [while deal] loop *)

Section InitializePlayers.
Context `{DeckConsts}.

(** One turn of the loop, from any engine state. *)
Lemma deal_attempt_spec d s b s1 :
  NoDup (active_players s) →
  deal_attempt d s = (b, s1) →
  active_players s1 = active_players s
  ∧ (∀ q, initial_hand_size (heap s1 q) = initial_hand_size (heap s q))
  ∧ (b = true → ∃ i p, active_players s !! i = Some p
       ∧ Player.is_starting_hand_legal (with_hand (heap s p) (dealt_hand d i)) = false)
  ∧ (b = false →
       (∀ i p, active_players s !! i = Some p →
          _hand (heap s1 p) = dealt_hand d i
          ∧ Player.is_starting_hand_legal (heap s1 p) = true)
       ∧ deck s1 = drop (length (active_players s) * Z.to_nat HAND_SIZE) d).
Proof.
  intros Hnd. unfold deal_attempt, deal_cards.
  set (s0 := reset_hands (initialize_deck d s)).
  destruct (reset_hands_spec (initialize_deck d s)) as (Eq0 & Hempty & Hsz0).
  fold s0 in Eq0, Hempty, Hsz0.
  assert (active_players s0 = active_players s) as Hact by (by rewrite Eq0).
  assert (deck s0 = d) as Hdeck by (by rewrite Eq0).
  rewrite Hact. intros Hloop.
  destruct (deal_cards_loop_frame _ _ _ _ Hloop) as (Eq1 & Hsz1 & _).
  split_and!.
  - rewrite Eq1. simpl. done.
  - intros q. by rewrite Hsz1, Hsz0.
  - intros ->.
    destruct (deal_cards_loop_true _ s0 s1 d 0 Hnd) as (i & p & Hp & Hill); try done.
    exists i, p. split; [done|]. rewrite <- Hill.
    apply legal_hand_ext; [done|]. simpl. by rewrite Hsz0.
  - intros ->.
    destruct (deal_cards_loop_false _ s0 s1 d 0 Hnd) as (Hserved & _ & Hd); try done.
Qed.

(** The loop stops at the first shuffle whose deal is legal for everyone;
    the hands it leaves are that deal, and every earlier shuffle dealt an
    illegal hand to someone. *)
Lemma initialize_players_Ok shuffles : ∀ s s',
  NoDup (active_players s) →
  initialize_players shuffles s = Ok s' →
  ∃ before d after,
    shuffles = before ++ d :: after
    ∧ (∀ d0, d0 ∈ before → ∃ i p, active_players s !! i = Some p
         ∧ Player.is_starting_hand_legal (with_hand (heap s p) (dealt_hand d0 i)) = false)
    ∧ (∀ i p, active_players s !! i = Some p →
         _hand (heap s' p) = dealt_hand d i
         ∧ Player.is_starting_hand_legal (heap s' p) = true)
    ∧ deck s' = drop (length (active_players s) * Z.to_nat HAND_SIZE) d
    ∧ active_players s' = active_players s.
Proof.
  induction shuffles as [|d shuffles IH]; intros s s' Hnd; [done|].
  simpl. fold (deal_attempt d s).
  destruct (deal_attempt d s) as [b s1] eqn:Hatt.
  destruct (deal_attempt_spec _ _ _ _ Hnd Hatt) as (Hact & Hsz & Htrue & Hfalse).
  destruct b.
  - intros Hrec. destruct (Htrue eq_refl) as (i0 & p0 & Hp0 & Hill0).
    destruct (IH s1 s') as (before & d1 & after & -> & Hbefore & Hserved & Hdeck & Hact');
      [by rewrite Hact|done|].
    exists (d :: before), d1, after. split_and!; [done| | | |].
    + intros d0 [->|Hd0]%elem_of_cons; [by eauto|].
      destruct (Hbefore d0 Hd0) as (i & p & Hp & Hill).
      exists i, p. rewrite <- Hact. split; [done|]. rewrite <- Hill.
      apply legal_hand_ext; [done|]. simpl. by rewrite Hsz.
    + intros i p Hp. apply Hserved. by rewrite Hact.
    + by rewrite Hdeck, Hact.
    + by rewrite Hact'.
  - intros [= <-]. destruct (Hfalse eq_refl) as (Hserved & Hdeck).
    exists [], d, shuffles. split_and!; [done| |done|done|done].
    intros d0 Hd0. by apply elem_of_nil in Hd0.
Qed.

(** The loop comes to an end as soon as the shuffles hold a legal deal. *)
Lemma initialize_players_total shuffles : ∀ s d,
  NoDup (active_players s) →
  d ∈ shuffles →
  (∀ i p, active_players s !! i = Some p →
     Player.is_starting_hand_legal (with_hand (heap s p) (dealt_hand d i)) = true) →
  ∃ s', initialize_players shuffles s = Ok s'.
Proof.
  induction shuffles as [|d1 shuffles IH]; intros s d Hnd Hd Hlegal.
  { by apply elem_of_nil in Hd. }
  simpl. fold (deal_attempt d1 s).
  destruct (deal_attempt d1 s) as [b s1] eqn:Hatt.
  destruct (deal_attempt_spec _ _ _ _ Hnd Hatt) as (Hact & Hsz & Htrue & Hfalse).
  destruct b; [|by eauto].
  apply elem_of_cons in Hd as [->|Hd].
  - destruct (Htrue eq_refl) as (i & p & Hp & Hill).
    rewrite (Hlegal i p Hp) in Hill. discriminate.
  - apply (IH s1 d); [by rewrite Hact|done|].
    intros i p Hp. rewrite Hact in Hp. rewrite <- (Hlegal i p Hp).
    apply legal_hand_ext; [done|]. simpl. by rewrite Hsz.
Qed.

End InitializePlayers.

(** ** Claim C8 *)

Section ClaimC8.
Context `{DeckConsts}.

(** C8.  A starting hand of as many cards as the player's initial hand size
    ([HAND_SIZE] in the engine) is rejected by [is_starting_hand_legal]
    exactly when one suit accounts for at least that size minus one of its
    cards, or hearts and diamonds make up the whole hand, or spades and clubs
    do.  The loop of [initialize_players] stops at the first shuffle that
    deals every active player a legal hand: every earlier shuffle dealt
    somebody an illegal hand, the hands left are the blocks of that one
    shuffle (all earlier cards are gone), and every one of them is legal; the
    loop does stop when such a shuffle comes.  Three hearts with three
    diamonds are rejected, two hearts with two spades and two clubs are
    accepted. *)
Theorem C8_starting_hand_and_redeal :
  (∀ p, four_suits (_hand p) →
        Z.of_nat (length (_hand p)) = initial_hand_size p →
        (Player.is_starting_hand_legal p = false
         ↔ spec_illegal_starting_hand (initial_hand_size p) (_hand p)))
  ∧ (∀ shuffles s s',
        NoDup (active_players s) →
        initialize_players shuffles s = Ok s' →
        ∃ before d after,
          shuffles = before ++ d :: after
          ∧ (∀ d0, d0 ∈ before → ∃ i p, active_players s !! i = Some p
               ∧ Player.is_starting_hand_legal
                   (with_hand (heap s p) (dealt_hand d0 i)) = false)
          ∧ (∀ i p, active_players s !! i = Some p →
               _hand (heap s' p) = dealt_hand d i
               ∧ Player.is_starting_hand_legal (heap s' p) = true)
          ∧ deck s' = drop (length (active_players s) * Z.to_nat HAND_SIZE) d
          ∧ active_players s' = active_players s)
  ∧ (∀ shuffles s d,
        NoDup (active_players s) →
        d ∈ shuffles →
        (∀ i p, active_players s !! i = Some p →
           Player.is_starting_hand_legal (with_hand (heap s p) (dealt_hand d i)) = true) →
        ∃ s', initialize_players shuffles s = Ok s')
  ∧ (∀ p, four_suits (_hand p) → initial_hand_size p = HAND_SIZE →
        Z.of_nat (length (_hand p)) = HAND_SIZE →
        count_suit HEARTS (_hand p) = 3%Z → count_suit DIAMONDS (_hand p) = 3%Z →
        Player.is_starting_hand_legal p = false)
  ∧ (∀ p, four_suits (_hand p) → initial_hand_size p = HAND_SIZE →
        Z.of_nat (length (_hand p)) = HAND_SIZE →
        count_suit HEARTS (_hand p) = 2%Z → count_suit SPADES (_hand p) = 2%Z →
        count_suit CLUBS (_hand p) = 2%Z →
        Player.is_starting_hand_legal p = true).
Proof.
  split_and!.
  - apply starting_hand_legal_iff.
  - intros shuffles s s'. apply initialize_players_Ok.
  - intros shuffles s d. apply initialize_players_total.
  - intros p Hs Hsz Hlen Hh Hd. apply starting_hand_legal_iff; [done|congruence|].
    right; left. rewrite Hh, Hd, Hsz. done.
  - intros p Hs Hsz Hlen Hh Hsp Hc.
    destruct (Player.is_starting_hand_legal p) eqn:Hlegal; [done|].
    apply starting_hand_legal_iff in Hlegal; [|done|congruence].
    pose proof (count_suit_total _ Hs) as Htot.
    rewrite Hsz in Hlegal. unfold HAND_SIZE in *.
    destruct Hlegal as [(suit & Hin & Hge)|[?|?]]; [|lia|lia].
    set_unfold in Hin. destruct Hin as [->|[->|[->|[->|[]]]]]; lia.
Qed.

End ClaimC8.

(** ** The attack phase *)

#[global] Arguments getitem : simpl never.
#[global] Arguments index : simpl never.

Lemma getitem_succ {A} (l : list A) (i : nat) (x : A) :
  l !! S i = Some x → getitem l (Z.of_nat i + 1) = Ok x.
Proof.
  intros E. replace (Z.of_nat i + 1)%Z with (Z.of_nat (S i)) by lia.
  by apply getitem_nat.
Qed.

Lemma index_player (l : list pid) (i : nat) (t : pid) :
  NoDup l → l !! i = Some t → index (Some <$> l) (Some t) = Ok (Z.of_nat i).
Proof.
  intros Hnd E. apply index_NoDup.
  - apply (NoDup_fmap_2 _), Hnd.
  - by rewrite list_lookup_fmap, E.
Qed.

Lemma last_lookup_Some {A} (l : list A) (i : nat) (x : A) :
  S i = length l → l !! i = Some x → list.last l = Some x.
Proof. intros Hlen E. rewrite last_lookup, <- Hlen. done. Qed.

Section ClaimC5.
Context `{DeckConsts}.

(** C5.  In the attack phase a real card is appended to the attacking cards
    and the phase becomes the defence phase.  On [NO_CARD]: if the turn
    player is the last member of the ring the round ends successfully;
    otherwise the turn passes to the next member of the ring, and when that
    member is the defender it passes on to the member after the defender,
    unless the defender is the last member: then the pointer steps back to
    the member before the defender and the round ends successfully. *)
Theorem C5_attack_phase (s : DurakEnv) :
  (last_action s ≠ NO_CARD →
     ∃ s', do_attack_phase s = Ok s'
       ∧ attacking_cards s' = attacking_cards s ++ [last_action s]
       ∧ defending_cards s' = defending_cards s
       ∧ attack_phase s' = false
       ∧ turn_player s' = turn_player s
       ∧ defending s' = defending s)
  ∧ (last_action s = NO_CARD → NoDup (active_players s) →
     ∀ i t, turn_player s = Some t → active_players s !! i = Some t →
       (S i = length (active_players s) →
          ∃ s', do_attack_phase s = Ok s'
            ∧ defending s' = false ∧ successful s' = true
            ∧ turn_player s' = Some t
            ∧ attacking_cards s' = attacking_cards s)
       ∧ (S i < length (active_players s) → i ≠ 0 →
          ∃ s' next, do_attack_phase s = Ok s'
            ∧ active_players s !! S i = Some next
            ∧ turn_player s' = Some next
            ∧ defending s' = defending s ∧ successful s' = successful s)
       ∧ (i = 0 → 2 < length (active_players s) →
          ∃ s' next, do_attack_phase s = Ok s'
            ∧ active_players s !! 2 = Some next
            ∧ turn_player s' = Some next
            ∧ defending s' = defending s ∧ successful s' = successful s)
       ∧ (i = 0 → length (active_players s) = 2 →
          ∃ s', do_attack_phase s = Ok s'
            ∧ turn_player s' = Some t
            ∧ defending s' = false ∧ successful s' = true)).
Proof.
  split.
  - intros Hreal. unfold do_attack_phase. rewrite decide_True by done.
    eexists. split; [done|]. simpl. done.
  - intros Hpass Hnd i t Ht Hi.
    assert (∀ j x, active_players s !! j = Some x → x = t → j = i) as Huniq.
    { intros j x Hj ->. by eapply NoDup_lookup. }
    split_and!.
    + intros Hlast. unfold do_attack_phase.
      rewrite decide_False by (intros ?; done).
      rewrite (proj2 (getitem_last _ t)) by (by eapply last_lookup_Some). simpl.
      rewrite decide_True by done. eexists. split; [done|]. done.
    + intros Hlt Hne.
      destruct (lookup_lt_is_Some_2 (active_players s) (S i)) as [next Hnext]; [done|].
      destruct (lookup_lt_is_Some_2 (active_players s) 1) as [d Hd]; [lia|].
      destruct (list.last (active_players s)) as [lp|] eqn:Hlp;
        [|apply last_None in Hlp; rewrite Hlp in Hi; done].
      assert (lp ≠ t) as Hlp_t.
      { intros ->. rewrite last_lookup in Hlp. apply Huniq in Hlp; [lia|done]. }
      unfold do_attack_phase. rewrite decide_False by (intros ?; done).
      rewrite (proj2 (getitem_last _ lp)) by done. simpl.
      rewrite decide_False by congruence. simpl.
      rewrite Ht, (index_player _ i t) by done. simpl.
      rewrite (getitem_succ _ _ _ Hnext). simpl.
      rewrite (proj2 (getitem_1 _ d)) by done. simpl.
      rewrite decide_False.
      2:{ intros [= ->]. pose proof (NoDup_lookup _ _ _ _ Hnd Hnext Hd). lia. }
      exists (set_turn_player (Some next) (set_reset_attacker false s)), next. done.
    + intros -> Hlen.
      destruct (lookup_lt_is_Some_2 (active_players s) 1) as [d Hd]; [lia|].
      destruct (lookup_lt_is_Some_2 (active_players s) 2) as [next Hnext]; [lia|].
      destruct (list.last (active_players s)) as [lp|] eqn:Hlp;
        [|apply last_None in Hlp; rewrite Hlp in Hi; done].
      assert (lp ≠ t) as Hlp_t.
      { intros ->. rewrite last_lookup in Hlp. apply Huniq in Hlp; [lia|done]. }
      assert (lp ≠ d) as Hlp_d.
      { intros ->. rewrite last_lookup in Hlp.
        pose proof (NoDup_lookup _ _ _ _ Hnd Hlp Hd). lia. }
      unfold do_attack_phase. rewrite decide_False by (intros ?; done).
      rewrite (proj2 (getitem_last _ lp)) by done. simpl.
      rewrite decide_False by congruence. simpl.
      rewrite Ht, (index_player _ 0 t) by done. simpl.
      rewrite (getitem_succ _ 0 d) by done. simpl.
      rewrite (proj2 (getitem_1 _ d)) by done. simpl.
      rewrite decide_True by done.
      rewrite (proj2 (getitem_last _ lp)) by done. simpl.
      rewrite decide_True by congruence.
      rewrite (index_player _ 1 d) by done. simpl.
      rewrite (getitem_succ _ 1 next) by done. simpl.
      eexists _, next. done.
    + intros -> Hlen.
      destruct (lookup_lt_is_Some_2 (active_players s) 1) as [d Hd]; [lia|].
      assert (list.last (active_players s) = Some d) as Hlp.
      { by apply (last_lookup_Some _ 1). }
      assert (d ≠ t) as Hd_t.
      { intros ->. pose proof (NoDup_lookup _ _ _ _ Hnd Hi Hd). lia. }
      unfold do_attack_phase. rewrite decide_False by (intros ?; done).
      rewrite (proj2 (getitem_last _ d)) by done. simpl.
      rewrite decide_False by congruence. simpl.
      rewrite Ht, (index_player _ 0 t) by done. simpl.
      rewrite (getitem_succ _ 0 d) by done. simpl.
      rewrite (proj2 (getitem_1 _ d)) by done. simpl.
      rewrite decide_True by done.
      rewrite (proj2 (getitem_last _ d)) by done. simpl.
      rewrite decide_False by (intros ?; done).
      rewrite (index_player _ 1 d) by done. simpl.
      rewrite (getitem_nat _ 0 t) by done. simpl.
      eexists. done.
Qed.

End ClaimC5.

(** ** The defence phase, the reward, the available actions *)

Section ClaimC4.
Context `{DeckConsts}.

(** C4.  In the defence phase a real card is appended to the defending
    cards and the phase goes back to the attack phase; if then the attacking
    and the defending cards are both as many as the limit the round ends
    successfully, otherwise the round goes on.  On [NO_CARD] the round ends
    unsuccessfully and the turn player (the defender) takes every attacking
    and every defending card: the hand grows by the number of the cards on
    the table, and nobody else's hand changes. *)
Theorem C4_defence_phase (s : DurakEnv) :
  (last_action s ≠ NO_CARD →
     ∃ s', do_defence_phase s = Ok s'
       ∧ defending_cards s' = defending_cards s ++ [last_action s]
       ∧ attacking_cards s' = attacking_cards s
       ∧ attack_phase s' = true
       ∧ heap s' = heap s
       ∧ (if bool_decide (length (attacking_cards s') = length (defending_cards s')
                          ∧ Z.of_nat (length (defending_cards s')) = limit s)
          then defending s' = false ∧ successful s' = true
          else defending s' = defending s ∧ successful s' = successful s))
  ∧ (last_action s = NO_CARD →
     ∀ d, turn_player s = Some d →
     ∃ s', do_defence_phase s = Ok s'
       ∧ defending s' = false ∧ successful s' = false
       ∧ _hand (heap s' d) = _hand (heap s d) ++ attacking_cards s ++ defending_cards s
       ∧ hand_size_of s' d
         = (hand_size_of s d + Z.of_nat (length (attacking_cards s))
            + Z.of_nat (length (defending_cards s)))%Z
       ∧ (∀ q, q ≠ d → heap s' q = heap s q)
       ∧ attacking_cards s' = attacking_cards s
       ∧ defending_cards s' = defending_cards s).
Proof.
  split.
  - intros Hreal. unfold do_defence_phase. rewrite decide_True by done. simpl.
    destruct (bool_decide _ && bool_decide _) eqn:Hc;
      (eexists; split; [done|]); simpl; (split_and!; try done).
    + apply andb_true_iff in Hc as [E1%bool_decide_eq_true_1 E2%bool_decide_eq_true_1].
      by rewrite bool_decide_eq_true_2.
    + rewrite bool_decide_eq_false_2; [done|]. intros [E1 E2].
      apply andb_false_iff in Hc as [Hc|Hc]; apply bool_decide_eq_false_1 in Hc; done.
  - intros Hpass d Ht. unfold do_defence_phase.
    rewrite decide_False by (intros ?; done). simpl. rewrite Ht.
    eexists. split; [done|]. split_and!; try done.
    + rewrite !heap_on_player, !decide_True by done. simpl.
      by rewrite app_assoc.
    + unfold hand_size_of, Player.hand_size.
      rewrite !heap_on_player, !decide_True by done. simpl.
      rewrite !length_app. lia.
    + intros q Hq. by rewrite !heap_on_player, !decide_False by done.
Qed.

End ClaimC4.

(** ** What the methods of the round resolution leave alone *)

Section Frames.
Context `{DeckConsts}.

Lemma update_legal_cards_eq s :
  update_legal_cards s
  = set_legal_defending_cards (legal_defending_cards (update_legal_cards s))
      (set_legal_attacking_cards (legal_attacking_cards (update_legal_cards s)) s).
Proof.
  unfold update_legal_cards. case_bool_decide; [done|].
  by destruct (foldl _ _ _).
Qed.

Lemma refill_eq p s :
  refill p s = set_heap (heap (refill p s)) (set_deck (deck (refill p s)) s).
Proof. done. Qed.

Lemma heap_refill p s q :
  heap (refill p s) q
  = if decide (p = q)
    then Player.take_cards (heap s p)
           (take (Z.to_nat (Z.max 0 (HAND_SIZE - hand_size_of s p))) (deck s))
    else heap s q.
Proof.
  change (refill p s) with
    (on_player p
       (fun q => Player.take_cards q
          (take (Z.to_nat (Z.max 0 (HAND_SIZE - hand_size_of s p))) (deck s)))
       (set_deck (drop (Z.to_nat (Z.max 0 (HAND_SIZE - hand_size_of s p))) (deck s)) s)).
  by rewrite heap_on_player.
Qed.

(** A refill never shrinks a hand. *)
Lemma hand_size_refill p s q : (hand_size_of s q ≤ hand_size_of (refill p s) q)%Z.
Proof.
  unfold hand_size_of, Player.hand_size. rewrite heap_refill.
  destruct (decide (p = q)) as [->|]; simpl; [|lia]. rewrite length_app. lia.
Qed.

Lemma refills_spec ps s :
  let s' := foldl (fun s p => refill p s) s ps in
  s' = set_heap (heap s') (set_deck (deck s') s)
  ∧ ∀ q, (hand_size_of s q ≤ hand_size_of s' q)%Z.
Proof.
  revert s. induction ps as [|p ps IH]; intros s; simpl.
  - split; [by destruct s|lia].
  - destruct (IH (refill p s)) as [Eq Hle]. split.
    + rewrite Eq at 1. done.
    + intros q. etrans; [apply hand_size_refill|apply Hle].
Qed.

Lemma update_players_hands_spec s s' :
  update_players_hands s = Ok s' →
  s' = set_heap (heap s') (set_deck (deck s') s)
  ∧ ∀ q, (hand_size_of s q ≤ hand_size_of s' q)%Z.
Proof.
  unfold update_players_hands.
  set (s1 := foldl _ _ _). destruct (refills_spec
    (take (Z.to_nat defender) (active_players s)
     ++ drop (Z.to_nat (defender + 1)) (active_players s)) s) as [Eq Hle].
  fold s1 in Eq, Hle. intros E. inv_bind. split.
  - pose proof (refill_eq x s1) as Er. set (r := refill x s1) in *.
    transitivity (set_heap (heap r) (set_deck (deck r) s1)); [exact Er|].
    rewrite Eq at 1. done.
  - intros q. etrans; [apply Hle|apply hand_size_refill].
Qed.

Lemma list_remove_app `{EqDecision A} (pre l : list A) (x : A) :
  x ∉ pre → list_remove (pre ++ x :: l) x = Ok (pre ++ l).
Proof.
  induction pre as [|y pre IH]; intros Hx; simpl.
  - by rewrite decide_True.
  - apply not_elem_of_cons in Hx as [Hne Hx].
    rewrite decide_False by done. by rewrite IH.
Qed.

Lemma remove_each_filter (P : pid → Prop) `{∀ p, Decision (P p)} (l pre : list pid) :
  Forall (fun p => ¬ P p) pre →
  remove_each (filter P l) (pre ++ l) = Ok (pre ++ filter (fun p => ¬ P p) l).
Proof.
  revert pre. induction l as [|x l IH]; intros pre Hpre; [done|].
  rewrite !filter_cons. destruct (decide (P x)) as [Hx|Hx].
  - rewrite decide_False by tauto. simpl.
    rewrite list_remove_app.
    + simpl. by apply IH.
    + intros Hin. rewrite list.Forall_forall in Hpre. by apply (Hpre x Hin).
  - rewrite decide_True by done.
    replace (pre ++ x :: l) with ((pre ++ [x]) ++ l) by (by rewrite <- app_assoc).
    rewrite IH; [by rewrite <- app_assoc|].
    apply Forall_app. split; [done|]. by apply Forall_singleton.
Qed.

(** [remove_winners] never raises: it keeps, in order, the players whose
    hand is not empty. *)
Lemma remove_winners_spec s :
  remove_winners s
  = Ok (set_active_players
          (filter (fun p => hand_size_of s p ≠ 0%Z) (active_players s)) s).
Proof.
  unfold remove_winners.
  rewrite (remove_each_filter (fun p => hand_size_of s p = 0%Z) (active_players s) []);
    [done|constructor].
Qed.

Lemma move_attacker_back_spec s s' :
  move_attacker_back s = Ok s' →
  s' = set_active_players (move_back (active_players s)) s.
Proof.
  unfold move_attacker_back, move_back. destruct (active_players s); [done|].
  by intros [= <-].
Qed.

Lemma elem_of_move_back (l : list pid) p : p ∈ move_back l ↔ p ∈ l.
Proof. destruct l as [|x l]; [done|]. simpl. set_solver. Qed.

Lemma length_move_back (l : list pid) : length (move_back l) = length l.
Proof. destruct l as [|x l]; [done|]. simpl. rewrite length_app. simpl. lia. Qed.

Lemma update_active_players_order_spec s s' :
  update_active_players_order s = Ok s' →
  ∃ l lo, s' = set_loser lo (set_active_players l s)
    ∧ length l = length (active_players s)
    ∧ ∀ p, p ∈ l ↔ p ∈ active_players s.
Proof.
  unfold update_active_players_order. case_bool_decide as Hone.
  - intros E. inv_bind. exists (active_players s), (Some x).
    split; [by destruct s|done].
  - destruct (_ >=? _)%Z.
    + intros E. apply bind_Ok in E as (a & Ea & E). apply bind_Ok in E as (s1 & E1 & E).
      assert (∃ l, s1 = set_active_players l s
                ∧ length l = length (active_players s)
                ∧ ∀ p, p ∈ l ↔ p ∈ active_players s) as (l1 & -> & Hlen1 & Hin1).
      { destruct (decide _).
        - apply move_attacker_back_spec in E1 as ->.
          eexists. split; [done|].
          split; [apply length_move_back|apply elem_of_move_back].
        - injection E1 as <-. exists (active_players s). by destruct s. }
      simpl in E. destruct (negb (successful s)).
      * apply move_attacker_back_spec in E as ->. simpl.
        exists (move_back l1), (loser s). split; [done|]. split.
        -- by rewrite length_move_back.
        -- intros p. by rewrite elem_of_move_back.
      * injection E as <-. exists l1, (loser s). done.
    + intros [= <-]. exists (active_players s), (loser s). by destruct s.
Qed.

End Frames.

(** ** Round resolution *)

Section Resolution.
Context `{DeckConsts}.

Lemma do_reset_round_spec s s' :
  do_reset_round s = Ok s' →
  ∃ a d, active_players s !! 0 = Some a ∧ active_players s !! 1 = Some d
    ∧ attacking_cards s' = [] ∧ defending_cards s' = []
    ∧ attack_phase s' = true ∧ defending s' = true ∧ successful s' = false
    ∧ reset_round s' = false ∧ reset_attacker s' = true
    ∧ turn_player s' = Some a ∧ attacking_player s' = Some a
    ∧ limit s' = Z.min HAND_SIZE (hand_size_of s d)
    ∧ active_players s' = active_players s ∧ heap s' = heap s
    ∧ deck s' = deck s ∧ reward s' = reward s.
Proof.
  unfold do_reset_round. intros E.
  apply bind_Ok in E as (a & Ea & E). apply bind_Ok in E as (d & Ed & E).
  simpl in Ea, Ed. apply getitem_0 in Ea. apply getitem_1 in Ed.
  injection E as <-. exists a, d. done.
Qed.

Lemma update_end_round_players_spec s s' :
  update_end_round_players s = Ok s' → s' = s.
Proof.
  unfold update_end_round_players. destruct (active_players s); [by intros [= <-]|].
  intros E. apply bind_Ok in E as (d & _ & E). by injection E as <-.
Qed.

(** What a round resolution leaves behind: either the game is over and the
    table stays as it was, or a new round has begun, with a defender whose
    hand is not empty. *)
Lemma resolve_round_spec s s' :
  resolve_round s = Ok s' →
  reward s' = reward s
  ∧ ((game_over s' = true
      ∧ attacking_cards s' = attacking_cards s
      ∧ defending_cards s' = defending_cards s
      ∧ limit s' = limit s)
     ∨ (game_over s' = false
        ∧ attacking_cards s' = [] ∧ defending_cards s' = []
        ∧ attack_phase s' = true ∧ defending s' = true ∧ reset_round s' = false
        ∧ ∃ a d, active_players s' !! 0 = Some a ∧ active_players s' !! 1 = Some d
            ∧ turn_player s' = Some a ∧ attacking_player s' = Some a
            ∧ limit s' = Z.min HAND_SIZE (hand_size_of s' d)
            ∧ (1 ≤ limit s')%Z)).
Proof.
  unfold resolve_round. intros E.
  apply bind_Ok in E as (s1 & E1 & E). apply update_end_round_players_spec in E1 as ->.
  apply bind_Ok in E as (s2 & E2 & E). apply update_players_hands_spec in E2 as [Eq2 _].
  assert (reward s2 = reward s ∧ attacking_cards s2 = attacking_cards s
          ∧ defending_cards s2 = defending_cards s ∧ limit s2 = limit s)
    as (Hr2 & Ha2 & Hd2 & Hl2) by (rewrite Eq2; done).
  clear Eq2.
  apply bind_Ok in E as (s3 & E3 & E). rewrite remove_winners_spec in E3.
  injection E3 as E3.
  assert (reward s3 = reward s2 ∧ attacking_cards s3 = attacking_cards s2
          ∧ defending_cards s3 = defending_cards s2 ∧ limit s3 = limit s2
          ∧ heap s3 = heap s2
          ∧ active_players s3
            = filter (fun p => hand_size_of s2 p ≠ 0%Z) (active_players s2))
    as (Hr3 & Ha3 & Hd3 & Hl3 & Hh3 & Hact3) by (rewrite <- E3; done).
  clear E3.
  apply bind_Ok in E as (s4 & E4 & E).
  apply update_active_players_order_spec in E4 as (l & lo & E4 & Hlen & Hin).
  assert (reward s4 = reward s3 ∧ attacking_cards s4 = attacking_cards s3
          ∧ defending_cards s4 = defending_cards s3 ∧ limit s4 = limit s3
          ∧ heap s4 = heap s3 ∧ active_players s4 = l)
    as (Hr4 & Ha4 & Hd4 & Hl4 & Hh4 & Hact4) by (rewrite E4; done).
  clear E4.
  destruct (game_over s4) eqn:Hover; cbn [negb] in E.
  - injection E as <-. split; [congruence|]. left.
    split_and!; congruence.
  - apply do_reset_round_spec in E
      as (a & d & Ha & Hd & ? & ? & ? & ? & ? & ? & ? & ? & ? & Hlim & Hact & Hheap & ? & Hrew).
    split; [congruence|]. right.
    split; [unfold game_over in *; by rewrite Hact|].
    split_and!; try assumption.
    exists a, d. rewrite Hact. split_and!; try assumption.
    + rewrite Hlim. unfold hand_size_of. by rewrite Hheap.
    + rewrite Hlim.
      assert (d ∈ l) as Hdl.
      { rewrite <- Hact4. by eapply list_elem_of_lookup_2. }
      apply Hin in Hdl. rewrite Hact3 in Hdl.
      apply list_elem_of_filter in Hdl as [Hne _].
      unfold hand_size_of, Player.hand_size, HAND_SIZE in *.
      rewrite Hh4, Hh3. lia.
Qed.

Lemma check_end_round_spec s s' :
  check_end_round s = Ok s' →
  ∃ t r, s' = set_reset_round r (set_turn_player t s)
    ∧ r = (if defending s then reset_round s else true)
    ∧ (defending s = true → attack_phase s = false →
       t = active_players s !! 1).
Proof.
  unfold check_end_round. destruct (defending s); simpl.
  - destruct (attack_phase s) eqn:Hph; simpl.
    + destruct (reset_attacker s).
      * intros E. apply bind_Ok in E as (a & Ea & E). injection E as <-.
        exists (Some a), (reset_round s). split; [by destruct s|]. done.
      * intros [= <-]. exists (turn_player s), (reset_round s).
        split; [by destruct s|]. done.
    + intros E. apply bind_Ok in E as (d & Ed & E). injection E as <-.
      apply getitem_1 in Ed.
      exists (Some d), (reset_round s). split; [by destruct s|]. done.
  - intros [= <-]. exists (turn_player s), true. split; [by destruct s|]. done.
Qed.

End Resolution.

(** ** The phase handlers, seen from [step] *)

Section Phases.
Context `{DeckConsts}.

Lemma do_attack_phase_pass s m :
  last_action s = NO_CARD → do_attack_phase s = Ok m →
  attacking_cards m = attacking_cards s ∧ defending_cards m = defending_cards s
  ∧ attack_phase m = attack_phase s ∧ limit m = limit s
  ∧ reset_round m = reset_round s ∧ active_players m = active_players s
  ∧ heap m = heap s ∧ deck m = deck s.
Proof.
  intros Hpass. unfold do_attack_phase. rewrite decide_False by (intros ?; done).
  intros E. apply bind_Ok in E as (lp & _ & E).
  destruct (decide _); [by injection E as <-|].
  apply bind_Ok in E as (i & _ & E). apply bind_Ok in E as (next & _ & E).
  apply bind_Ok in E as (d & _ & E).
  destruct (decide _); [|by injection E as <-].
  apply bind_Ok in E as (lp' & _ & E).
  destruct (decide _).
  - apply bind_Ok in E as (i' & _ & E). apply bind_Ok in E as (next' & _ & E).
    by injection E as <-.
  - apply bind_Ok in E as (i' & _ & E). apply bind_Ok in E as (prev & _ & E).
    by injection E as <-.
Qed.

(** The four ways the phase handler of [step] can go. *)
Lemma run_phase_spec s action m :
  run_phase s action = Ok m →
  limit m = limit s ∧ reset_round m = reset_round s
  ∧ active_players m = active_players s
  ∧ ((attack_phase s = true ∧ action ≠ NO_CARD
      ∧ attacking_cards m = attacking_cards s ++ [action]
      ∧ defending_cards m = defending_cards s
      ∧ attack_phase m = false ∧ defending m = defending s)
     ∨ (attack_phase s = true ∧ action = NO_CARD
        ∧ attacking_cards m = attacking_cards s
        ∧ defending_cards m = defending_cards s
        ∧ attack_phase m = true)
     ∨ (attack_phase s = false ∧ action ≠ NO_CARD
        ∧ attacking_cards m = attacking_cards s
        ∧ defending_cards m = defending_cards s ++ [action]
        ∧ attack_phase m = true
        ∧ (defending m = true →
           defending s = true
           ∧ ¬ (length (attacking_cards m) = length (defending_cards m)
                ∧ Z.of_nat (length (defending_cards m)) = limit m)))
     ∨ (attack_phase s = false ∧ action = NO_CARD
        ∧ attacking_cards m = attacking_cards s
        ∧ defending_cards m = defending_cards s
        ∧ defending m = false)).
Proof.
  unfold run_phase. simpl. destruct (attack_phase s) eqn:Hph.
  - destruct (decide (action = NO_CARD)) as [->|Hreal].
    + intros E. apply do_attack_phase_pass in E as (? & ? & ? & ? & ? & ? & ? & ?);
        [|done]. simpl in *. split_and!; try done. right; left.
      split_and!; congruence.
    + unfold do_attack_phase. simpl. rewrite decide_True by done.
      intros [= <-]. simpl. split_and!; try done. left. done.
  - destruct (decide (action = NO_CARD)) as [->|Hreal].
    + unfold do_defence_phase. rewrite decide_False by (intros ?; done). simpl.
      destruct (turn_player s); [|done]. intros [= <-]. simpl.
      split_and!; try done. do 3 right. done.
    + unfold do_defence_phase. simpl. rewrite decide_True by done.
      destruct (bool_decide _ && bool_decide _) eqn:Hc; intros [= <-]; simpl;
        (split_and!; try done); right; right; left; (split_and!; try done).
      intros Hd. split; [done|]. intros [E1 E2].
      apply andb_false_iff in Hc as [Hc|Hc]; apply bool_decide_eq_false_1 in Hc; done.
Qed.

End Phases.

(** ** The invariant of a round *)

Section Invariant.
Context `{DeckConsts}.

Lemma round_invariant_legal_cards s :
  round_invariant s → round_invariant (update_legal_cards s).
Proof. rewrite update_legal_cards_eq. done. Qed.

Lemma round_invariant_hands s s1 :
  hands_changed s s1 → round_invariant s → round_invariant s1.
Proof. intros (h & -> & _). done. Qed.

Lemma game_over_hands s s1 : hands_changed s s1 → game_over s1 = game_over s.
Proof. intros (h & -> & _). done. Qed.

(** One [step] from a state of a running game keeps the invariant. *)
Lemma step_invariant s action s' out :
  round_invariant s → game_over s = false →
  step s action = Ok (s', out) → round_invariant s'.
Proof.
  intros [Htable Hround] Hover. destruct (Hround Hover) as (Hdef & Hrr & Hatt & Hdfp).
  unfold step. intros E.
  apply bind_Ok in E as (m & Em & E). apply bind_Ok in E as (r & _ & E).
  apply bind_Ok in E as (c & Ec & E). apply bind_Ok in E as (s2 & E2 & E).
  injection E as <- _. apply round_invariant_legal_cards.
  apply run_phase_spec in Em as (Hlim & Hrrm & Hact & Hcases).
  apply check_end_round_spec in Ec as (t & rr & -> & -> & Hturn).
  simpl in *.
  assert (table_within_limit m) as Htm.
  { unfold table_within_limit in *. rewrite Hlim.
    destruct Hcases as [(Hp & _ & -> & -> & _)|[(Hp & _ & -> & -> & _)
      |[(Hp & _ & -> & -> & _)|(Hp & _ & -> & -> & _)]]];
      rewrite ?length_app; simpl; try (specialize (Hatt Hp));
      try (specialize (Hdfp Hp)); lia. }
  destruct (defending m) eqn:Hdm.
  - destruct (reset_round m) eqn:Hrm; [congruence|]. injection E2 as <-.
    split; [done|]. simpl. intros _.
    split_and!; try done.
    + intros Hpm. rewrite Hlim.
      destruct Hcases as [(_ & _ & _ & _ & ? & _)|[(Hp & _ & -> & -> & _)
        |[(Hp & _ & Ha & Hd & _ & Hgo)|(_ & _ & _ & _ & ?)]]]; try congruence.
      * by apply Hatt.
      * destruct (Hdfp Hp) as [Hlen _]. destruct (Hgo eq_refl) as [_ Hnot].
        rewrite Ha, Hd, length_app in *. simpl in *.
        unfold table_within_limit in Htm. rewrite Ha, Hd, length_app in Htm.
        simpl in Htm. split; [lia|].
        destruct (decide (Z.of_nat (length (attacking_cards s)) = limit m)) as [Heq|];
          [|lia].
        exfalso. apply Hnot. split; lia.
    + intros Hpm. split; [|by apply Hturn].
      destruct Hcases as [(Hp & _ & -> & -> & _)|[(_ & _ & _ & _ & ?)
        |[(_ & _ & _ & _ & ? & _)|(Hp & _ & -> & -> & _)]]]; try congruence.
      * destruct (Hatt Hp) as [Hlen _]. rewrite length_app. simpl. lia.
      * by apply Hdfp.
  - simpl in E2.
    apply resolve_round_spec in E2 as [_ [(Hov & Ha & Hd & Hl)|Hnew]].
    + split; [|congruence].
      unfold table_within_limit in *. simpl in *. by rewrite Ha, Hd, Hl.
    + destruct Hnew as (Hov & Ha & Hd & Hp & Hdf & Hr & a & d & _ & _ & _ & _ & _ & Hl1).
      split.
      * unfold table_within_limit. rewrite Ha, Hd. simpl. lia.
      * intros _. split_and!; try done; [|congruence].
        intros _. rewrite Ha, Hd. simpl. split; [done|lia].
Qed.

(** Every [step] keeps the limit, unless it opens a new round: then the
    table is empty and the limit is set from the hand of the new defender. *)
Lemma step_limit s action s' out :
  step s action = Ok (s', out) →
  limit s' = limit s
  ∨ (attacking_cards s' = [] ∧ defending_cards s' = []
     ∧ ∃ d, active_players s' !! 1 = Some d
         ∧ limit s' = Z.min HAND_SIZE (hand_size_of s' d)).
Proof.
  unfold step. intros E.
  apply bind_Ok in E as (m & Em & E). apply bind_Ok in E as (r & _ & E).
  apply bind_Ok in E as (c & Ec & E). apply bind_Ok in E as (s2 & E2 & E).
  injection E as <- _. rewrite update_legal_cards_eq. simpl.
  apply run_phase_spec in Em as (Hlim & _).
  apply check_end_round_spec in Ec as (t & rr & -> & _ & _).
  destruct (reset_round _).
  - apply resolve_round_spec in E2 as [_ [(_ & _ & _ & Hl)|Hnew]].
    + left. simpl in Hl. congruence.
    + destruct Hnew as (_ & Ha & Hd & _ & _ & _ & a & d & _ & Hd1 & _ & _ & Hl & _).
      right. split_and!; try done. by exists d.
  - injection E2 as <-. left. done.
Qed.

End Invariant.

(** ** [set_first_attacker] and [reset] *)

Section Reset.
Context `{DeckConsts}.

(** The [while] loop of [set_first_attacker] only turns the ring. *)
Lemma rotate_to_spec fuel n : ∀ s s',
  rotate_to fuel n s = Ok s' →
  s' = set_active_players (active_players s') s
  ∧ length (active_players s') = length (active_players s)
  ∧ (∀ p, p ∈ active_players s' ↔ p ∈ active_players s)
  ∧ ∃ a, active_players s' !! 0 = Some a ∧ name (heap s a) = n.
Proof.
  induction fuel as [|fuel IH]; intros s s' E; simpl in E;
    apply bind_Ok in E as (a & Ea & E); apply getitem_0 in Ea;
    destruct (decide _) as [Hne|Heq]; try done.
  - injection E as <-. split_and!; [by destruct s|done|done|].
    exists a. split; [done|]. by destruct (decide (name (heap s a) = n)).
  - apply bind_Ok in E as (s1 & E1 & E). apply move_attacker_back_spec in E1.
    apply IH in E as (Eq & Hlen & Hin & b & Hb & Hn).
    assert (active_players s1 = move_back (active_players s) ∧ heap s1 = heap s)
      as [Hact1 Hheap1] by (by rewrite E1).
    split_and!.
    + rewrite Eq at 1. rewrite E1. done.
    + by rewrite Hlen, Hact1, length_move_back.
    + intros p. by rewrite Hin, Hact1, elem_of_move_back.
    + exists b. by rewrite <- Hheap1.
  - injection E as <-. split_and!; [by destruct s|done|done|].
    exists a. split; [done|]. by destruct (decide (name (heap s a) = n)).
Qed.

Lemma set_first_attacker_spec s s' :
  set_first_attacker s = Ok s' →
  s' = set_active_players (active_players s') s
  ∧ length (active_players s') = length (active_players s)
  ∧ ∀ p, p ∈ active_players s' ↔ p ∈ active_players s.
Proof.
  unfold set_first_attacker. intros E. apply bind_Ok in E as ([v [n|]] & _ & E).
  - apply rotate_to_spec in E as (Eq & Hlen & Hin & _). done.
  - injection E as <-. by destruct s.
Qed.

Lemma length_dealt_hand (d : list CardType) (i : nat) :
  (HAND_SIZE * Z.of_nat (S i) ≤ Z.of_nat (length d))%Z →
  Z.of_nat (length (dealt_hand d i)) = HAND_SIZE.
Proof.
  unfold dealt_hand, HAND_SIZE. intros Hd.
  rewrite length_take, length_drop. lia.
Qed.

(** What [reset] hands back: the first round is open, the table is empty,
    and, when the deck serves every player, the limit is [HAND_SIZE]. *)
Lemma reset_spec e order shuffles s0 st0 :
  NoDup order →
  (∀ d, d ∈ shuffles → (HAND_SIZE * Z.of_nat (length order) ≤ Z.of_nat (length d))%Z) →
  reset e order shuffles = Ok (s0, st0) →
  attacking_cards s0 = [] ∧ defending_cards s0 = []
  ∧ attack_phase s0 = true ∧ defending s0 = true ∧ reset_round s0 = false
  ∧ (∀ p, p ∈ active_players s0 ↔ p ∈ order)
  ∧ length (active_players s0) = length order
  ∧ (∀ p, p ∈ order → hand_size_of s0 p = HAND_SIZE)
  ∧ ∃ a d, active_players s0 !! 0 = Some a ∧ active_players s0 !! 1 = Some d
      ∧ turn_player s0 = Some a ∧ attacking_player s0 = Some a
      ∧ limit s0 = Z.min HAND_SIZE (hand_size_of s0 d) ∧ limit s0 = HAND_SIZE.
Proof.
  intros Hnd Hdeck. unfold reset. intros E.
  apply bind_Ok in E as (s1 & E1 & E). apply bind_Ok in E as (s2 & E2 & E).
  apply bind_Ok in E as (s3 & E3 & E). injection E as <- _.
  apply initialize_players_Ok in E1
    as (before & dk & after & -> & _ & Hserved & _ & Hact1); [|done].
  change (active_players (reset_fields e order)) with order in Hserved, Hact1.
  apply set_first_attacker_spec in E2 as (Eq2 & Hlen2 & Hin2).
  assert (heap s2 = heap s1) as Hheap2 by (by rewrite Eq2).
  clear Eq2.
  apply do_reset_round_spec in E3
    as (a & d & Ha & Hd & ? & ? & ? & ? & ? & ? & ? & ? & ? & Hlim & Hact & Hheap & _).
  rewrite update_legal_cards_eq. simpl.
  assert (∀ p, p ∈ order → hand_size_of s3 p = HAND_SIZE) as Hhands.
  { intros p Hp. unfold hand_size_of, Player.hand_size. rewrite Hheap, Hheap2.
    apply list_elem_of_lookup_1 in Hp as [i Hi].
    destruct (Hserved i p Hi) as [-> _]. apply length_dealt_hand.
    apply lookup_lt_Some in Hi.
    etrans; [|apply (Hdeck dk); set_solver]. unfold HAND_SIZE. lia. }
  assert (hand_size_of s3 d = HAND_SIZE) as Hdsz.
  { apply Hhands. rewrite <- Hact1, <- Hin2. by eapply list_elem_of_lookup_2. }
  split_and!; try done.
  - intros p. by rewrite Hact, Hin2, Hact1.
  - by rewrite Hact, Hlen2, Hact1.
  - exists a, d. rewrite Hact. split_and!; try done.
    + rewrite Hlim. unfold hand_size_of. simpl. by rewrite Hheap.
    + rewrite Hlim.
      replace (hand_size_of s2 d) with (hand_size_of s3 d)
        by (unfold hand_size_of; by rewrite Hheap).
      by rewrite Hdsz.
Qed.

Lemma reset_invariant e order shuffles s0 st0 :
  NoDup order →
  (∀ d, d ∈ shuffles → (HAND_SIZE * Z.of_nat (length order) ≤ Z.of_nat (length d))%Z) →
  reset e order shuffles = Ok (s0, st0) → round_invariant s0.
Proof.
  intros Hnd Hdeck E.
  destruct (reset_spec _ _ _ _ _ Hnd Hdeck E)
    as (Ha & Hd & Hp & Hdf & Hrr & _ & _ & _ & a & d & _ & _ & _ & _ & _ & Hlim).
  unfold round_invariant, table_within_limit. rewrite Ha, Hd, Hlim, Hp.
  unfold HAND_SIZE. simpl. split; [lia|]. intros _.
  split_and!; done.
Qed.

(** The invariant holds in every state of a game. *)
Lemma reachable_invariant s0 s :
  round_invariant s0 → reachable_from s0 s → round_invariant s.
Proof.
  intros H0. induction 1 as [|s s1 action s' out _ IH Hover _ Hhands Hstep]; [done|].
  eapply step_invariant; [|by rewrite (game_over_hands _ _ Hhands)|done].
  by eapply round_invariant_hands.
Qed.

End Reset.

(** ** Claim C2 *)

Section PlayedCards.
Context `{DeckConsts}.

(** A policy that plays a card changes the hand of its player and nothing
    else of the engine. *)
Lemma remove_played_hands_changed p card s s1 :
  remove_played p card s = Ok s1 → hands_changed s s1.
Proof.
  unfold remove_played. destruct (decide _).
  - intros E. apply bind_Ok in E as (h & _ & E). injection E as <-.
    eexists. split; [done|]. intros q.
    destruct (decide (p = q)) as [->|Hne].
    + by rewrite fn_lookup_insert.
    + by rewrite fn_lookup_insert_ne.
  - intros [= <-]. exists (heap s). split; [by destruct s|done].
Qed.

End PlayedCards.

Section ClaimC2.
Context `{DeckConsts}.

(** C2.  In a game that [reset] has started with a deck that serves every
    player, whatever legal actions are submitted and whatever the policies
    do to the hands: the defending cards are never more than the attacking
    cards, and these never more than the limit.  The limit only changes when
    a [step] opens a new round: the table is then empty and the limit is the
    smaller of [HAND_SIZE] and the hand size of the new defender; so it is at
    the start, where it is [HAND_SIZE]. *)
Theorem C2_table_within_limit e order shuffles s0 st0 s :
  NoDup order →
  (∀ d, d ∈ shuffles → (HAND_SIZE * Z.of_nat (length order) ≤ Z.of_nat (length d))%Z) →
  reset e order shuffles = Ok (s0, st0) →
  reachable_from s0 s →
  table_within_limit s
  ∧ (∃ d, active_players s0 !! 1 = Some d
       ∧ limit s0 = Z.min HAND_SIZE (hand_size_of s0 d))
  ∧ (∀ s1 action s' out,
       hands_changed s s1 → step s1 action = Ok (s', out) →
       limit s' = limit s
       ∨ (attacking_cards s' = [] ∧ defending_cards s' = []
          ∧ ∃ d, active_players s' !! 1 = Some d
              ∧ limit s' = Z.min HAND_SIZE (hand_size_of s' d))).
Proof.
  intros Hnd Hdeck Hreset Hreach. split_and!.
  - eapply reachable_invariant; [|done]. by eapply reset_invariant.
  - destruct (reset_spec _ _ _ _ _ Hnd Hdeck Hreset)
      as (_ & _ & _ & _ & _ & _ & _ & _ & a & d & _ & Hd & _ & _ & Hlim & _).
    by exists d.
  - intros s1 action s' out (h & -> & _) Hstep.
    apply step_limit in Hstep. done.
Qed.

End ClaimC2.

Lemma Game36_start :
  @reset Deck36.consts Game36.e0 [0; 1] [Deck36.shuffled]
  = Ok (Game36.start, state Game36.start).
Proof. vm_compute. reflexivity. Qed.

Lemma Game36_step p card s :
  (∃ out, @step Deck36.consts (Game36.played p card s) card
          = Ok (Game36.after p card s, out)) →
  game_over s = false →
  legal_action s card →
  ∀ s0, @reachable_from Deck36.consts s0 s →
        @reachable_from Deck36.consts s0 (Game36.after p card s).
Proof.
  intros [out Hstep] Hover Hlegal s0 Hreach.
  eapply (reach_step _ s (Game36.played p card s)); try done.
  unfold Game36.played.
  destruct (remove_played p card s) as [s1| |] eqn:E.
  - by eapply remove_played_hands_changed.
  - exists (heap s). split; [by destruct s|done].
  - exists (heap s). split; [by destruct s|done].
Qed.

Lemma Game36_reachable :
  @reachable_from Deck36.consts Game36.start Game36.after_8S.
Proof.
  apply Game36_step.
  - eexists. vm_compute. reflexivity.
  - vm_compute. reflexivity.
  - vm_compute. set_solver.
  - apply Game36_step.
    + eexists. vm_compute. reflexivity.
    + vm_compute. reflexivity.
    + vm_compute. set_solver.
    + apply Game36_step.
      * eexists. vm_compute. reflexivity.
      * vm_compute. reflexivity.
      * vm_compute. set_solver.
      * apply reach_start.
Qed.

Lemma C2_table_within_limit_witness :
  table_within_limit Game36.after_8S.
Proof.
  refine (proj1 (@C2_table_within_limit Deck36.consts Game36.e0 [0; 1] [Deck36.shuffled]
                   Game36.start (state Game36.start) Game36.after_8S _ _ _ _)).
  - exact (bool_decide_unpack (NoDup [0; 1]) I).
  - intros d Hd. apply list_elem_of_singleton in Hd. subst d. vm_compute. discriminate.
  - vm_compute. reflexivity.
  - exact Game36_reachable.
Defined.

(** ** Claim C3 *)

Lemma filter_all {A} (P : A → Prop) `{∀ x, Decision (P x)} (l : list A) :
  Forall P l → filter P l = l.
Proof.
  induction 1 as [|x l Hx _ IH]; [done|].
  by rewrite filter_cons, decide_True, IH.
Qed.

Section ClaimC3.
Context `{DeckConsts}.

(** The ring [update_active_players_order] leaves when at least two players
    remain: one turn if the head is the attacker of the round, one more if
    the defence failed. *)
Lemma update_active_players_order_ring s s' :
  2 ≤ length (active_players s) →
  update_active_players_order s = Ok s' →
  let ring1 := if decide (active_players s !! 0 = attacking_player s)
               then move_back (active_players s) else active_players s in
  active_players s' = (if successful s then ring1 else move_back ring1)
  ∧ s' = set_active_players (active_players s') s.
Proof.
  intros Hlen. unfold update_active_players_order.
  rewrite bool_decide_eq_false_2 by lia.
  replace (_ >=? _)%Z with true by (unfold MIN_PLAYERS; lia).
  intros E. apply bind_Ok in E as (a & Ea & E). apply getitem_0 in Ea.
  apply bind_Ok in E as (s1 & E1 & E). rewrite Ea. simpl.
  assert (s1 = set_active_players
                 (if decide (Some a = attacking_player s)
                  then move_back (active_players s) else active_players s) s) as ->.
  { destruct (decide _).
    - by apply move_attacker_back_spec in E1.
    - injection E1 as <-. by destruct s. }
  simpl in E. destruct (successful s); simpl in E.
  - injection E as <-. done.
  - apply move_attacker_back_spec in E as ->. done.
Qed.

(** C3.  Round resolution, from winner removal on, when two players or more
    are left.  [remove_winners] keeps the players with cards, in order.  Then
    the ring is turned once (head to the back) if its head is the player who
    began the round as attacker, and once more if the defence failed; if the
    removal has put somebody else at the head, the first turn is not made.
    So after a failed defence among three or more players none of whom is
    removed, with the round's attacker at the head, the new head is the
    member two places after it. *)
Theorem C3_ring_rotation (s s1 s' : DurakEnv) :
  remove_winners s = Ok s1 →
  update_active_players_order s1 = Ok s' →
  2 ≤ length (active_players s1) →
  let ring := filter (fun p => hand_size_of s p ≠ 0%Z) (active_players s) in
  let ring1 := if decide (ring !! 0 = attacking_player s) then move_back ring else ring in
  active_players s1 = ring
  ∧ active_players s' = (if successful s then ring1 else move_back ring1)
  ∧ (ring !! 0 ≠ attacking_player s → successful s = true → active_players s' = ring)
  ∧ (ring !! 0 ≠ attacking_player s → successful s = false →
       active_players s' = move_back ring)
  ∧ (3 ≤ length (active_players s) →
     (∀ p, p ∈ active_players s → hand_size_of s p ≠ 0%Z) →
     active_players s !! 0 = attacking_player s →
     successful s = false →
     active_players s' !! 0 = active_players s !! 2
     ∧ length (active_players s') = length (active_players s)).
Proof.
  rewrite remove_winners_spec. intros [= <-] Horder Hlen. simpl in Hlen.
  apply update_active_players_order_ring in Horder; [|done].
  simpl in Horder. destruct Horder as [Hring _]. simpl.
  split_and!; [done|done| | |].
  - intros Hne Hs. rewrite Hring, Hs. by rewrite decide_False.
  - intros Hne Hs. rewrite Hring, Hs. by rewrite decide_False.
  - intros Hlen3 Hall Hhead Hs. rewrite Hring, Hs.
    assert (filter (fun p => hand_size_of s p ≠ 0%Z) (active_players s)
            = active_players s) as ->.
    { apply filter_all. by apply list.Forall_forall. }
    rewrite decide_True by done.
    destruct (active_players s) as [|a [|b [|c l]]]; simpl in Hlen3; try lia.
    simpl. rewrite !length_app. simpl. split; [done|lia].
Qed.

End ClaimC3.

Lemma C3_ring_rotation_witness :
  active_players Game36.turned3 !! 0 = active_players Game36.start3 !! 2
  ∧ length (active_players Game36.turned3) = length (active_players Game36.start3).
Proof.
  refine (proj2 (proj2 (proj2 (proj2
    (C3_ring_rotation Game36.start3 Game36.removed3 Game36.turned3
       _ _ _)))) _ _ _ _).
  - vm_compute. reflexivity.
  - vm_compute. reflexivity.
  - vm_compute. lia.
  - vm_compute. lia.
  - intros p Hp. vm_compute in Hp.
    apply elem_of_cons in Hp as [->|Hp]; [vm_compute; discriminate|].
    apply elem_of_cons in Hp as [->|Hp]; [vm_compute; discriminate|].
    apply list_elem_of_singleton in Hp as ->. vm_compute. discriminate.
  - vm_compute. reflexivity.
  - vm_compute. reflexivity.
Defined.

(** ** Claim C7 *)

Section ClaimC7.
Context `{DeckConsts}.

Lemma calculate_reward_spec m r :
  calculate_reward m = Ok r →
  ∃ p, turn_player m = Some p
    ∧ (hand_size_of m p = 0%Z ∧ deck m = [] → r = 30%Z)
    ∧ (¬ (hand_size_of m p = 0%Z ∧ deck m = []) →
       (defending m = false → successful m = true → r = 1%Z)
       ∧ (defending m = false → successful m = false → r = (-1)%Z)
       ∧ (defending m = true → r = 0%Z)).
Proof.
  unfold calculate_reward. destruct (turn_player m) as [p|]; [|done].
  intros E. exists p. split; [done|].
  assert (current_num_cards (deck m) = 0%Z ↔ deck m = []) as Hdeck.
  { unfold current_num_cards. destruct (deck m); simpl; [done|].
    split; [lia|done]. }
  destruct (bool_decide _ && bool_decide _) eqn:Hc.
  - apply andb_true_iff in Hc as [E1%bool_decide_eq_true_1 E2%bool_decide_eq_true_1].
    injection E as <-. split; [done|]. intros []. split; [done|by apply Hdeck].
  - split.
    { intros [E1 E2]. apply Hdeck in E2.
      apply andb_false_iff in Hc as [Hc|Hc]; by apply bool_decide_eq_false_1 in Hc. }
    intros _. destruct (defending m), (successful m); simpl in E; injection E as <-; done.
Qed.

(** C7.  The reward [step] returns is computed on the state the phase
    handler has left, before the round is resolved: 30 if the hand of the
    turn player and the deck are both empty then; otherwise 1 if the handler
    has ended the round successfully, -1 if it has ended it by a failed
    defence, and 0 if the round goes on.  It is also the reward the engine
    keeps. *)
Theorem C7_reward s action s' st r over :
  step s action = Ok (s', (st, r, over)) →
  ∃ m p, run_phase s action = Ok m
    ∧ turn_player m = Some p
    ∧ reward s' = r
    ∧ (hand_size_of m p = 0%Z ∧ deck m = [] → r = 30%Z)
    ∧ (¬ (hand_size_of m p = 0%Z ∧ deck m = []) →
       (defending m = false → successful m = true → r = 1%Z)
       ∧ (defending m = false → successful m = false → r = (-1)%Z)
       ∧ (defending m = true → r = 0%Z)).
Proof.
  unfold step. intros E.
  apply bind_Ok in E as (m & Em & E). apply bind_Ok in E as (r0 & Er & E).
  apply bind_Ok in E as (c & Ec & E). apply bind_Ok in E as (s2 & E2 & E).
  injection E as <- _ Hr _.
  apply calculate_reward_spec in Er as (p & Hp & H30 & Hrest).
  assert (reward s2 = r0) as Hr2.
  { apply check_end_round_spec in Ec as (t & rr & Hc & _).
    assert (reward c = r0) as Hrc by (by rewrite Hc).
    destruct (reset_round c).
    - apply resolve_round_spec in E2 as [-> _]. done.
    - by injection E2 as <-. }
  rewrite update_legal_cards_eq in Hr. simpl in Hr.
  assert (r = r0) as -> by congruence.
  exists m, p. rewrite update_legal_cards_eq. simpl. done.
Qed.

End ClaimC7.

Lemma C7_reward_witness :
  ∃ m p, @run_phase Deck36.consts (Game36.played 0 (8, Deck36.hearts)%Z Game36.start)
           (8, Deck36.hearts)%Z = Ok m
    ∧ turn_player m = Some p
    ∧ reward Game36.after_8H = 0%Z
    ∧ (hand_size_of m p = 0%Z ∧ deck m = [] → 0%Z = 30%Z)
    ∧ (¬ (hand_size_of m p = 0%Z ∧ deck m = []) →
       (defending m = false → successful m = true → 0%Z = 1%Z)
       ∧ (defending m = false → successful m = false → 0%Z = (-1)%Z)
       ∧ (defending m = true → 0%Z = 0%Z)).
Proof.
  apply (@C7_reward Deck36.consts _ _ Game36.after_8H (state Game36.after_8H) 0%Z false).
  vm_compute. reflexivity.
Defined.

(** ** The legal sets *)

Lemma filter_none {A} (P : A → Prop) `{∀ x, Decision (P x)} (l : list A) :
  (∀ x, x ∈ l → ¬ P x) → filter P l = [].
Proof.
  induction l as [|x l IH]; intros Hl; [done|].
  rewrite filter_cons, decide_False by (apply Hl; set_solver).
  apply IH. intros y Hy. apply Hl. set_solver.
Qed.

Section LegalCards.
Context `{DeckConsts}.

Lemma same_value_other_suit_spec (card : CardType) l :
  same_value_other_suit card l = true ↔ ∃ x, x ∈ l ∧ card.1 = x.1 ∧ card.2 ≠ x.2.
Proof.
  unfold same_value_other_suit. rewrite existsb_exists. split.
  - intros (x & Hx & Hc). apply andb_true_iff in Hc as [H1 H2].
    apply bool_decide_eq_true_1 in H1, H2. exists x.
    split; [by apply list_elem_of_In|done].
  - intros (x & Hx & H1 & H2). exists x. split; [by apply list_elem_of_In|].
    by rewrite !bool_decide_eq_true_2.
Qed.

Lemma may_attack_spec att def (c : CardType) :
  may_attack att def c
  ↔ (c ∉ att) ∧ (c ∉ def)
    ∧ (same_value_other_suit c att = true ∨ same_value_other_suit c def = true).
Proof.
  unfold may_attack. rewrite !same_value_other_suit_spec.
  setoid_rewrite elem_of_app. naive_solver.
Qed.

(** One turn of the loop of [update_legal_cards]. *)
Lemma legal_cards_step_spec att def trump la ld (card : CardType) :
  ∃ la', legal_cards_step att def trump (la, ld) card
         = (la', if decide (may_defend att def trump card) then ld ++ [card] else ld)
    ∧ ∀ c, c ∈ la' ↔ c ∈ la ∨ (c = card ∧ may_attack att def card).
Proof.
  unfold legal_cards_step. eexists. split.
  - f_equal. destruct (decide (may_defend att def trump card)) as [Hm|Hm].
    + destruct Hm as (Hlt & Hdef & Hb).
      destruct (list.last att) as [a|]; [|done].
      replace (_ >? _)%Z with true by lia.
      rewrite bool_decide_eq_true_2 by done.
      destruct Hb as [[H1 H2]|[H1 H2]].
      * rewrite (bool_decide_eq_true_2 (card.2 = a.2)) by done.
        replace (card.1 >? a.1)%Z with true by lia. done.
      * rewrite (bool_decide_eq_true_2 (card.2 = trump)) by done.
        rewrite (bool_decide_eq_true_2 (a.2 ≠ trump)) by done.
        by rewrite orb_true_r.
    + destruct (_ >? _)%Z eqn:Hlen; [|done].
      case_bool_decide as Hdef; [|done].
      destruct (list.last att) as [a|] eqn:Hlast; [|done].
      destruct (_ || _) eqn:Hb; [|done].
      exfalso. apply Hm. split; [lia|]. split; [done|]. rewrite Hlast.
      apply orb_true_iff in Hb as [Hb|Hb]; apply andb_true_iff in Hb as [H1 H2].
      * left. apply bool_decide_eq_true_1 in H1. split; [done|lia].
      * right. by apply bool_decide_eq_true_1 in H1, H2.
  - intros c. rewrite may_attack_spec.
    destruct (same_value_other_suit card att) eqn:Ha,
             (same_value_other_suit card def) eqn:Hd;
      repeat case_bool_decide; simpl; set_solver.
Qed.

Lemma legal_cards_fold att def trump cards : ∀ la ld,
  ∃ la', foldl (legal_cards_step att def trump) (la, ld) cards
         = (la', ld ++ filter (may_defend att def trump) cards)
    ∧ ∀ c, c ∈ la' ↔ c ∈ la ∨ (c ∈ cards ∧ may_attack att def c).
Proof.
  induction cards as [|card cards IH]; intros la ld; cbn [foldl].
  - exists la. rewrite filter_nil, app_nil_r. split; [done|]. set_solver.
  - destruct (legal_cards_step_spec att def trump la ld card) as (la1 & -> & Hla1).
    destruct (IH la1 (if decide (may_defend att def trump card) then ld ++ [card] else ld))
      as (la' & -> & Hla').
    exists la'. split.
    + f_equal. rewrite filter_cons. destruct (decide _); [|done].
      by rewrite <- app_assoc.
    + intros c. rewrite Hla', Hla1. set_solver.
Qed.

(** The legal defending cards [update_legal_cards] publishes. *)
Lemma legal_defending_cards_spec s :
  legal_defending_cards (update_legal_cards s)
  = NO_CARD :: filter (may_defend (attacking_cards s) (defending_cards s) (trump_suit s))
                 get_full_list_of_cards.
Proof.
  unfold update_legal_cards. case_bool_decide as Hempty.
  - simpl. rewrite filter_none; [done|]. intros c _ (Hlt & _). lia.
  - destruct (legal_cards_fold (attacking_cards s) (defending_cards s) (trump_suit s)
                get_full_list_of_cards [NO_CARD] [NO_CARD]) as (la' & -> & _).
    done.
Qed.

(** The legal attacking cards [update_legal_cards] publishes. *)
Lemma legal_attacking_cards_spec s c :
  c ∈ legal_attacking_cards (update_legal_cards s)
  ↔ if decide (attacking_cards s = []) then c ∈ get_full_list_of_cards
    else c = NO_CARD
         ∨ (c ∈ get_full_list_of_cards
            ∧ may_attack (attacking_cards s) (defending_cards s) c).
Proof.
  unfold update_legal_cards. case_bool_decide as Hempty.
  - apply length_zero_iff_nil in Hempty. by rewrite decide_True.
  - rewrite decide_False by (intros E; by rewrite E in Hempty).
    destruct (legal_cards_fold (attacking_cards s) (defending_cards s) (trump_suit s)
                get_full_list_of_cards [NO_CARD] [NO_CARD]) as (la' & -> & Hla).
    simpl. rewrite Hla. set_solver.
Qed.

End LegalCards.

(** ** Claim C10 *)

Section ClaimC10.
Context `{DeckConsts}.


End ClaimC10.


(** ** Claim C9 *)

Lemma getitem_out {A} (l : list A) (i : nat) :
  length l ≤ i → getitem l (Z.of_nat i) = Raise IndexError.
Proof.
  intros Hle. unfold getitem.
  destruct (Z.ltb_spec (Z.of_nat i) 0); [lia|].
  destruct (Z.ltb_spec (Z.of_nat i) 0); [lia|].
  destruct (Z.leb_spec (Z.of_nat (length l)) (Z.of_nat i)); [done|lia].
Qed.

Section PlayerCount.
Context `{DeckConsts}.

(** The [while deal] loop leaves the ring as it is. *)
Lemma initialize_players_active shuffles : ∀ s s',
  initialize_players shuffles s = Ok s' → active_players s' = active_players s.
Proof.
  induction shuffles as [|d shuffles IH]; intros s s'; [done|].
  simpl. fold (deal_attempt d s).
  destruct (deal_attempt d s) as [b s1] eqn:Hatt.
  assert (active_players s1 = active_players s) as Hact.
  { unfold deal_attempt, deal_cards in Hatt.
    destruct (deal_cards_loop_frame _ _ _ _ Hatt) as (Eq1 & _).
    destruct (reset_hands_spec (initialize_deck d s)) as (Eq0 & _).
    rewrite Eq1. simpl. by rewrite Eq0. }
  destruct b.
  - intros E. apply IH in E. congruence.
  - intros [= <-]. done.
Qed.

(** What the [for] loop of [set_first_attacker] has found when it ends:
    every player it looked at holds a trump; the value kept is the least of
    the start value and the lowest trumps; and the name kept is the name of a
    player whose lowest trump is that value, unless nothing undercut the
    start value. *)
Lemma first_attacker_loop_spec s l : ∀ acc found,
  first_attacker_loop s acc l = Ok found →
  (∀ p, p ∈ l → Player.get_lowest_trump (heap s p) ≠ None)
  ∧ (found.1 ≤ acc.1)%Z
  ∧ (∀ q w, q ∈ l → Player.get_lowest_trump (heap s q) = Some w → (found.1 ≤ w)%Z)
  ∧ (found = acc
     ∨ ∃ p, p ∈ l ∧ Player.get_lowest_trump (heap s p) = Some found.1
         ∧ found.2 = Some (name (heap s p)) ∧ (found.1 < acc.1)%Z).
Proof.
  induction l as [|q l IH]; intros acc found E; simpl in E.
  - injection E as <-. split_and!; [by intros p ?%elem_of_nil|lia| |by left].
    by intros q w ?%elem_of_nil.
  - apply bind_Ok in E as (acc1 & E1 & E).
    destruct (IH _ _ E) as (Hall & Hle & Hmin & Hfound).
    destruct acc as [v o]. unfold first_attacker_step in E1.
    destruct (Player.get_lowest_trump (heap s q)) as [value|] eqn:Hq; [|done].
    assert ((acc1.1 ≤ v)%Z ∧ (acc1.1 ≤ value)%Z
            ∧ (acc1 = (v, o)
               ∨ acc1 = (value, Some (name (heap s q))) ∧ (value < v)%Z))
      as (Hv & Hvalue & Hacc1).
    { destruct (Z.ltb_spec value v); injection E1 as <-; simpl.
      - split; [lia|]. split; [lia|]. by right.
      - split; [lia|]. split; [lia|]. by left. }
    simpl. split_and!.
    + intros p [->|Hp]%elem_of_cons; [by rewrite Hq|by apply Hall].
    + lia.
    + intros q' w [->|Hq']%elem_of_cons Hw; [|by apply (Hmin q')].
      assert (w = value) as -> by congruence. lia.
    + destruct Hfound as [->|(p & Hp & Hlow & Hname & Hlt)].
      * destruct Hacc1 as [->|[-> Hlt]]; [by left|].
        right. exists q. split; [set_solver|]. done.
      * right. exists p. split; [set_solver|]. split; [done|]. split; [done|]. lia.
Qed.

Lemma first_attacker_loop_total s l : ∀ acc,
  (∀ p, p ∈ l → Player.get_lowest_trump (heap s p) ≠ None) →
  ∃ found, first_attacker_loop s acc l = Ok found.
Proof.
  induction l as [|q l IH]; intros acc Hall; simpl; [by eexists|].
  destruct acc as [v o]. unfold first_attacker_step.
  destruct (Player.get_lowest_trump (heap s q)) as [value|] eqn:Hq.
  - destruct (value <? v)%Z; simpl; apply IH; intros p Hp; apply Hall; set_solver.
  - exfalso. apply (Hall q); [set_solver|done].
Qed.

(** The loop raises [TypeError] at the first player without a trump. *)
Lemma first_attacker_loop_TypeError s l : ∀ acc,
  (∃ p, p ∈ l ∧ Player.get_lowest_trump (heap s p) = None) →
  first_attacker_loop s acc l = Raise TypeError.
Proof.
  induction l as [|q l IH]; intros acc (p & Hp & Hnone).
  { by apply elem_of_nil in Hp. }
  simpl. destruct acc as [v o]. unfold first_attacker_step.
  destruct (Player.get_lowest_trump (heap s q)) as [value|] eqn:Hq; [|done].
  apply elem_of_cons in Hp as [->|Hp]; [congruence|].
  destruct (value <? v)%Z; simpl; apply IH; by exists p.
Qed.

(** The [while] loop of [set_first_attacker] ends within one turn of the
    ring when some active player bears the name. *)
Lemma rotate_to_total n fuel : ∀ s i p,
  active_players s !! i = Some p → name (heap s p) = n → i ≤ fuel →
  ∃ s', rotate_to fuel n s = Ok s'.
Proof.
  induction fuel as [|fuel IH]; intros s i p Hi Hn Hle.
  - assert (i = 0) as -> by lia. simpl.
    rewrite (proj2 (getitem_0 _ p)) by done. simpl.
    rewrite decide_False by (by intros ?). by eexists.
  - simpl. destruct (active_players s) as [|a rest] eqn:Hact; [done|].
    rewrite (proj2 (getitem_0 _ a)) by done. simpl.
    destruct (decide (name (heap s a) ≠ n)) as [Hne|]; [|by eexists].
    destruct i as [|j]; [simpl in Hi; congruence|]. simpl in Hi.
    unfold move_attacker_back. rewrite Hact. simpl.
    apply (IH _ j p); [|done|lia].
    simpl. by apply lookup_app_l_Some.
Qed.

(** [set_first_attacker] returns when every player of the ring holds a
    trump. *)
Lemma set_first_attacker_returns s :
  (∀ p, p ∈ active_players s → Player.get_lowest_trump (heap s p) ≠ None) →
  ∃ s', set_first_attacker s = Ok s'.
Proof.
  intros Hall. unfold set_first_attacker.
  destruct (first_attacker_loop_total s (active_players s) ((ACE + 1)%Z, None) Hall)
    as [found Hloop].
  rewrite Hloop. simpl.
  destruct (first_attacker_loop_spec _ _ _ _ Hloop) as (_ & _ & _ & Hfound).
  destruct (found.2) as [n|] eqn:Hn; [|by eexists].
  destruct Hfound as [->|(p & Hp & _ & Hname & _)]; [done|].
  apply list_elem_of_lookup_1 in Hp as [i Hi].
  apply (rotate_to_total n _ s i p); [done|congruence|].
  apply lookup_lt_Some in Hi. lia.
Qed.

(** [set_first_attacker] raises [TypeError] when a player of the ring holds
    no trump. *)
Lemma set_first_attacker_TypeError s :
  (∃ p, p ∈ active_players s ∧ Player.get_lowest_trump (heap s p) = None) →
  set_first_attacker s = Raise TypeError.
Proof.
  intros Hnone. unfold set_first_attacker.
  by rewrite first_attacker_loop_TypeError.
Qed.

Lemma do_reset_round_total s :
  2 ≤ length (active_players s) → ∃ s', do_reset_round s = Ok s'.
Proof.
  intros Hlen. unfold do_reset_round. simpl.
  destruct (active_players s) as [|a [|d l]] eqn:Hact; simpl in Hlen; try lia.
  rewrite (proj2 (getitem_0 _ a)) by done. simpl.
  rewrite (proj2 (getitem_1 _ d)) by done. simpl. by eexists.
Qed.

Lemma do_reset_round_short s :
  length (active_players s) < 2 → do_reset_round s = Raise IndexError.
Proof.
  intros Hlen. unfold do_reset_round. simpl.
  destruct (active_players s) as [|a [|d l]] eqn:Hact; simpl in Hlen; try lia.
  - by rewrite (getitem_out [] 0).
  - rewrite (proj2 (getitem_0 _ a)) by done. simpl. done.
Qed.

(** [reset] as a function of its deal: it asks that every player has been
    dealt a trump, for [set_first_attacker], and that [do_reset_round] finds
    an attacker and a defender; it asks nothing else of the number of
    players. *)
Lemma reset_by_deal e order shuffles s1 :
  initialize_players shuffles (reset_fields e order) = Ok s1 →
  ((∃ p, p ∈ order ∧ Player.get_lowest_trump (heap s1 p) = None) →
   reset e order shuffles = Raise TypeError)
  ∧ ((∀ p, p ∈ order → Player.get_lowest_trump (heap s1 p) ≠ None) →
     (length order < 2 → reset e order shuffles = Raise IndexError)
     ∧ (2 ≤ length order →
        ∃ s st, reset e order shuffles = Ok (s, st)
          ∧ length (active_players s) = length order
          ∧ game_over s = false)).
Proof.
  intros Hdeal. pose proof (initialize_players_active _ _ _ Hdeal) as Hact1.
  change (active_players (reset_fields e order)) with order in Hact1.
  unfold reset. rewrite Hdeal. simpl. split.
  - intros Hnone. rewrite set_first_attacker_TypeError; [done|]. by rewrite Hact1.
  - intros Hall.
    destruct (set_first_attacker_returns s1) as [s2 Hfirst]; [by rewrite Hact1|].
    destruct (set_first_attacker_spec _ _ Hfirst) as (_ & Hlen2 & _).
    rewrite Hfirst. simpl. split.
    + intros Hlen. rewrite do_reset_round_short; [done|]. by rewrite Hlen2, Hact1.
    + intros Hlen. destruct (do_reset_round_total s2) as [s3 Hround].
      { by rewrite Hlen2, Hact1. }
      rewrite Hround. simpl. eexists _, _. split; [done|].
      apply do_reset_round_spec in Hround
        as (_ & _ & _ & _ & _ & _ & _ & _ & _ & _ & _ & _ & _ & _ & Hact3 & _).
      rewrite update_legal_cards_eq. unfold game_over. simpl.
      rewrite Hact3, Hlen2, Hact1. split; [done|].
      apply bool_decide_eq_false_2. unfold MIN_PLAYERS. lia.
Qed.

(** With fewer than two players [reset] never hands back a state. *)
Lemma reset_short e order shuffles s st :
  length order < 2 → reset e order shuffles ≠ Ok (s, st).
Proof.
  intros Hlen E. unfold reset in E.
  apply bind_Ok in E as (s1 & Hdeal & E). apply bind_Ok in E as (s2 & Hfirst & E).
  apply bind_Ok in E as (s3 & Hround & _).
  apply initialize_players_active in Hdeal.
  change (active_players (reset_fields e order)) with order in Hdeal.
  apply set_first_attacker_spec in Hfirst as (_ & Hlen2 & _).
  rewrite do_reset_round_short in Hround; [done|]. by rewrite Hlen2, Hdeal.
Qed.

End PlayerCount.

Section ClaimC9.
Context `{DeckConsts}.

(** C9, as the code has it.  [reset] does not look at the number of
    players, and the engine has no error of its own for it.  With fewer than
    two players [reset] never hands back a state.  Once the deal has gone
    through, [reset] goes on with the cards dealt: it raises [TypeError] in
    [set_first_attacker] if one of the players has been dealt no trump;
    otherwise, with fewer than two players, it raises [IndexError] in
    [do_reset_round] for want of an attacker or a defender, and with two or
    more, more than [MAX_PLAYERS] included, it hands back the state of a
    running game. *)
Theorem C9_reset_player_count e order shuffles :
  (length order < 2 → ∀ s st, reset e order shuffles ≠ Ok (s, st))
  ∧ (∀ s1, initialize_players shuffles (reset_fields e order) = Ok s1 →
       ((∃ p, p ∈ order ∧ Player.get_lowest_trump (heap s1 p) = None) →
        reset e order shuffles = Raise TypeError)
       ∧ ((∀ p, p ∈ order → Player.get_lowest_trump (heap s1 p) ≠ None) →
          (length order < 2 → reset e order shuffles = Raise IndexError)
          ∧ (2 ≤ length order →
             ∃ s st, reset e order shuffles = Ok (s, st)
               ∧ length (active_players s) = length order
               ∧ game_over s = false))).
Proof.
  split.
  - intros Hlen s st. by apply reset_short.
  - intros s1. apply reset_by_deal.
Qed.

End ClaimC9.

Lemma C9_reset_player_count_witness :
  @reset Deck36.consts Game36.e1 [0] [Deck36.by_value] = Raise IndexError.
Proof.
  refine (proj1 (proj2 (proj2 (@C9_reset_player_count Deck36.consts Game36.e1 [0]
                                 [Deck36.by_value]) Game36.dealt1 _) _) _).
  - vm_compute. reflexivity.
  - intros p Hp. apply list_elem_of_singleton in Hp. subst p.
    vm_compute. discriminate.
  - vm_compute. lia.
Defined.

(** Seven players, one more than [MAX_PLAYERS], and the 36 cards dealt by
    value: [reset] does not stop at the number of players.  It deals six
    cards to each of the first six players, nothing is left for the seventh,
    and then [set_first_attacker] raises [TypeError] on the empty hand.  With
    one player it deals six cards and then [do_reset_round] raises
    [IndexError]. *)
Lemma C9_players_dealt_before_error :
  (MAX_PLAYERS < Z.of_nat (length (players Game36.e7)))%Z
  ∧ @initialize_players Deck36.consts [Deck36.by_value]
      (@reset_fields Deck36.consts Game36.e7 [0; 1; 2; 3; 4; 5; 6])
    = Ok Game36.dealt7
  ∧ hand_size_of Game36.dealt7 <$> [0; 1; 2; 3; 4; 5; 6] = [6; 6; 6; 6; 6; 6; 0]%Z
  ∧ deck Game36.dealt7 = []
  ∧ @reset Deck36.consts Game36.e7 [0; 1; 2; 3; 4; 5; 6] [Deck36.by_value]
    = Raise TypeError
  ∧ @initialize_players Deck36.consts [Deck36.by_value]
      (@reset_fields Deck36.consts Game36.e1 [0])
    = Ok Game36.dealt1
  ∧ hand_size_of Game36.dealt1 0 = 6%Z
  ∧ @reset Deck36.consts Game36.e1 [0] [Deck36.by_value] = Raise IndexError.
Proof. vm_compute. done. Qed.

(** ** Claims C1 and C6: a card of the table among the legal defending cards *)

Section TableCards.
Context `{DeckConsts}.

(** The legal defending cards, by membership. *)
Lemma elem_of_legal_defending_cards s c :
  c ∈ legal_defending_cards (update_legal_cards s)
  ↔ c = NO_CARD
    ∨ (c ∈ get_full_list_of_cards
       ∧ may_defend (attacking_cards s) (defending_cards s) (trump_suit s) c).
Proof.
  rewrite legal_defending_cards_spec, elem_of_cons, list_elem_of_filter. tauto.
Qed.

End TableCards.

(** C1.  In the game of [Game36], started by [reset] and played with legal
    actions only, the state after the attack (8,H), the defence (9,H) and
    the attack (8,S) has (8,H) among the attacking cards and among the legal
    defending cards: hearts is the trump suit, (8,S) is not a trump, and the
    test of [update_legal_cards] for a defending card looks at the defending
    cards only. *)
Theorem C1_table_card_among_legal_cards :
  @reset Deck36.consts Game36.e0 [0; 1] [Deck36.shuffled]
  = Ok (Game36.start, state Game36.start)
  ∧ @reachable_from Deck36.consts Game36.start Game36.after_8S
  ∧ attacking_cards Game36.after_8S = [(8, Deck36.hearts); (8, Deck36.spades)]%Z
  ∧ defending_cards Game36.after_8S = [(9, Deck36.hearts)]%Z
  ∧ (8, Deck36.hearts)%Z ∈ attacking_cards Game36.after_8S
  ∧ (8, Deck36.hearts)%Z ∈ legal_defending_cards Game36.after_8S.
Proof.
  split; [exact Game36_start|]. split; [exact Game36_reachable|].
  split; [vm_compute; reflexivity|]. split; [vm_compute; reflexivity|].
  split.
  - vm_compute. set_solver.
  - vm_compute. set_solver.
Qed.

(** C6.  On the table with the attacking cards (8,H), (8,S) and the defending
    card (9,H), trump hearts, [update_legal_cards] lists (8,H), a card of the
    table, as a legal defending card; the legal defending cards are
    [NO_CARD] and the cards of the deck that are not among the defending
    cards and beat the last attacking card, whether or not they are among the
    attacking cards. *)
Theorem C6_legal_defending_cards :
  let s := Game36.table_8H_9H_8S in
  attacking_cards s = [(8, Deck36.hearts); (8, Deck36.spades)]%Z
  ∧ defending_cards s = [(9, Deck36.hearts)]%Z
  ∧ trump_suit s = Deck36.hearts
  ∧ (8, Deck36.hearts)%Z ∈ legal_defending_cards (@update_legal_cards Deck36.consts s)
  ∧ ∀ c, c ∈ legal_defending_cards (@update_legal_cards Deck36.consts s)
         ↔ c = Deck36.no_card
           ∨ (c ∈ Deck36.full ∧ (c ∉ defending_cards s)
              ∧ beats Deck36.hearts c (8, Deck36.spades)%Z).
Proof.
  intros s. split; [reflexivity|]. split; [reflexivity|]. split; [reflexivity|].
  assert (∀ c, c ∈ legal_defending_cards (@update_legal_cards Deck36.consts s)
         ↔ c = Deck36.no_card
           ∨ (c ∈ Deck36.full ∧ (c ∉ defending_cards s)
              ∧ beats Deck36.hearts c (8, Deck36.spades)%Z)) as Hmem.
  { intros c. rewrite (@elem_of_legal_defending_cards Deck36.consts).
    change (attacking_cards s) with [(8, Deck36.hearts); (8, Deck36.spades)]%Z.
    change (defending_cards s) with [(9, Deck36.hearts)]%Z.
    change (trump_suit s) with Deck36.hearts.
    change (@NO_CARD Deck36.consts) with Deck36.no_card.
    change (@get_full_list_of_cards Deck36.consts) with Deck36.full.
    unfold may_defend.
    change (list.last [(8, Deck36.hearts); (8, Deck36.spades)]%Z)
      with (Some (8, Deck36.spades)%Z).
    cbn [length].
    split.
    - intros [?|(? & _ & ? & ?)]; [by left|by right].
    - intros [?|(? & ? & ?)]; [by left|right].
      split; [done|]. split; [lia|done]. }
  split; [|exact Hmem].
  apply Hmem. right.
  split; [apply (bool_decide_unpack _); vm_compute; exact I|].
  split; [by intros [=]%list_elem_of_singleton|]. right. done.
Qed.

(** ** The claims of the phase handlers and of the deal, on [Game36] *)

Lemma C8_starting_hand_and_redeal_witness :
  @Player.is_starting_hand_legal Deck36.consts (heap Game36.start 0) = false
  ↔ @spec_illegal_starting_hand Deck36.consts
      (initial_hand_size (heap Game36.start 0)) (_hand (heap Game36.start 0)).
Proof.
  apply (proj1 (@C8_starting_hand_and_redeal Deck36.consts)).
  - apply (bool_decide_unpack _). vm_compute. exact I.
  - vm_compute. reflexivity.
Defined.

Lemma C5_attack_phase_witness :
  let s := set_last_action (8, Deck36.hearts)%Z Game36.start in
  ∃ s', @do_attack_phase Deck36.consts s = Ok s'
    ∧ attacking_cards s' = attacking_cards s ++ [last_action s]
    ∧ defending_cards s' = defending_cards s
    ∧ attack_phase s' = false
    ∧ turn_player s' = turn_player s
    ∧ defending s' = defending s.
Proof.
  apply (proj1 (@C5_attack_phase Deck36.consts
                  (set_last_action (8, Deck36.hearts)%Z Game36.start))).
  vm_compute. discriminate.
Defined.

Lemma C4_defence_phase_witness :
  let s := set_last_action Deck36.no_card Game36.after_8H in
  ∃ s', @do_defence_phase Deck36.consts s = Ok s'
    ∧ defending s' = false ∧ successful s' = false
    ∧ _hand (heap s' 1) = _hand (heap s 1) ++ attacking_cards s ++ defending_cards s
    ∧ hand_size_of s' 1%nat
      = (hand_size_of s 1%nat + Z.of_nat (length (attacking_cards s))
         + Z.of_nat (length (defending_cards s)))%Z
    ∧ (∀ q, q ≠ 1 → heap s' q = heap s q)
    ∧ attacking_cards s' = attacking_cards s
    ∧ defending_cards s' = defending_cards s.
Proof.
  apply (proj2 (@C4_defence_phase Deck36.consts
                  (set_last_action Deck36.no_card Game36.after_8H))).
  - vm_compute. reflexivity.
  - vm_compute. reflexivity.
Defined.

(** ** [step] never raises in a running game *)

Lemma move_back_Permutation (l : list pid) : move_back l ≡ₚ l.
Proof.
  destruct l as [|x l]; [done|]. simpl. by rewrite Permutation_app_comm.
Qed.

Section Progress.
Context `{DeckConsts}.

Lemma game_on_length s : game_over s = false ↔ 2 ≤ length (active_players s).
Proof.
  unfold game_over, MIN_PLAYERS. rewrite bool_decide_eq_false. lia.
Qed.

(** A pass in the attack phase, for a turn player who stands in a ring of
    distinct players with a defender: the handler returns, and the turn
    stays in the ring. *)
Lemma do_attack_phase_pass_total s t :
  last_action s = NO_CARD →
  NoDup (active_players s) → 2 ≤ length (active_players s) →
  turn_player s = Some t → t ∈ active_players s →
  ∃ m t', do_attack_phase s = Ok m ∧ turn_player m = Some t'
    ∧ t' ∈ active_players s.
Proof.
  intros Hpass Hnd Hlen Ht Hin.
  apply list_elem_of_lookup_1 in Hin as [i Hi].
  destruct (lookup_lt_is_Some_2 (active_players s) 0) as [a Ha]; [lia|].
  destruct (lookup_lt_is_Some_2 (active_players s) 1) as [d Hd]; [lia|].
  destruct (list.last (active_players s)) as [lp|] eqn:Hlp;
    [|apply last_None in Hlp; rewrite Hlp in Hi; done].
  pose proof Hlp as Hlp'. rewrite last_lookup in Hlp'.
  unfold do_attack_phase. rewrite decide_False by (intros ?; done).
  rewrite (proj2 (getitem_last _ lp)) by done. simpl.
  destruct (decide (turn_player s = Some lp)) as [Hlast|Hnot].
  { eexists _, t. split; [done|]. split; [done|]. by eapply list_elem_of_lookup_2. }
  assert (S i < length (active_players s)) as Hlt.
  { apply lookup_lt_Some in Hi as Hi'.
    destruct (decide (i = pred (length (active_players s)))) as [->|]; [|lia].
    rewrite Hi in Hlp'. congruence. }
  destruct (lookup_lt_is_Some_2 (active_players s) (S i)) as [next Hnext]; [done|].
  simpl. rewrite Ht, (index_player _ i t) by done. simpl.
  rewrite (getitem_succ _ _ _ Hnext). simpl.
  rewrite (proj2 (getitem_1 _ d)) by done. simpl.
  destruct (decide (Some next = Some d)) as [[= ->]|Hnd'].
  - rewrite (proj2 (getitem_last _ lp)) by done. simpl.
    rewrite (index_player _ 1 d) by done. simpl.
    destruct (decide (Some d ≠ Some lp)) as [Hdl|Hdl].
    + assert (2 < length (active_players s)) as Hlen3.
      { destruct (decide (length (active_players s) = 2)) as [E|]; [|lia].
        rewrite E in Hlp'. simpl in Hlp'. congruence. }
      destruct (lookup_lt_is_Some_2 (active_players s) 2) as [n2 Hn2]; [done|].
      rewrite (getitem_succ _ 1 n2) by done. simpl.
      eexists _, n2. split; [done|]. split; [done|]. by eapply list_elem_of_lookup_2.
    + rewrite (getitem_nat _ 0 a) by done. simpl.
      eexists _, a. split; [done|]. split; [done|]. by eapply list_elem_of_lookup_2.
  - eexists _, next. split; [done|]. split; [done|]. by eapply list_elem_of_lookup_2.
Qed.

(** The phase handler of [step] returns, leaves the ring alone and leaves the
    turn in the ring. *)
Lemma run_phase_total s action t :
  NoDup (active_players s) → 2 ≤ length (active_players s) →
  turn_player s = Some t → t ∈ active_players s →
  ∃ m t', run_phase s action = Ok m ∧ active_players m = active_players s
    ∧ turn_player m = Some t' ∧ t' ∈ active_players s.
Proof.
  intros Hnd Hlen Ht Hin. unfold run_phase. simpl.
  destruct (attack_phase s) eqn:Hph.
  - destruct (decide (action = NO_CARD)) as [->|Hreal].
    + destruct (do_attack_phase_pass_total
                  (set_reward 0%Z (set_last_action NO_CARD s)) t)
        as (m & t' & Em & Ht' & Hin'); try done.
      exists m, t'. split; [done|].
      apply do_attack_phase_pass in Em as (_ & _ & _ & _ & _ & Hact & _); done.
    + unfold do_attack_phase. simpl. rewrite decide_True by done.
      eexists _, t. done.
  - unfold do_defence_phase. simpl. destruct (decide (action ≠ NO_CARD)).
    + eexists _, t. split; [done|]. by destruct (_ && _).
    + rewrite Ht. eexists _, t. done.
Qed.

Lemma check_end_round_total s :
  2 ≤ length (active_players s) →
  ∃ c, check_end_round s = Ok c.
Proof.
  intros Hlen.
  destruct (lookup_lt_is_Some_2 (active_players s) 0) as [a Ha]; [lia|].
  destruct (lookup_lt_is_Some_2 (active_players s) 1) as [d Hd]; [lia|].
  unfold check_end_round.
  destruct (negb (defending s)); [by eexists|].
  destruct (attack_phase s && reset_attacker s).
  { rewrite (proj2 (getitem_0 _ a)) by done. by eexists. }
  destruct (negb (attack_phase s)); [|by eexists].
  rewrite (proj2 (getitem_1 _ d)) by done. by eexists.
Qed.

(** Where [check_end_round] leaves the turn. *)
Lemma check_end_round_turn s c t :
  check_end_round s = Ok c → turn_player s = Some t → t ∈ active_players s →
  active_players c = active_players s
  ∧ ∃ t', turn_player c = Some t' ∧ t' ∈ active_players s.
Proof.
  unfold check_end_round. intros E Ht Hin.
  destruct (negb (defending s)).
  { injection E as <-. split; [done|]. by exists t. }
  destruct (attack_phase s && reset_attacker s).
  { apply bind_Ok in E as (a & Ea & E). injection E as <-. split; [done|].
    exists a. split; [done|]. apply getitem_0 in Ea. by eapply list_elem_of_lookup_2. }
  destruct (negb (attack_phase s)).
  { apply bind_Ok in E as (d & Ed & E). injection E as <-. split; [done|].
    exists d. split; [done|]. apply getitem_1 in Ed. by eapply list_elem_of_lookup_2. }
  injection E as <-. split; [done|]. by exists t.
Qed.

Lemma update_players_hands_total s :
  2 ≤ length (active_players s) → ∃ s', update_players_hands s = Ok s'.
Proof.
  intros Hlen. unfold update_players_hands.
  set (s1 := foldl _ _ _).
  destruct (refills_spec
    (take (Z.to_nat defender) (active_players s)
     ++ drop (Z.to_nat (defender + 1)) (active_players s)) s) as [Eq _].
  fold s1 in Eq.
  assert (active_players s1 = active_players s) as Hact by (by rewrite Eq).
  destruct (lookup_lt_is_Some_2 (active_players s1) 1) as [d Hd]; [by rewrite Hact|].
  rewrite (proj2 (getitem_1 _ d)) by done. by eexists.
Qed.

(** [update_active_players_order] never raises; it permutes the ring. *)
Lemma update_active_players_order_total s :
  ∃ s', update_active_players_order s = Ok s'
    ∧ active_players s' ≡ₚ active_players s.
Proof.
  unfold update_active_players_order. case_bool_decide as Hone.
  - destruct (active_players s) as [|a l] eqn:Hact; [done|].
    rewrite (proj2 (getitem_0 _ a)) by done. simpl. eexists. split; [done|].
    simpl. by rewrite Hact.
  - destruct (_ >=? _)%Z eqn:Hge; [|by eexists].
    destruct (active_players s) as [|a l] eqn:Hact; [done|].
    rewrite (proj2 (getitem_0 _ a)) by done. simpl.
    assert (∃ s1, (if decide (Some a = attacking_player s)
                   then move_attacker_back s else Ok s) = Ok s1
                  ∧ active_players s1 ≡ₚ a :: l
                  ∧ successful s1 = successful s) as (s1 & -> & Hp1 & Hs1).
    { destruct (decide _).
      - unfold move_attacker_back. rewrite Hact. eexists. split; [done|].
        simpl. split; [|done]. by rewrite Permutation_app_comm.
      - exists s. by rewrite Hact. }
    simpl. destruct (negb (successful s1)).
    + unfold move_attacker_back.
      destruct (active_players s1) as [|b l1] eqn:Hact1.
      { apply Permutation_nil_l in Hp1. done. }
      eexists. split; [done|]. simpl. by rewrite Permutation_app_comm.
    + by exists s1.
Qed.

(** The round resolution returns whenever a defender stands in the ring; the
    ring stays free of repetitions, and a new round begins with the turn at
    its head. *)
Lemma resolve_round_total s :
  NoDup (active_players s) → 2 ≤ length (active_players s) →
  ∃ s', resolve_round s = Ok s' ∧ ring_ok s'.
Proof.
  intros Hnd Hlen. unfold resolve_round.
  assert (update_end_round_players s = Ok s) as ->.
  { unfold update_end_round_players.
    destruct (lookup_lt_is_Some_2 (active_players s) 1) as [d Hd]; [lia|].
    destruct (active_players s) eqn:Hact; [done|].
    by rewrite (proj2 (getitem_1 _ d)). }
  simpl. destruct (update_players_hands_total s Hlen) as [s2 E2]. rewrite E2. simpl.
  apply update_players_hands_spec in E2 as [Eq2 _].
  assert (active_players s2 = active_players s) as Hact2 by (by rewrite Eq2).
  clear Eq2. rewrite remove_winners_spec. simpl.
  set (s3 := set_active_players _ s2).
  assert (NoDup (active_players s3)) as Hnd3.
  { simpl. apply list.NoDup_filter. by rewrite Hact2. }
  destruct (update_active_players_order_total s3) as (s4 & -> & Hp4). simpl.
  assert (NoDup (active_players s4)) as Hnd4 by (by rewrite Hp4).
  clearbody s3. destruct (game_over s4) eqn:Hover; simpl.
  - exists s4. split; [done|]. split; [done|]. congruence.
  - apply game_on_length in Hover.
    destruct (do_reset_round_total s4 Hover) as [s5 E5]. rewrite E5.
    exists s5. split; [done|].
    apply do_reset_round_spec in E5
      as (a & d & Ha & _ & _ & _ & _ & _ & _ & _ & _ & Ht & _ & _ & Hact5 & _).
    split; [by rewrite Hact5|]. intros _. exists a. split; [done|].
    rewrite Hact5. by eapply list_elem_of_lookup_2.
Qed.

(** One [step] of a running game returns and keeps the ring in order. *)
Lemma step_total s action :
  ring_ok s → game_over s = false →
  ∃ s' out, step s action = Ok (s', out) ∧ ring_ok s'.
Proof.
  intros [Hnd Hturn] Hover. destruct (Hturn Hover) as (t & Ht & Hin).
  apply game_on_length in Hover.
  destruct (run_phase_total s action t Hnd Hover Ht Hin)
    as (m & t' & Em & Hactm & Ht' & Hin').
  unfold step. rewrite Em. simpl.
  assert (∃ r, calculate_reward m = Ok r) as [r ->].
  { unfold calculate_reward. rewrite Ht'.
    destruct (_ && _); [by eexists|]. destruct (negb _); [|by eexists].
    destruct (successful m); by eexists. }
  simpl. set (m1 := set_reward r m).
  assert (active_players m1 = active_players s) as Hact1 by done.
  assert (turn_player m1 = Some t') as Ht1 by done.
  clearbody m1.
  destruct (check_end_round_total m1) as [c Ec]; [by rewrite Hact1|].
  rewrite Ec. simpl.
  destruct (check_end_round_turn m1 c t' Ec Ht1) as (Hactc & tc & Htc & Hinc);
    [by rewrite Hact1|].
  rewrite Hact1 in Hactc, Hinc.
  assert (∃ s2, (if reset_round c then resolve_round c else Ok c) = Ok s2
                ∧ ring_ok s2) as (s2 & -> & Hok2).
  { destruct (reset_round c).
    - apply resolve_round_total; by rewrite Hactc.
    - exists c. split; [done|]. split; [by rewrite Hactc|].
      intros _. exists tc. by rewrite Hactc. }
  simpl. eexists _, _. split; [done|].
  rewrite update_legal_cards_eq. done.
Qed.

End Progress.

(** ** Further properties of the engine *)

Section Games.
Context `{DeckConsts}.

Lemma hands_changed_refl s : hands_changed s s.
Proof. exists (heap s). split; [by destruct s|done]. Qed.

Lemma ring_ok_hands s s1 : hands_changed s s1 → ring_ok s → ring_ok s1.
Proof. intros (h & -> & _). done. Qed.

Lemma rotate_to_Permutation fuel n : ∀ s s',
  rotate_to fuel n s = Ok s' → active_players s' ≡ₚ active_players s.
Proof.
  induction fuel as [|fuel IH]; intros s s' E; simpl in E;
    apply bind_Ok in E as (a & _ & E); destruct (decide _); try done.
  - by injection E as <-.
  - apply bind_Ok in E as (s1 & E1 & E). apply move_attacker_back_spec in E1.
    apply IH in E. rewrite E, E1. simpl. apply move_back_Permutation.
  - by injection E as <-.
Qed.

Lemma set_first_attacker_Permutation s s' :
  set_first_attacker s = Ok s' → active_players s' ≡ₚ active_players s.
Proof.
  unfold set_first_attacker. intros E. apply bind_Ok in E as ([v [n|]] & _ & E).
  - by apply rotate_to_Permutation in E.
  - by injection E as <-.
Qed.

(** The ring [reset] hands back. *)
Lemma reset_ring_ok e order shuffles s0 st0 :
  NoDup order → reset e order shuffles = Ok (s0, st0) →
  ring_ok s0 ∧ active_players s0 ≡ₚ order.
Proof.
  intros Hnd. unfold reset. intros E.
  apply bind_Ok in E as (s1 & E1 & E). apply bind_Ok in E as (s2 & E2 & E).
  apply bind_Ok in E as (s3 & E3 & E). injection E as <- _.
  apply initialize_players_active in E1.
  change (active_players (reset_fields e order)) with order in E1.
  apply set_first_attacker_Permutation in E2. rewrite E1 in E2.
  apply do_reset_round_spec in E3
    as (a & d & Ha & _ & _ & _ & _ & _ & _ & _ & _ & Ht & _ & _ & Hact3 & _).
  rewrite update_legal_cards_eq. unfold ring_ok. simpl. rewrite Hact3.
  split; [|done]. split; [by rewrite E2|].
  intros _. exists a. split; [done|]. rewrite <- Hact3 in Ha.
  rewrite <- Hact3. by eapply list_elem_of_lookup_2.
Qed.

Lemma reachable_ring_ok s0 s :
  ring_ok s0 → reachable_from s0 s → ring_ok s.
Proof.
  intros H0. induction 1 as [|s s1 action s' out _ IH Hover _ Hhands Hstep]; [done|].
  destruct (step_total s1 action) as (s'' & out' & Hstep' & Hok).
  - by eapply ring_ok_hands.
  - by rewrite (game_over_hands _ _ Hhands).
  - congruence.
Qed.

(** In a game [reset] has started for distinct players, [step] raises no
    exception as long as the game is on: whatever card is submitted, and
    whatever the policies have done to the hands, it returns a state. *)
Theorem step_never_raises e order shuffles s0 st0 s s1 action :
  NoDup order →
  reset e order shuffles = Ok (s0, st0) →
  reachable_from s0 s →
  game_over s = false →
  hands_changed s s1 →
  ∃ s' out, step s1 action = Ok (s', out).
Proof.
  intros Hnd Hreset Hreach Hover Hhands.
  destruct (reset_ring_ok _ _ _ _ _ Hnd Hreset) as [Hok0 _].
  destruct (step_total s1 action) as (s' & out & Hstep & _).
  - eapply ring_ok_hands; [done|]. by eapply reachable_ring_ok.
  - by rewrite (game_over_hands _ _ Hhands).
  - by exists s', out.
Qed.

(** In such a game the ring never holds a player twice, it is always made
    of players [reset] was given, and while the game is on the turn is with
    a member of the ring. *)
Theorem ring_of_a_game e order shuffles s0 st0 s :
  NoDup order →
  reset e order shuffles = Ok (s0, st0) →
  reachable_from s0 s →
  NoDup (active_players s)
  ∧ (game_over s = false → ∃ t, turn_player s = Some t ∧ t ∈ active_players s).
Proof.
  intros Hnd Hreset Hreach.
  destruct (reset_ring_ok _ _ _ _ _ Hnd Hreset) as [Hok0 _].
  by apply (reachable_ring_ok s0 s).
Qed.

(** The table follows the phase.  While such a game is on, with a deck that
    serves every player: the round is open; in the attack phase every attack
    is answered and one more attack fits under the limit; in the defence
    phase exactly one attack is unanswered and the turn is the defender's. *)
Theorem table_follows_phase e order shuffles s0 st0 s :
  NoDup order →
  (∀ d, d ∈ shuffles → (HAND_SIZE * Z.of_nat (length order) ≤ Z.of_nat (length d))%Z) →
  reset e order shuffles = Ok (s0, st0) →
  reachable_from s0 s →
  game_over s = false →
  defending s = true ∧ reset_round s = false
  ∧ (attack_phase s = true →
     length (attacking_cards s) = length (defending_cards s)
     ∧ (Z.of_nat (length (attacking_cards s)) < limit s)%Z)
  ∧ (attack_phase s = false →
     length (attacking_cards s) = S (length (defending_cards s))
     ∧ turn_player s = active_players s !! 1).
Proof.
  intros Hnd Hdeck Hreset Hreach Hover.
  assert (round_invariant s) as [_ Hinv].
  { eapply reachable_invariant; [|done]. by eapply reset_invariant. }
  by apply Hinv.
Qed.

(** What [reset] hands back when the deck serves every player: the ring is
    the given order turned, every player holds [HAND_SIZE] cards, the table
    is empty, the attack phase is on, the head of the ring is the attacker
    and has the turn, and the limit is [HAND_SIZE]. *)
Theorem reset_deals_full_hands e order shuffles s0 st0 :
  NoDup order →
  (∀ d, d ∈ shuffles → (HAND_SIZE * Z.of_nat (length order) ≤ Z.of_nat (length d))%Z) →
  reset e order shuffles = Ok (s0, st0) →
  active_players s0 ≡ₚ order
  ∧ (∀ p, p ∈ order → hand_size_of s0 p = HAND_SIZE)
  ∧ attacking_cards s0 = [] ∧ defending_cards s0 = [] ∧ attack_phase s0 = true
  ∧ turn_player s0 = active_players s0 !! 0
  ∧ attacking_player s0 = active_players s0 !! 0
  ∧ limit s0 = HAND_SIZE
  ∧ game_over s0 = false.
Proof.
  intros Hnd Hdeck Hreset.
  destruct (reset_ring_ok _ _ _ _ _ Hnd Hreset) as [_ Hperm].
  destruct (reset_spec _ _ _ _ _ Hnd Hdeck Hreset)
    as (Ha & Hd & Hp & _ & _ & _ & Hlen & Hhands & a & d & Ha0 & Hd1 & Ht & Hap & _ & Hlim).
  split_and!; try done; try congruence.
  apply game_on_length. apply lookup_lt_Some in Hd1. lia.
Qed.

(** [do_reset_round] raises [IndexError] exactly when the ring has no
    defender, that is fewer than two members; otherwise it opens a round. *)
Theorem do_reset_round_needs_two s :
  (do_reset_round s = Raise IndexError ↔ length (active_players s) < 2)
  ∧ ((∃ s', do_reset_round s = Ok s') ↔ 2 ≤ length (active_players s)).
Proof.
  destruct (decide (length (active_players s) < 2)) as [Hlt|Hge].
  - pose proof (do_reset_round_short s Hlt) as E. split; [done|].
    split; [|lia]. intros [s' E']. congruence.
  - destruct (do_reset_round_total s) as [s' E]; [lia|]. split.
    + split; [congruence|lia].
    + split; [lia|]. by exists s'.
Qed.

(** [remove_winners] never raises: the ring it leaves is the old ring
    without the players whose hand is empty, the others in their order, and
    nothing else of the engine changes. *)
Theorem remove_winners_keeps_players_with_cards s :
  ∃ s', remove_winners s = Ok s'
    ∧ active_players s' = filter (fun p => hand_size_of s p ≠ 0%Z) (active_players s)
    ∧ s' = set_active_players (active_players s') s
    ∧ (∀ p, p ∈ active_players s' ↔ p ∈ active_players s ∧ _hand (heap s p) ≠ []).
Proof.
  rewrite remove_winners_spec. eexists. split; [done|]. simpl.
  split; [done|]. split; [done|].
  intros p. rewrite list_elem_of_filter. unfold hand_size_of, Player.hand_size.
  destruct (_hand (heap s p)); simpl; split; intros [? ?]; split; try done; lia.
Qed.

End Games.

Lemma step_never_raises_witness :
  ∃ s' out, @step Deck36.consts Game36.after_8S (9, Deck36.spades)%Z = Ok (s', out).
Proof.
  apply (@step_never_raises Deck36.consts Game36.e0 [0; 1] [Deck36.shuffled]
           Game36.start (state Game36.start) Game36.after_8S).
  - exact (bool_decide_unpack (NoDup [0; 1]) I).
  - exact Game36_start.
  - exact Game36_reachable.
  - vm_compute. reflexivity.
  - apply hands_changed_refl.
Defined.

Lemma ring_of_a_game_witness :
  NoDup (active_players Game36.after_8S)
  ∧ (game_over Game36.after_8S = false →
     ∃ t, turn_player Game36.after_8S = Some t ∧ t ∈ active_players Game36.after_8S).
Proof.
  apply (@ring_of_a_game Deck36.consts Game36.e0 [0; 1] [Deck36.shuffled]
           Game36.start (state Game36.start) Game36.after_8S).
  - exact (bool_decide_unpack (NoDup [0; 1]) I).
  - exact Game36_start.
  - exact Game36_reachable.
Defined.

Lemma table_follows_phase_witness :
  let s := Game36.after_8S in
  defending s = true ∧ reset_round s = false
  ∧ (attack_phase s = true →
     length (attacking_cards s) = length (defending_cards s)
     ∧ (Z.of_nat (length (attacking_cards s)) < limit s)%Z)
  ∧ (attack_phase s = false →
     length (attacking_cards s) = S (length (defending_cards s))
     ∧ turn_player s = active_players s !! 1).
Proof.
  apply (@table_follows_phase Deck36.consts Game36.e0 [0; 1] [Deck36.shuffled]
           Game36.start (state Game36.start) Game36.after_8S).
  - exact (bool_decide_unpack (NoDup [0; 1]) I).
  - intros d Hd. apply list_elem_of_singleton in Hd. subst d. vm_compute. discriminate.
  - exact Game36_start.
  - exact Game36_reachable.
  - vm_compute. reflexivity.
Defined.

Lemma reset_deals_full_hands_witness :
  let s0 := Game36.start in
  active_players s0 ≡ₚ [0; 1]
  ∧ (∀ p, p ∈ [0; 1] → hand_size_of s0 p = HAND_SIZE)
  ∧ attacking_cards s0 = [] ∧ defending_cards s0 = [] ∧ attack_phase s0 = true
  ∧ turn_player s0 = active_players s0 !! 0
  ∧ attacking_player s0 = active_players s0 !! 0
  ∧ limit s0 = HAND_SIZE
  ∧ game_over s0 = false.
Proof.
  apply (@reset_deals_full_hands Deck36.consts Game36.e0 [0; 1] [Deck36.shuffled]
           Game36.start (state Game36.start)).
  - exact (bool_decide_unpack (NoDup [0; 1]) I).
  - intros d Hd. apply list_elem_of_singleton in Hd. subst d. vm_compute. discriminate.
  - exact Game36_start.
Defined.

(** ** Further properties of the legal sets *)

Section LegalSets.
Context `{DeckConsts}.

(** Once the table is not empty, a legal attacking card other than
    [NO_CARD] is a card of the deck that lies neither among the attacking
    nor among the defending cards and has the value of a card of the table
    in another suit; and every such card is legal. *)
Theorem legal_attacking_cards_off_table s c :
  attacking_cards s ≠ [] →
  c ≠ NO_CARD →
  (c ∈ legal_attacking_cards (update_legal_cards s)
   ↔ c ∈ get_full_list_of_cards
     ∧ (c ∉ attacking_cards s) ∧ (c ∉ defending_cards s)
     ∧ ∃ x, x ∈ attacking_cards s ++ defending_cards s ∧ c.1 = x.1 ∧ c.2 ≠ x.2).
Proof.
  intros Hne Hc. rewrite legal_attacking_cards_spec, decide_False by done.
  unfold may_attack. tauto.
Qed.

(** A legal defending card is never one of the defending cards, and when
    no attack is open [NO_CARD] is the only legal defending card. *)
Theorem legal_defending_cards_answer_open_attack s c :
  c ∈ legal_defending_cards (update_legal_cards s) →
  c ≠ NO_CARD →
  (c ∉ defending_cards s)
  ∧ length (defending_cards s) < length (attacking_cards s)
  ∧ ∃ a, list.last (attacking_cards s) = Some a ∧ beats (trump_suit s) c a.
Proof.
  rewrite legal_defending_cards_spec, elem_of_cons, list_elem_of_filter.
  intros [->|[(Hlt & Hdef & Hb) _]] Hc; [done|].
  split; [done|]. split; [done|].
  destruct (list.last (attacking_cards s)) as [a|]; [|done]. by exists a.
Qed.

(** With a single attacking card [a] on the table and no defending card,
    the legal defending cards are [NO_CARD] and the cards of the deck that
    beat [a]: the cards of its suit with a greater value and, if [a] is no
    trump, the trumps.  None of them is on the table. *)
Theorem legal_defending_cards_single_attack s a c :
  attacking_cards s = [a] → defending_cards s = [] →
  (c ∈ legal_defending_cards (update_legal_cards s)
   ↔ c = NO_CARD
     ∨ (c ∈ get_full_list_of_cards
        ∧ ((c.2 = a.2 ∧ (a.1 < c.1)%Z) ∨ (c.2 = trump_suit s ∧ a.2 ≠ trump_suit s))))
  ∧ (c ∈ legal_defending_cards (update_legal_cards s) → c ≠ NO_CARD →
     c ∉ attacking_cards s ++ defending_cards s).
Proof.
  intros Ha Hd.
  assert (c ∈ legal_defending_cards (update_legal_cards s)
          ↔ c = NO_CARD ∨ (c ∈ get_full_list_of_cards ∧ beats (trump_suit s) c a)) as Hmem.
  { rewrite legal_defending_cards_spec, elem_of_cons, list_elem_of_filter.
    unfold may_defend. rewrite Ha, Hd. simpl.
    split; (intros [?|?]; [by left|right]); [tauto|].
    split; [|tauto]. split; [lia|]. split; [apply not_elem_of_nil|tauto]. }
  split; [exact Hmem|].
  intros Hin Hc. apply Hmem in Hin as [?|[_ Hb]]; [done|].
  rewrite Ha, Hd. simpl. intros ->%list_elem_of_singleton.
  destruct Hb as [[_ ?]|[? ?]]; [lia|done].
Qed.

(** [update_legal_cards] touches the two legal lists only, and publishing
    twice is publishing once. *)
Theorem update_legal_cards_idempotent s :
  update_legal_cards (update_legal_cards s) = update_legal_cards s
  ∧ update_legal_cards s
    = set_legal_defending_cards (legal_defending_cards (update_legal_cards s))
        (set_legal_attacking_cards (legal_attacking_cards (update_legal_cards s)) s).
Proof.
  split; [|apply update_legal_cards_eq].
  rewrite (update_legal_cards_eq s) at 1.
  generalize (legal_defending_cards (update_legal_cards s)),
             (legal_attacking_cards (update_legal_cards s)).
  intros ld la. unfold update_legal_cards. simpl.
  destruct (bool_decide _); [done|]. by destruct (foldl _ _ _).
Qed.

End LegalSets.

Lemma legal_attacking_cards_off_table_witness :
  let s := Game36.after_8H in
  let c := (8, Deck36.spades)%Z in
  c ∈ legal_attacking_cards (@update_legal_cards Deck36.consts s)
  ↔ c ∈ Deck36.full
    ∧ (c ∉ attacking_cards s) ∧ (c ∉ defending_cards s)
    ∧ ∃ x, x ∈ attacking_cards s ++ defending_cards s ∧ c.1 = x.1 ∧ c.2 ≠ x.2.
Proof.
  apply (@legal_attacking_cards_off_table Deck36.consts Game36.after_8H
           (8, Deck36.spades)%Z).
  - vm_compute. discriminate.
  - vm_compute. discriminate.
Defined.

Lemma legal_defending_cards_answer_open_attack_witness :
  let s := Game36.after_8H in
  let c := (9, Deck36.hearts)%Z in
  (c ∉ defending_cards s)
  ∧ length (defending_cards s) < length (attacking_cards s)
  ∧ ∃ a, list.last (attacking_cards s) = Some a ∧ beats (trump_suit s) c a.
Proof.
  apply (@legal_defending_cards_answer_open_attack Deck36.consts Game36.after_8H
           (9, Deck36.hearts)%Z).
  - apply (bool_decide_unpack _). vm_compute. exact I.
  - vm_compute. discriminate.
Defined.

Lemma legal_defending_cards_single_attack_witness :
  let s := Game36.after_8H in
  let a := (8, Deck36.hearts)%Z in
  let c := (9, Deck36.hearts)%Z in
  (c ∈ legal_defending_cards (@update_legal_cards Deck36.consts s)
   ↔ c = Deck36.no_card
     ∨ (c ∈ Deck36.full
        ∧ ((c.2 = a.2 ∧ (a.1 < c.1)%Z) ∨ (c.2 = trump_suit s ∧ a.2 ≠ trump_suit s))))
  ∧ (c ∈ legal_defending_cards (@update_legal_cards Deck36.consts s) →
     c ≠ Deck36.no_card →
     c ∉ attacking_cards s ++ defending_cards s).
Proof.
  apply (@legal_defending_cards_single_attack Deck36.consts Game36.after_8H
           (8, Deck36.hearts)%Z (9, Deck36.hearts)%Z).
  - vm_compute. reflexivity.
  - vm_compute. reflexivity.
Defined.

(** ** Further properties of the round resolution *)

Section Refills.
Context `{DeckConsts}.

Lemma refill_bounds p s q :
  (hand_size_of (refill p s) q ≤ Z.max (hand_size_of s q) HAND_SIZE)%Z
  ∧ (p ≠ q → heap (refill p s) q = heap s q)
  ∧ ∃ k, deck (refill p s) = drop k (deck s).
Proof.
  split_and!.
  - unfold hand_size_of, Player.hand_size. rewrite heap_refill.
    destruct (decide (p = q)) as [->|]; simpl; [|lia].
    rewrite length_app, length_take. unfold hand_size_of, Player.hand_size. lia.
  - intros Hne. by rewrite heap_refill, decide_False.
  - by eexists.
Qed.

Lemma refills_bounds ps : ∀ s,
  let s' := foldl (fun s p => refill p s) s ps in
  (∀ q, (hand_size_of s' q ≤ Z.max (hand_size_of s q) HAND_SIZE)%Z)
  ∧ (∀ q, q ∉ ps → heap s' q = heap s q)
  ∧ ∃ k, deck s' = drop k (deck s).
Proof.
  induction ps as [|p ps IH]; intros s; cbn [foldl].
  - split_and!; [intros q; lia|done|by exists 0].
  - destruct (IH (refill p s)) as (Hup & Hout & k & Hk).
    destruct (refill_bounds p s p) as (_ & _ & k1 & Hk1).
    split_and!.
    + intros q. destruct (refill_bounds p s q) as (Hup1 & _). specialize (Hup q). lia.
    + intros q [Hne Hq]%not_elem_of_cons. rewrite Hout by done.
      destruct (refill_bounds p s q) as (_ & Hout1 & _). apply Hout1. congruence.
    + exists (k1 + k). by rewrite Hk, Hk1, drop_drop.
Qed.

(** What [update_players_hands] does to hands and deck when it returns. *)
Lemma update_players_hands_effect s s' :
  update_players_hands s = Ok s' →
  (∀ q, (hand_size_of s' q ≤ Z.max (hand_size_of s q) HAND_SIZE)%Z)
  ∧ (∀ q, q ∉ active_players s → heap s' q = heap s q)
  ∧ ∃ k, deck s' = drop k (deck s).
Proof.
  intros E. unfold update_players_hands in E.
  set (others := take (Z.to_nat defender) (active_players s)
                 ++ drop (Z.to_nat (defender + 1)) (active_players s)) in E.
  destruct (refills_bounds others s) as (Hup & Hout & k & Hk).
  destruct (refills_spec others s) as [Eq1 _].
  set (s1 := foldl (fun s p => refill p s) s others) in *.
  assert (active_players s1 = active_players s) as Hact by (by rewrite Eq1).
  apply bind_Ok in E as (d & Ed & E). apply getitem_1 in Ed. injection E as <-.
  destruct (refill_bounds d s1 d) as (_ & _ & k1 & Hk1).
  assert (∀ q, q ∈ others → q ∈ active_players s) as Hothers.
  { intros q. unfold others. rewrite elem_of_app.
    intros [Hq|Hq]; [by eapply subseteq_take|by eapply subseteq_drop]. }
  split_and!.
  - intros q. destruct (refill_bounds d s1 q) as (Hup1 & _). specialize (Hup q). lia.
  - intros q Hq. destruct (refill_bounds d s1 q) as (_ & Hout1 & _).
    rewrite Hout1.
    + apply Hout. intros Hin. by apply Hq, Hothers.
    + intros ->. apply Hq. rewrite <- Hact. by eapply list_elem_of_lookup_2.
  - exists (k + k1). by rewrite Hk1, Hk, drop_drop.
Qed.

(** [update_players_hands] needs a defender: with fewer than two players in
    the ring it raises [IndexError].  Otherwise it returns; it changes hands
    and deck only; no hand shrinks, a hand grows to [HAND_SIZE] cards at
    most, the players outside the ring keep their hands, and the deck loses
    cards from its front only. *)
Theorem update_players_hands_bounds s :
  (length (active_players s) < 2 → update_players_hands s = Raise IndexError)
  ∧ (2 ≤ length (active_players s) →
     ∃ s', update_players_hands s = Ok s'
       ∧ s' = set_heap (heap s') (set_deck (deck s') s)
       ∧ (∀ q, (hand_size_of s q ≤ hand_size_of s' q
                ≤ Z.max (hand_size_of s q) HAND_SIZE)%Z)
       ∧ (∀ q, q ∉ active_players s → heap s' q = heap s q)
       ∧ ∃ k, deck s' = drop k (deck s)).
Proof.
  split.
  - intros Hlen. unfold update_players_hands.
    set (s1 := foldl _ _ _).
    destruct (refills_spec
      (take (Z.to_nat defender) (active_players s)
       ++ drop (Z.to_nat (defender + 1)) (active_players s)) s) as [Eq _].
    fold s1 in Eq.
    assert (active_players s1 = active_players s) as Hact by (by rewrite Eq).
    change defender with (Z.of_nat 1).
    rewrite getitem_out; [done|]. rewrite Hact. lia.
  - intros Hlen. destruct (update_players_hands_total s Hlen) as [s' E].
    exists s'. split; [done|].
    destruct (update_players_hands_spec _ _ E) as [Eq Hle]. split; [done|].
    destruct (update_players_hands_effect _ _ E) as (Hup & Hout & Hdeck).
    split; [|done]. intros q. split; [apply Hle|apply Hup].
Qed.

(** Turning the ring as many times as it has members gives the ring back;
    on an empty ring [move_attacker_back] raises [IndexError]. *)
Theorem move_attacker_back_full_turn s :
  (active_players s = [] → move_attacker_back s = Raise IndexError)
  ∧ (active_players s ≠ [] →
     Nat.iter (length (active_players s)) (fun r => r ≫= move_attacker_back) (Ok s)
     = Ok s).
Proof.
  split.
  - intros E. unfold move_attacker_back. by rewrite E.
  - intros Hne.
    assert (∀ n, Nat.iter n (fun r => r ≫= move_attacker_back) (Ok s)
                 = Ok (set_active_players (Nat.iter n move_back (active_players s)) s)
                 ∧ length (Nat.iter n move_back (active_players s))
                   = length (active_players s)) as Hiter.
    { induction n as [|n [IH Hlen]]; simpl.
      - split; [by destruct s|done].
      - rewrite IH. simpl. unfold move_attacker_back. simpl.
        rewrite length_move_back. split; [|done].
        destruct (Nat.iter n move_back (active_players s)) as [|x l] eqn:Hl; [|done].
        destruct (active_players s); [done|simpl in Hlen; lia]. }
    destruct (Hiter (length (active_players s))) as [-> _].
    assert (∀ (l1 l2 : list pid), Nat.iter (length l1) move_back (l1 ++ l2) = l2 ++ l1)
      as Hturn.
    { induction l1 as [|x l1 IH]; intros l2.
      - simpl. by rewrite app_nil_r.
      - cbn [length]. rewrite Nat.iter_succ_r. simpl.
        rewrite <- app_assoc. rewrite IH. by rewrite <- app_assoc. }
    specialize (Hturn (active_players s) []). rewrite app_nil_r in Hturn.
    rewrite Hturn. simpl. by destruct s.
Qed.

(** When a round resolution ends the game, either nobody is left in the
    ring and the loser is as it was, or exactly one player is left, holds
    cards, and is recorded as the loser. *)
Theorem resolution_names_loser s s' :
  resolve_round s = Ok s' →
  game_over s' = true →
  (active_players s' = [] ∧ loser s' = loser s)
  ∨ (∃ p, active_players s' = [p] ∧ loser s' = Some p ∧ _hand (heap s' p) ≠ []).
Proof.
  unfold resolve_round. intros E Hover.
  apply bind_Ok in E as (s1 & E1 & E). apply update_end_round_players_spec in E1 as ->.
  apply bind_Ok in E as (s2 & E2 & E). apply update_players_hands_spec in E2 as [Eq2 _].
  assert (loser s2 = loser s) as Hl2 by (by rewrite Eq2).
  clear Eq2.
  apply bind_Ok in E as (s3 & E3 & E). rewrite remove_winners_spec in E3.
  injection E3 as E3.
  assert (loser s3 = loser s2 ∧ heap s3 = heap s2
          ∧ active_players s3
            = filter (fun p => hand_size_of s2 p ≠ 0%Z) (active_players s2))
    as (Hl3 & Hh3 & Hact3) by (by rewrite <- E3).
  clear E3.
  apply bind_Ok in E as (s4 & E4 & E).
  assert (s' = s4) as ->.
  { destruct (game_over s4) eqn:Hover4; simpl in E; [by injection E as <-|].
    apply do_reset_round_spec in E
      as (_ & _ & _ & _ & _ & _ & _ & _ & _ & _ & _ & _ & _ & _ & Hact & _).
    unfold game_over in *. rewrite Hact in Hover. congruence. }
  clear E.
  assert (length (active_players s4) = length (active_players s3)
          ∧ heap s4 = heap s3) as [Hlen4 Hh4].
  { destruct (update_active_players_order_spec _ _ E4) as (l & lo & -> & Hlen & _).
    done. }
  unfold game_over, MIN_PLAYERS in Hover. apply bool_decide_eq_true_1 in Hover.
  unfold update_active_players_order in E4.
  case_bool_decide as Hone.
  - apply bind_Ok in E4 as (p & Ep & E4). apply getitem_0 in Ep.
    injection E4 as <-. simpl. right. exists p.
    destruct (active_players s3) as [|x [|y l]] eqn:Hring; simpl in Hone; try lia.
    simpl in Ep. injection Ep as ->. split; [done|]. split; [done|].
    assert (p ∈ filter (fun p => hand_size_of s2 p ≠ 0%Z) (active_players s2)) as Hin.
    { rewrite <- Hact3. set_solver. }
    apply list_elem_of_filter in Hin as [Hne _].
    unfold hand_size_of, Player.hand_size in Hne. rewrite Hh3.
    destruct (_hand (heap s2 p)); [done|done].
  - destruct (_ >=? _)%Z eqn:Hge.
    + exfalso. unfold MIN_PLAYERS in Hge. lia.
    + injection E4 as <-. left. split; [|congruence].
      destruct (active_players s3) as [|x [|y l]]; simpl in *; try done; lia.
Qed.

(** Whom [set_first_attacker] puts first: when some player holds a trump of
    a value up to [ACE], the new head of the ring bears the name of a player
    whose lowest trump no trump of the ring undercuts. *)
Lemma set_first_attacker_head s s' p v :
  set_first_attacker s = Ok s' →
  p ∈ active_players s → Player.get_lowest_trump (heap s p) = Some v → (v ≤ ACE)%Z →
  ∃ a p0 v0, active_players s' !! 0 = Some a
    ∧ name (heap s a) = name (heap s p0)
    ∧ p0 ∈ active_players s
    ∧ Player.get_lowest_trump (heap s p0) = Some v0
    ∧ ∀ q w, q ∈ active_players s → Player.get_lowest_trump (heap s q) = Some w →
        (v0 ≤ w)%Z.
Proof.
  unfold set_first_attacker. intros E Hp Hv Hace.
  apply bind_Ok in E as (found & Hloop & E).
  destruct (first_attacker_loop_spec _ _ _ _ Hloop) as (_ & _ & Hmin & Hfound).
  pose proof (Hmin p v Hp Hv) as Hle.
  destruct Hfound as [->|(p0 & Hp0 & Hlow & Hname & _)]; [simpl in Hle; lia|].
  rewrite Hname in E.
  apply rotate_to_spec in E as (_ & _ & _ & a & Ha & Hn).
  exists a, p0, found.1. done.
Qed.

(** [set_first_attacker] raises [TypeError] when a player of the ring holds
    no trump card.  When every player of the ring holds one, it returns: it
    turns the ring and changes nothing else, and if one of the lowest trumps
    is a value up to [ACE], the new head of the ring bears the name of a
    player whose lowest trump no trump of the ring undercuts. *)
Theorem set_first_attacker_turns_ring s :
  ((∃ p, p ∈ active_players s ∧ Player.get_lowest_trump (heap s p) = None) →
   set_first_attacker s = Raise TypeError)
  ∧ ((∀ p, p ∈ active_players s → Player.get_lowest_trump (heap s p) ≠ None) →
     ∃ s', set_first_attacker s = Ok s'
       ∧ active_players s' ≡ₚ active_players s
       ∧ s' = set_active_players (active_players s') s
       ∧ ∀ p v, p ∈ active_players s →
           Player.get_lowest_trump (heap s p) = Some v → (v ≤ ACE)%Z →
           ∃ a p0 v0, active_players s' !! 0 = Some a
             ∧ name (heap s a) = name (heap s p0)
             ∧ p0 ∈ active_players s
             ∧ Player.get_lowest_trump (heap s p0) = Some v0
             ∧ ∀ q w, q ∈ active_players s →
                 Player.get_lowest_trump (heap s q) = Some w → (v0 ≤ w)%Z).
Proof.
  split; [apply set_first_attacker_TypeError|].
  intros Hall. destruct (set_first_attacker_returns s Hall) as [s' E]. exists s'.
  split; [done|]. split; [by apply set_first_attacker_Permutation|].
  split; [by apply set_first_attacker_spec in E as (? & _)|].
  intros p v. by apply set_first_attacker_head.
Qed.

End Refills.

Lemma set_first_attacker_turns_ring_witness :
  @set_first_attacker Deck36.consts Game36.dealt7 = Raise TypeError.
Proof.
  apply (proj1 (@set_first_attacker_turns_ring Deck36.consts Game36.dealt7)).
  exists 6. split.
  - apply (bool_decide_unpack _). vm_compute. exact I.
  - vm_compute. reflexivity.
Defined.

Lemma resolution_names_loser_witness :
  (active_players Game36.resolved_last = []
   ∧ loser Game36.resolved_last = loser Game36.last_round)
  ∨ (∃ p, active_players Game36.resolved_last = [p]
       ∧ loser Game36.resolved_last = Some p
       ∧ _hand (heap Game36.resolved_last p) ≠ []).
Proof.
  apply (resolution_names_loser Game36.last_round Game36.resolved_last).
  - vm_compute. reflexivity.
  - vm_compute. reflexivity.
Defined.

(** ** Further properties of the players *)

Lemma list_remove_spec `{EqDecision A} (l : list A) (x : A) :
  (x ∈ l → ∃ l1 l2, l = l1 ++ x :: l2 ∧ (x ∉ l1) ∧ list_remove l x = Ok (l1 ++ l2))
  ∧ (x ∉ l → list_remove l x = Raise ValueError).
Proof.
  induction l as [|y l [IHin IHout]]; split.
  - by intros ?%elem_of_nil.
  - done.
  - intros Hin. simpl. destruct (decide (y = x)) as [->|Hne].
    + exists [], l. split; [done|]. split; [apply not_elem_of_nil|done].
    + apply elem_of_cons in Hin as [->|Hin]; [done|].
      destruct (IHin Hin) as (l1 & l2 & -> & Hx & ->).
      exists (y :: l1), l2. split; [done|]. split; [|done].
      apply not_elem_of_cons. split; [congruence|done].
  - intros [Hne Hout]%not_elem_of_cons. simpl.
    rewrite decide_False by congruence. by rewrite (IHout Hout).
Qed.

Section Players.
Context `{DeckConsts}.

(** What the policies do with the card they play.  If the player holds the
    card, its first occurrence leaves the hand, the hand is one card shorter
    and nothing else changes; if not, [list.remove] raises [ValueError].
    [NO_CARD] leaves the hand as it is. *)
Theorem played_card_leaves_hand p card s :
  (card ≠ NO_CARD → card ∈ _hand (heap s p) →
   ∃ s1 h1 h2, remove_played p card s = Ok s1
     ∧ _hand (heap s p) = h1 ++ card :: h2 ∧ (card ∉ h1)
     ∧ _hand (heap s1 p) = h1 ++ h2
     ∧ hand_size_of s1 p = (hand_size_of s p - 1)%Z
     ∧ (∀ q, q ≠ p → heap s1 q = heap s q)
     ∧ hands_changed s s1)
  ∧ (card ≠ NO_CARD → (card ∉ _hand (heap s p)) →
     remove_played p card s = Raise ValueError)
  ∧ (card = NO_CARD → remove_played p card s = Ok s).
Proof.
  unfold remove_played. split_and!.
  - intros Hreal Hin. rewrite decide_True by done.
    destruct (proj1 (list_remove_spec _ _) Hin) as (h1 & h2 & Eh & Hh1 & ->).
    simpl. eexists _, h1, h2. split; [done|]. split; [done|]. split; [done|].
    split_and!.
    + by rewrite heap_on_player, decide_True.
    + unfold hand_size_of, Player.hand_size.
      rewrite heap_on_player, decide_True by done. simpl.
      rewrite Eh, !length_app. simpl. lia.
    + intros q Hq. by rewrite heap_on_player, decide_False.
    + eexists. split; [done|]. intros q.
      destruct (decide (p = q)) as [->|Hne].
      * by rewrite fn_lookup_insert.
      * by rewrite fn_lookup_insert_ne.
  - intros Hreal Hout. rewrite decide_True by done.
    by rewrite (proj2 (list_remove_spec _ _) Hout).
  - intros ->. by rewrite decide_False by (by intros ?).
Qed.

(** One turn of the loop of [get_lowest_trump]. *)
Lemma lowest_trump_step_spec t acc (value series : Z) :
  match Player.lowest_trump_step (Some t) acc (value, series) with
  | None => acc = None ∧ series ≠ t
  | Some v =>
      (acc = Some v ∨ (v = value ∧ series = t))
      ∧ (∀ m, acc = Some m → (v ≤ m)%Z)
      ∧ (series = t → (v ≤ value)%Z)
  end.
Proof.
  unfold Player.lowest_trump_step.
  destruct (decide (Some series = Some t)) as [[= ->]|Hne].
  - destruct acc as [m|].
    + destruct (Z.ltb_spec value m).
      * split; [by right|]. split; [intros ? [= <-]; lia|lia].
      * split; [by left|]. split; [intros ? [= <-]; lia|lia].
    + split; [by right|]. split; [done|lia].
  - destruct acc as [m|].
    + split; [by left|]. split; [intros ? [= <-]; lia|]. intros ->. done.
    + split; [done|]. congruence.
Qed.

(** The fold of [get_lowest_trump], from any running minimum. *)
Lemma lowest_trump_fold t (l : list CardType) : ∀ acc,
  match foldl (Player.lowest_trump_step (Some t)) acc l with
  | None => acc = None ∧ ∀ c, c ∈ l → c.2 ≠ t
  | Some v =>
      (acc = Some v ∨ (v, t) ∈ l)
      ∧ (∀ m, acc = Some m → (v ≤ m)%Z)
      ∧ ∀ w, (w, t) ∈ l → (v ≤ w)%Z
  end.
Proof.
  induction l as [|[value series] l IH]; intros acc; cbn [foldl].
  - destruct acc as [m|].
    + split; [by left|]. split; [by intros ? [= ->]|]. by intros w ?%elem_of_nil.
    + split; [done|]. by intros c ?%elem_of_nil.
  - specialize (IH (Player.lowest_trump_step (Some t) acc (value, series))).
    pose proof (lowest_trump_step_spec t acc value series) as Hstep.
    destruct (Player.lowest_trump_step (Some t) acc (value, series)) as [a1|].
    + destruct Hstep as (Ha1 & Hacc1 & Hval).
      destruct (foldl _ _ l) as [v|].
      * destruct IH as (Hv & Hle & Hl). specialize (Hle _ eq_refl).
        split_and!.
        -- destruct Hv as [[= <-]|Hv]; [|right; set_solver].
           destruct Ha1 as [?|[-> ->]]; [by left|right; set_solver].
        -- intros m Hm. specialize (Hacc1 _ Hm). lia.
        -- intros w [[= -> ->]|?]%elem_of_cons; [|by apply Hl].
           specialize (Hval eq_refl). lia.
      * by destruct IH.
    + destruct Hstep as [-> Hne].
      destruct (foldl _ _ l) as [v|].
      * destruct IH as (Hv & _ & Hl). split_and!.
        -- destruct Hv as [?|?]; [done|right; set_solver].
        -- done.
        -- intros w [[= -> ->]|?]%elem_of_cons; [done|by apply Hl].
      * destruct IH as [_ Hl]. split; [done|].
        intros c [->|?]%elem_of_cons; [done|by apply Hl].
Qed.

(** [get_lowest_trump] of a player who knows the trump suit: no value
    ([Deck.NO_CARD] in the code) exactly when the hand holds no trump;
    otherwise the value of a trump of the hand that no trump of the hand
    undercuts. *)
Theorem get_lowest_trump_is_least p t :
  _trump_rank p = Some t →
  match Player.get_lowest_trump p with
  | None => ∀ c, c ∈ _hand p → c.2 ≠ t
  | Some v => (v, t) ∈ _hand p ∧ ∀ w, (w, t) ∈ _hand p → (v ≤ w)%Z
  end.
Proof.
  intros Ht. unfold Player.get_lowest_trump. rewrite Ht.
  pose proof (lowest_trump_fold t (_hand p) None) as Hfold.
  destruct (foldl _ _ _) as [v|].
  - destruct Hfold as ([?|?] & _ & ?); done.
  - by destruct Hfold.
Qed.

(** The four counters of [is_starting_hand_legal] never go down and add up
    to the number of cards counted. *)
Lemma count_suits_step_total (h : list CardType) : ∀ a b c d,
  let '(a', b', c', d') := foldl Player.count_suits_step (a, b, c, d) h in
  (a ≤ a' ∧ b ≤ b' ∧ c ≤ c' ∧ d ≤ d'
   ∧ a' + b' + c' + d' = a + b + c + d + Z.of_nat (length h))%Z.
Proof.
  induction h as [|x h IH]; intros a b c d; cbn [foldl].
  - simpl. lia.
  - unfold Player.count_suits_step at 2.
    repeat destruct (decide _);
      match goal with
      | |- context [foldl _ (?a1, ?b1, ?c1, ?d1) h] =>
          specialize (IH a1 b1 c1 d1); destruct (foldl _ _ h) as [[[a' b'] c'] d']
      end; cbn [length]; lia.
Qed.

(** A hand that is at least two cards short of the initial hand size
    passes [is_starting_hand_legal] whatever its cards: so does the empty
    hand a used-up deck deals. *)
Theorem short_hand_is_legal p :
  (Z.of_nat (length (_hand p)) < initial_hand_size p - 1)%Z →
  Player.is_starting_hand_legal p = true.
Proof.
  intros Hshort. unfold Player.is_starting_hand_legal, Player.count_suits.
  pose proof (count_suits_step_total (_hand p) 0 0 0 0) as Hc.
  destruct (foldl _ _ _) as [[[a b] c] d].
  rewrite !bool_decide_eq_false_2; [done|lia|lia|].
  set_unfold. lia.
Qed.

End Players.

Lemma get_lowest_trump_is_least_witness :
  match Player.get_lowest_trump (heap Game36.start 0) with
  | None => ∀ c, c ∈ _hand (heap Game36.start 0) → c.2 ≠ Deck36.hearts
  | Some v => (v, Deck36.hearts) ∈ _hand (heap Game36.start 0)
              ∧ ∀ w, (w, Deck36.hearts) ∈ _hand (heap Game36.start 0) → (v ≤ w)%Z
  end.
Proof.
  apply (get_lowest_trump_is_least (heap Game36.start 0) Deck36.hearts).
  vm_compute. reflexivity.
Defined.

Lemma short_hand_is_legal_witness :
  @Player.is_starting_hand_legal Deck36.consts (heap Game36.dealt7 6) = true.
Proof.
  apply (@short_hand_is_legal Deck36.consts (heap Game36.dealt7 6)).
  vm_compute. reflexivity.
Defined.

(** ** The deal keeps the cards *)

Section DealtCards.
Context `{DeckConsts}.

Lemma concat_dealt_hands (d : list CardType) (n : nat) :
  concat (dealt_hand d <$> seq 0 n) = take (n * Z.to_nat HAND_SIZE) d.
Proof.
  induction n as [|n IH]; [done|].
  rewrite seq_S, fmap_app, concat_app, IH. simpl. rewrite app_nil_r.
  unfold dealt_hand. rewrite take_take_drop. f_equal.
  change (Z.to_nat HAND_SIZE) with 6. lia.
Qed.

(** When the loop of [initialize_players] stops, the hands of the ring, in
    the order of the ring, followed by the deck are the shuffle of the last
    turn of the loop: no card is lost and none is dealt twice. *)
Theorem deal_conserves_cards shuffles s s' :
  NoDup (active_players s) →
  initialize_players shuffles s = Ok s' →
  ∃ d, d ∈ shuffles
    ∧ concat ((fun p => _hand (heap s' p)) <$> active_players s) ++ deck s' = d.
Proof.
  intros Hnd E.
  apply initialize_players_Ok in E
    as (before & d & after & -> & _ & Hserved & Hdeck & _); [|done].
  exists d. split; [set_solver|].
  assert ((fun p => _hand (heap s' p)) <$> active_players s
          = dealt_hand d <$> seq 0 (length (active_players s))) as ->.
  { apply list_eq. intros i. rewrite !list_lookup_fmap.
    destruct (active_players s !! i) as [p|] eqn:Hp; simpl.
    - destruct (Hserved i p Hp) as [-> _].
      apply lookup_lt_Some in Hp. by rewrite lookup_seq_lt.
    - apply lookup_ge_None in Hp. by rewrite lookup_seq_ge. }
  by rewrite concat_dealt_hands, Hdeck, take_drop.
Qed.

End DealtCards.

Lemma deal_conserves_cards_witness :
  ∃ d, d ∈ [Deck36.by_value]
    ∧ concat ((fun p => _hand (heap Game36.dealt1 p))
                <$> active_players (@reset_fields Deck36.consts Game36.e1 [0]))
      ++ deck Game36.dealt1 = d.
Proof.
  apply (@deal_conserves_cards Deck36.consts [Deck36.by_value]
           (@reset_fields Deck36.consts Game36.e1 [0]) Game36.dealt1).
  - exact (bool_decide_unpack (NoDup [0]) I).
  - vm_compute. reflexivity.
Defined.

(** ** BasePlayer *)

Lemma weaker_trans t (a b c : CardType) : weaker t a b → weaker t b c → weaker t a c.
Proof.
  unfold weaker.
  destruct (decide (a.2 = t)), (decide (b.2 = t)), (decide (c.2 = t));
    intros [[? ?]|[? ?]] [[? ?]|[? ?]]; try tauto; right; split; (tauto || lia).
Qed.

Lemma weaker_refl t (a : CardType) : weaker t a a.
Proof. right. split; [tauto|lia]. Qed.

Section BasePlayer.
Context `{DeckConsts}.

(** One turn of the loop keeps the weaker of the two cards, the one it had
    if they are equally strong. *)
Lemma basic_play_step_spec t (a b : CardType) :
  let r := basic_play_step (Some t) a b in
  (r = a ∨ r = b) ∧ weaker t r a ∧ weaker t r b.
Proof.
  unfold basic_play_step, weaker. destruct a as [va ra], b as [vb rb]. simpl.
  destruct (decide (ra = t)) as [Ha|Ha], (decide (rb = t)) as [Hb|Hb].
  - rewrite bool_decide_eq_false_2 by (subst; set_solver).
    rewrite !bool_decide_eq_true_2 by congruence. simpl.
    destruct (Z.ltb_spec vb va); simpl; (split; [tauto|]); split; right;
      split; (tauto || lia).
  - rewrite bool_decide_eq_false_2 by (subst; set_solver).
    rewrite (bool_decide_eq_false_2 (Some rb = Some t)) by congruence. simpl.
    rewrite bool_decide_eq_true_2 by congruence. simpl.
    split; [tauto|]. split; [left; tauto|right; split; (tauto || lia)].
  - rewrite bool_decide_eq_false_2 by (subst; set_solver).
    rewrite (bool_decide_eq_true_2 (Some rb = Some t)) by congruence.
    rewrite !(bool_decide_eq_false_2 (Some ra = Some t)) by congruence. simpl.
    split; [tauto|]. split; [right; split; (tauto || lia)|left; tauto].
  - rewrite bool_decide_eq_true_2.
    2:{ rewrite !not_elem_of_cons. split_and!; [congruence|congruence|].
        apply not_elem_of_nil. }
    simpl. destruct (Z.ltb_spec vb va); simpl; (split; [tauto|]); split; right;
      split; (tauto || lia).
Qed.

Lemma basic_play_fold t (l : list CardType) : ∀ a,
  let r := foldl (basic_play_step (Some t)) a l in
  r ∈ a :: l ∧ ∀ x, x ∈ a :: l → weaker t r x.
Proof.
  induction l as [|b l IH]; intros a; cbn [foldl].
  - split; [set_solver|]. intros x ->%list_elem_of_singleton. apply weaker_refl.
  - destruct (IH (basic_play_step (Some t) a b)) as [Hin Hweak].
    destruct (basic_play_step_spec t a b) as (Hor & Ha & Hb).
    set (r1 := basic_play_step (Some t) a b) in *. split.
    + apply elem_of_cons in Hin as [->|Hin]; [|set_solver].
      destruct Hor as [->| ->]; set_solver.
    + intros x [->|[->|Hx]%elem_of_cons]%elem_of_cons.
      * eapply weaker_trans; [|exact Ha]. apply Hweak. set_solver.
      * eapply weaker_trans; [|exact Hb]. apply Hweak. set_solver.
      * apply Hweak. set_solver.
Qed.

(** [BasePlayer.__do_basic_play].  The first entry of the list is never
    looked at.  An empty list raises [IndexError]; a list of one entry gives
    [NO_CARD] and leaves the hand alone.  From two entries on, the card
    chosen is one of the entries after the first, and none of these is
    weaker: it is no trump if one of them is no trump, and no card of its
    kind has a smaller value.  The card leaves the hand, by its first
    occurrence; if the hand does not hold it, [ValueError] is raised. *)
Theorem basic_play_chooses_weakest p :
  do_basic_play p [] = Raise IndexError
  ∧ (∀ x, do_basic_play p [x] = Ok (p, NO_CARD))
  ∧ (∀ t first second rest,
       _trump_rank p = Some t →
       ∃ c, c ∈ second :: rest
         ∧ (∀ x, x ∈ second :: rest → weaker t c x)
         ∧ (c ∈ _hand p →
            ∃ h1 h2, _hand p = h1 ++ c :: h2 ∧ (c ∉ h1)
              ∧ do_basic_play p (first :: second :: rest)
                = Ok (with_hand p (h1 ++ h2), c))
         ∧ ((c ∉ _hand p) →
            do_basic_play p (first :: second :: rest) = Raise ValueError)).
Proof.
  split; [done|]. split; [done|].
  intros t first second rest Ht.
  destruct (basic_play_fold t rest second) as [Hin Hweak].
  exists (foldl (basic_play_step (Some t)) second rest).
  split; [done|]. split; [done|].
  unfold do_basic_play. rewrite bool_decide_eq_false_2 by (simpl; lia).
  rewrite (proj2 (getitem_1 _ second)) by done. simpl. rewrite Ht, drop_0.
  split.
  - intros Hhand.
    destruct (proj1 (list_remove_spec _ _) Hhand) as (h1 & h2 & Eh & Hh1 & ->).
    by exists h1, h2.
  - intros Hout. by rewrite (proj2 (list_remove_spec _ _) Hout).
Qed.

End BasePlayer.

Lemma basic_play_chooses_weakest_witness :
  let p := heap Game36.start 0 in
  ∃ c, c ∈ [(8, Deck36.hearts); (10, Deck36.spades); (8, Deck36.spades)]%Z
    ∧ (∀ x, x ∈ [(8, Deck36.hearts); (10, Deck36.spades); (8, Deck36.spades)]%Z →
            weaker Deck36.hearts c x)
    ∧ (c ∈ _hand p →
       ∃ h1 h2, _hand p = h1 ++ c :: h2 ∧ (c ∉ h1)
         ∧ @do_basic_play Deck36.consts p
             [Deck36.no_card; (8, Deck36.hearts); (10, Deck36.spades);
              (8, Deck36.spades)]%Z
           = Ok (with_hand p (h1 ++ h2), c))
    ∧ ((c ∉ _hand p) →
       @do_basic_play Deck36.consts p
         [Deck36.no_card; (8, Deck36.hearts); (10, Deck36.spades);
          (8, Deck36.spades)]%Z
       = Raise ValueError).
Proof.
  apply (proj2 (proj2 (@basic_play_chooses_weakest Deck36.consts (heap Game36.start 0)))).
  vm_compute. reflexivity.
Defined.

(** ** DurakPlayerWithMemory *)

Lemma memory_init_lookup (names : list string) (name : string) :
  Memory.other_players_hand (Memory.init names) !! name
  = if decide (name ∈ names) then Some ∅ else None.
Proof.
  unfold Memory.init. simpl.
  assert (∀ hands : gmap string (gset CardType),
            foldl (fun hands player => <[player := ∅]> hands) hands names !! name
            = if decide (name ∈ names) then Some ∅ else hands !! name) as Hfold.
  { induction names as [|n names IH]; intros hands; simpl.
    - destruct (decide (name ∈ [])) as [Hin|]; [|done]. by apply elem_of_nil in Hin.
    - rewrite IH. destruct (decide (name ∈ names)) as [Hin|Hout].
      + rewrite decide_True by set_solver. done.
      + destruct (decide (name = n)) as [->|Hne].
        * rewrite decide_True by set_solver. by rewrite lookup_insert_eq.
        * rewrite decide_False by set_solver. by rewrite lookup_insert_ne. }
  rewrite Hfold. by destruct (decide _).
Qed.

(** A fresh memory knows the players it was given, each with an empty
    hand, and nobody else: [add_cards_to] and [remove_cards_from] return for
    the names listed and raise their exception for any other name. *)
Theorem memory_knows_listed_players (names : list string) (name : string)
    (cards : gset CardType) :
  Memory.discard_pile (Memory.init names) = ∅
  ∧ (name ∈ names →
     ∃ m1 m2,
       Memory.add_cards_to (Memory.init names) name cards = Memory.Returns m1
       ∧ Memory.other_players_hand m1 !! name = Some cards
       ∧ Memory.remove_cards_from (Memory.init names) name cards = Memory.Returns m2
       ∧ Memory.other_players_hand m2 !! name = Some ∅
       ∧ Memory.discard_pile m2 = cards)
  ∧ ((name ∉ names) →
     Memory.add_cards_to (Memory.init names) name cards
     = Memory.Exception "This player doesn't exist"
     ∧ Memory.remove_cards_from (Memory.init names) name cards
       = Memory.Exception "This player doesn't exist").
Proof.
  split; [done|]. split.
  - intros Hin. unfold Memory.add_cards_to, Memory.remove_cards_from.
    rewrite memory_init_lookup, decide_True by done.
    eexists _, _. split; [done|]. simpl. rewrite lookup_insert_eq.
    split; [by rewrite (left_id_L ∅ (∪))|]. split; [done|].
    simpl. rewrite lookup_insert_eq.
    split; [f_equal; apply set_eq; set_solver|apply set_eq; set_solver].
  - intros Hout. unfold Memory.add_cards_to, Memory.remove_cards_from.
    by rewrite memory_init_lookup, decide_False.
Qed.

(** [remove_cards_from] for a known player: the cards leave the hand
    remembered for the player and join the discard pile; no card of the hand
    vanishes, the other hands stay, and the names known stay.  Adding cards
    and removing the same cards does not give the hand back as it was: what
    was already remembered of these cards is gone as well. *)
Theorem remove_cards_from_discards (m : Memory.DurakPlayerWithMemory)
    (name : string) (cards held : gset CardType) :
  Memory.other_players_hand m !! name = Some held →
  ∃ m1 m2 m3,
    Memory.remove_cards_from m name cards = Memory.Returns m1
    ∧ Memory.other_players_hand m1 !! name = Some (held ∖ cards)
    ∧ Memory.discard_pile m1 = Memory.discard_pile m ∪ cards
    ∧ (∀ n, n ≠ name →
         Memory.other_players_hand m1 !! n = Memory.other_players_hand m !! n)
    ∧ dom (Memory.other_players_hand m1) = dom (Memory.other_players_hand m)
    ∧ held ⊆ (held ∖ cards) ∪ Memory.discard_pile m1
    ∧ Memory.add_cards_to m name cards = Memory.Returns m2
    ∧ Memory.other_players_hand m2 !! name = Some (held ∪ cards)
    ∧ Memory.discard_pile m2 = Memory.discard_pile m
    ∧ Memory.remove_cards_from m2 name cards = Memory.Returns m3
    ∧ Memory.other_players_hand m3 !! name = Some (held ∖ cards).
Proof.
  intros Hheld. unfold Memory.remove_cards_from at 1, Memory.add_cards_to.
  rewrite Hheld. eexists _, _, _. split; [done|]. simpl.
  rewrite lookup_insert_eq. split; [done|]. split; [done|]. split.
  { intros n Hne. by rewrite lookup_insert_ne. }
  split.
  { rewrite dom_insert_L. apply elem_of_dom_2 in Hheld. set_solver. }
  split.
  { intros c Hc. destruct (decide (c ∈ cards)); set_solver. }
  split; [done|]. simpl. rewrite lookup_insert_eq.
  split; [done|]. split; [done|].
  unfold Memory.remove_cards_from. simpl. rewrite lookup_insert_eq.
  split; [done|]. simpl. rewrite lookup_insert_eq. f_equal.
  apply set_eq. set_solver.
Qed.

Lemma memory_knows_listed_players_witness :
  ∃ m1 m2,
    Memory.add_cards_to (Memory.init ["B"; "C"]) "B" {[ (6, Deck36.clubs)%Z ]}
    = Memory.Returns m1
    ∧ Memory.other_players_hand m1 !! "B" = Some {[ (6, Deck36.clubs)%Z ]}
    ∧ Memory.remove_cards_from (Memory.init ["B"; "C"]) "B" {[ (6, Deck36.clubs)%Z ]}
      = Memory.Returns m2
    ∧ Memory.other_players_hand m2 !! "B" = Some ∅
    ∧ Memory.discard_pile m2 = {[ (6, Deck36.clubs)%Z ]}.
Proof.
  apply (proj1 (proj2 (memory_knows_listed_players ["B"; "C"] "B"
                         {[ (6, Deck36.clubs)%Z ]}))).
  apply (bool_decide_unpack _). vm_compute. exact I.
Defined.

Lemma remove_cards_from_discards_witness :
  let m := Memory.init ["B"; "C"] in
  let cards : gset CardType := {[ (6, Deck36.clubs)%Z ]} in
  ∃ m1 m2 m3,
    Memory.remove_cards_from m "B" cards = Memory.Returns m1
    ∧ Memory.other_players_hand m1 !! "B" = Some (∅ ∖ cards)
    ∧ Memory.discard_pile m1 = Memory.discard_pile m ∪ cards
    ∧ (∀ n, n ≠ "B" →
         Memory.other_players_hand m1 !! n = Memory.other_players_hand m !! n)
    ∧ dom (Memory.other_players_hand m1) = dom (Memory.other_players_hand m)
    ∧ ∅ ⊆ (∅ ∖ cards) ∪ Memory.discard_pile m1
    ∧ Memory.add_cards_to m "B" cards = Memory.Returns m2
    ∧ Memory.other_players_hand m2 !! "B" = Some (∅ ∪ cards)
    ∧ Memory.discard_pile m2 = Memory.discard_pile m
    ∧ Memory.remove_cards_from m2 "B" cards = Memory.Returns m3
    ∧ Memory.other_players_hand m3 !! "B" = Some (∅ ∖ cards).
Proof.
  apply (remove_cards_from_discards (Memory.init ["B"; "C"]) "B"
           {[ (6, Deck36.clubs)%Z ]} ∅).
  rewrite memory_init_lookup. reflexivity.
Defined.

(** ** get_weakest_card and get_strongest_card *)

Lemma StronglySorted_lookup {A} (R : A → A → Prop) (l : list A) :
  StronglySorted R l →
  ∀ i j x y, i < j → l !! i = Some x → l !! j = Some y → R x y.
Proof.
  induction 1 as [|a l Hsorted IH Hall]; intros i j x y Hlt Hi Hj; [done|].
  destruct j as [|j]; [lia|]. simpl in Hj. destruct i as [|i]; simpl in Hi.
  - injection Hi as <-. rewrite list.Forall_forall in Hall.
    apply Hall. by eapply list_elem_of_lookup_2.
  - apply (IH i j); [lia|done|done].
Qed.

Section Sorting.
Context {K : Type} (before : K → K → bool) (key : CardType → K).
Hypothesis before_asym : ∀ a b, before a b = true → before b a = false.
Hypothesis before_ntrans : ∀ a b c,
  before b a = false → before c b = false → before c a = false.

Lemma insert_by_Permutation x l : insert_by before key x l ≡ₚ x :: l.
Proof.
  induction l as [|y l IH]; [done|]. simpl.
  destruct (before (key y) (key x)); [|done].
  rewrite IH. apply Permutation_swap.
Qed.

Lemma sort_by_Permutation l : sort_by before key l ≡ₚ l.
Proof.
  unfold sort_by. induction l as [|x l IH]; [done|]. simpl.
  by rewrite insert_by_Permutation, IH.
Qed.

Lemma insert_by_sorted x l :
  StronglySorted (fun a b => before (key b) (key a) = false) l →
  StronglySorted (fun a b => before (key b) (key a) = false)
    (insert_by before key x l).
Proof.
  induction 1 as [|y l Hsorted IH Hall]; simpl.
  - repeat constructor.
  - destruct (before (key y) (key x)) eqn:Hyx.
    + constructor; [done|].
      rewrite insert_by_Permutation. constructor; [by apply before_asym|done].
    + constructor; [by constructor|]. constructor; [done|].
      rewrite list.Forall_forall in Hall. apply list.Forall_forall.
      intros z Hz. eapply before_ntrans; [exact Hyx|]. by apply Hall.
Qed.

(** The sort of the model: a permutation of the list, in which no entry
    sorts strictly before an earlier one. *)
Lemma sort_by_sorted l :
  StronglySorted (fun a b => before (key b) (key a) = false) (sort_by before key l).
Proof.
  unfold sort_by. induction l as [|x l IH]; simpl; [constructor|].
  by apply insert_by_sorted.
Qed.

End Sorting.

Section ChosenCards.
Context `{DeckConsts}.

(** The choice both methods make on their sorted list. *)
Lemma pick_sorted_spec p t sorted (rel : Z → Z → Prop) :
  _trump_rank p = Some t →
  (∀ a, rel a a) →
  (∃ x, x ∈ sorted ∧ x ≠ NO_CARD) →
  (∀ i j x y, i < j → sorted !! i = Some x → sorted !! j = Some y →
     y ≠ NO_CARD → x ≠ NO_CARD ∧ rel x.1 y.1) →
  ∃ c, c ∈ sorted ∧ c ≠ NO_CARD
    ∧ (∀ x, x ∈ sorted → x ≠ NO_CARD →
         (c.2 ≠ t ∧ x.2 = t) ∨ ((c.2 = t ↔ x.2 = t) ∧ rel c.1 x.1))
    ∧ pick_sorted p sorted
      = (h ← list_remove (_hand p) c; Ok (with_hand p h, c)).
Proof.
  intros Ht Hrefl (x0 & Hx0 & Hreal0) Hsorted.
  destruct sorted as [|first rest] eqn:Hs; [by apply elem_of_nil in Hx0|].
  rewrite <- Hs in *.
  assert (sorted !! 0 = Some first) as Hfirst by (by rewrite Hs).
  assert (first ≠ NO_CARD) as Hfirst_real.
  { apply list_elem_of_lookup_1 in Hx0 as [j Hj]. destruct j as [|j].
    - congruence.
    - by destruct (Hsorted 0 (S j) first x0) as [? _]; [lia|..]. }
  unfold pick_sorted. rewrite (proj2 (getitem_0 _ first)) by done. simpl.
  rewrite decide_False by done. rewrite Ht.
  destruct (list_find _ sorted) as [[i c]|] eqn:Hfind.
  - apply list_find_Some in Hfind as (Hi & [Hc Hct] & Hmin).
    rewrite decide_False by done. exists c.
    split; [by eapply list_elem_of_lookup_2|]. split; [done|]. split; [|done].
    intros x Hx Hxreal. destruct (decide (x.2 = t)) as [Hxt|Hxt].
    + left. split; [congruence|done].
    + right. split; [split; intros ?; congruence|].
      apply list_elem_of_lookup_1 in Hx as [j Hj].
      destruct (decide (j < i)) as [Hlt|Hge].
      { exfalso. apply (Hmin j x Hj Hlt). split; [done|congruence]. }
      destruct (decide (j = i)) as [->|Hne].
      { assert (x = c) as -> by congruence. apply Hrefl. }
      by destruct (Hsorted i j c x) as [_ ?]; [lia|..].
  - apply list_find_None in Hfind. rewrite list.Forall_forall in Hfind.
    rewrite decide_True by done. exists first.
    split; [by eapply list_elem_of_lookup_2|]. split; [done|]. split; [|done].
    assert (∀ x, x ∈ sorted → x ≠ NO_CARD → x.2 = t) as Htrump.
    { intros x Hx Hxreal. destruct (decide (x.2 = t)) as [|Hxt]; [done|].
      exfalso. apply (Hfind x Hx). split; [done|congruence]. }
    intros x Hx Hxreal. right. split.
    { split; intros _; apply Htrump; try done. by eapply list_elem_of_lookup_2. }
    apply list_elem_of_lookup_1 in Hx as [j Hj]. destruct j as [|j].
    + assert (x = first) as -> by congruence. apply Hrefl.
    + by destruct (Hsorted 0 (S j) first x) as [_ ?]; [lia|..].
Qed.

Lemma weakest_before_asym a b :
  weakest_before a b = true → weakest_before b a = false.
Proof. destruct a, b; simpl; try done. lia. Qed.

Lemma weakest_before_ntrans a b c :
  weakest_before b a = false → weakest_before c b = false →
  weakest_before c a = false.
Proof. destruct a, b, c; simpl; try done. lia. Qed.

Lemma strongest_before_asym a b :
  strongest_before a b = true → strongest_before b a = false.
Proof. unfold strongest_before. lia. Qed.

Lemma strongest_before_ntrans a b c :
  strongest_before b a = false → strongest_before c b = false →
  strongest_before c a = false.
Proof. unfold strongest_before. lia. Qed.

(** A list that is a permutation of a list of copies of one card is that
    list. *)
Lemma Permutation_all_equal (c : CardType) (l l' : list CardType) :
  (∀ x, x ∈ l → x = c) → l' ≡ₚ l → l' = l.
Proof.
  intros Hall Hperm.
  assert (∀ k : list CardType, (∀ x, x ∈ k → x = c) → k = replicate (length k) c)
    as Hrep.
  { induction k as [|x k IH]; intros Hk; [done|]. simpl.
    rewrite (Hk x) by set_solver. f_equal. apply IH. intros y Hy. apply Hk. set_solver. }
  rewrite (Hrep l Hall), (Hrep l').
  - by rewrite (Permutation_length Hperm).
  - intros x Hx. apply Hall. by rewrite <- Hperm.
Qed.

(** The list [get_weakest_card] leaves to its caller is in the order of its
    keys: the cards before [NO_CARD], the cards by ascending value. *)
Lemma sort_by_weakest_sorted legal :
  ∀ i j x y, i < j →
    sort_by weakest_before weakest_key legal !! i = Some x →
    sort_by weakest_before weakest_key legal !! j = Some y →
    y ≠ NO_CARD → x ≠ NO_CARD ∧ (x.1 ≤ y.1)%Z.
Proof.
  intros i j x y Hlt Hi Hj Hy.
  pose proof (sort_by_sorted weakest_before weakest_key
                weakest_before_asym weakest_before_ntrans legal) as Hsorted.
  pose proof (StronglySorted_lookup _ _ Hsorted i j x y Hlt Hi Hj) as Hxy.
  unfold weakest_key in Hxy. simpl in Hxy.
  rewrite (decide_True (P := y ≠ NO_CARD)) in Hxy by done.
  destruct (decide (x ≠ NO_CARD)); simpl in Hxy; [|done]. split; [done|lia].
Qed.

(** The list [get_strongest_card] leaves to its caller is in the descending
    order of its keys. *)
Lemma sort_by_strongest_sorted legal :
  ∀ i j x y, i < j →
    sort_by strongest_before strongest_key legal !! i = Some x →
    sort_by strongest_before strongest_key legal !! j = Some y →
    (strongest_key y ≤ strongest_key x)%Z.
Proof.
  intros i j x y Hlt Hi Hj.
  pose proof (sort_by_sorted strongest_before strongest_key
                strongest_before_asym strongest_before_ntrans legal) as Hsorted.
  pose proof (StronglySorted_lookup _ _ Hsorted i j x y Hlt Hi Hj) as Hxy.
  unfold strongest_before in Hxy. simpl in Hxy. lia.
Qed.

(** [get_weakest_card] leaves the list of its caller sorted: a permutation
    of the list in which the cards come before the [NO_CARD] entries and the
    values of the cards ascend.  When the list holds a card other than
    [NO_CARD], the card chosen is such a card of the list and none of them
    is weaker: it is no trump if one of them is no trump, and no card of its
    kind in the list has a smaller value.  Its first occurrence leaves the
    hand, or [ValueError] is raised if the hand does not hold it.  When the
    list is empty or holds [NO_CARD] only, the list is as it was, [NO_CARD]
    is returned and the hand stays. *)
Theorem get_weakest_card_chooses p t legal :
  _trump_rank p = Some t →
  ∃ sorted,
    sorted ≡ₚ legal
    ∧ (∀ i j x y, i < j → sorted !! i = Some x → sorted !! j = Some y →
         y ≠ NO_CARD → x ≠ NO_CARD ∧ (x.1 ≤ y.1)%Z)
    ∧ ((∃ x, x ∈ legal ∧ x ≠ NO_CARD) →
       ∃ c, c ∈ legal ∧ c ≠ NO_CARD
         ∧ (∀ x, x ∈ legal → x ≠ NO_CARD → weaker t c x)
         ∧ (c ∈ _hand p →
            ∃ h1 h2, _hand p = h1 ++ c :: h2 ∧ (c ∉ h1)
              ∧ get_weakest_card p legal = Ok (with_hand p (h1 ++ h2), c, sorted))
         ∧ ((c ∉ _hand p) → get_weakest_card p legal = Raise ValueError))
    ∧ ((∀ x, x ∈ legal → x = NO_CARD) →
       sorted = legal ∧ get_weakest_card p legal = Ok (p, NO_CARD, sorted)).
Proof.
  intros Ht.
  pose proof (sort_by_Permutation weakest_before weakest_key legal) as Hperm.
  pose proof (sort_by_weakest_sorted legal) as Hsorted.
  set (sorted := sort_by weakest_before weakest_key legal) in *.
  exists sorted. split; [done|]. split; [done|]. split.
  - intros (x0 & Hx0 & Hreal0).
    destruct (pick_sorted_spec p t sorted Z.le Ht) as (c & Hc & Hcreal & Hweak & Hpick).
    + intros a. lia.
    + exists x0. by rewrite Hperm.
    + done.
    + exists c. rewrite Hperm in Hc. split; [done|]. split; [done|]. split.
      { intros x Hx Hxreal. apply Hweak; [by rewrite Hperm|done]. }
      assert (length legal ≠ 0) as Hlen.
      { destruct legal; [by apply elem_of_nil in Hx0|done]. }
      unfold get_weakest_card. rewrite bool_decide_eq_false_2 by done.
      fold sorted. rewrite Hpick. split.
      * intros Hhand.
        destruct (proj1 (list_remove_spec _ _) Hhand) as (h1 & h2 & Eh & Hh1 & ->).
        by exists h1, h2.
      * intros Hout. by rewrite (proj2 (list_remove_spec _ _) Hout).
  - intros Hnone.
    assert (sorted = legal) as Heq by (by apply (Permutation_all_equal NO_CARD)).
    split; [done|].
    unfold get_weakest_card. case_bool_decide as Hlen.
    + by rewrite Heq.
    + fold sorted. unfold pick_sorted.
      destruct sorted as [|first rest] eqn:Hs.
      { apply Permutation_nil_l in Hperm. by subst legal. }
      rewrite (proj2 (getitem_0 _ first)) by done. simpl.
      rewrite decide_True; [done|]. apply Hnone. rewrite <- Hperm. set_solver.
Qed.

(** [get_strongest_card], on a list whose cards have positive values, leaves
    the list of its caller sorted: a permutation of the list in the
    descending order of the keys, the key of a card being its value and the
    key of [NO_CARD] 0.  When the list holds a card other than [NO_CARD],
    the card chosen is such a card of the list; it is no trump if one of
    them is no trump, and no card of its kind in the list has a greater
    value.  Its first occurrence leaves the hand, or [ValueError] is raised.
    When the list is empty or holds [NO_CARD] only, the list is as it was,
    [NO_CARD] is returned and the hand stays. *)
Theorem get_strongest_card_chooses p t legal :
  _trump_rank p = Some t →
  (∀ x, x ∈ legal → x ≠ NO_CARD → (0 < x.1)%Z) →
  ∃ sorted,
    sorted ≡ₚ legal
    ∧ (∀ i j x y, i < j → sorted !! i = Some x → sorted !! j = Some y →
         (strongest_key y ≤ strongest_key x)%Z)
    ∧ ((∃ x, x ∈ legal ∧ x ≠ NO_CARD) →
       ∃ c, c ∈ legal ∧ c ≠ NO_CARD
         ∧ (∀ x, x ∈ legal → x ≠ NO_CARD →
              (c.2 ≠ t ∧ x.2 = t) ∨ ((c.2 = t ↔ x.2 = t) ∧ (x.1 ≤ c.1)%Z))
         ∧ (c ∈ _hand p →
            ∃ h1 h2, _hand p = h1 ++ c :: h2 ∧ (c ∉ h1)
              ∧ get_strongest_card p legal = Ok (with_hand p (h1 ++ h2), c, sorted))
         ∧ ((c ∉ _hand p) → get_strongest_card p legal = Raise ValueError))
    ∧ ((∀ x, x ∈ legal → x = NO_CARD) →
       sorted = legal ∧ get_strongest_card p legal = Ok (p, NO_CARD, sorted)).
Proof.
  intros Ht Hpos.
  pose proof (sort_by_Permutation strongest_before strongest_key legal) as Hperm.
  pose proof (sort_by_strongest_sorted legal) as Hsorted.
  set (sorted := sort_by strongest_before strongest_key legal) in *.
  exists sorted. split; [done|]. split; [done|]. split.
  - intros (x0 & Hx0 & Hreal0).
    destruct (pick_sorted_spec p t sorted (fun a b => (b ≤ a)%Z) Ht)
      as (c & Hc & Hcreal & Hweak & Hpick).
    + intros a. lia.
    + exists x0. by rewrite Hperm.
    + intros i j x y Hlt Hi Hj Hy.
      pose proof (Hsorted i j x y Hlt Hi Hj) as Hxy.
      unfold strongest_key in Hxy.
      rewrite (decide_False (P := y = NO_CARD)) in Hxy by done.
      assert (0 < y.1)%Z as Hypos.
      { apply Hpos; [|done]. rewrite <- Hperm. by eapply list_elem_of_lookup_2. }
      destruct (decide (x = NO_CARD)); [lia|]. split; [done|lia].
    + exists c. rewrite Hperm in Hc. split; [done|]. split; [done|]. split.
      { intros x Hx Hxreal. apply Hweak; [by rewrite Hperm|done]. }
      assert (length legal ≠ 0) as Hlen.
      { destruct legal; [by apply elem_of_nil in Hx0|done]. }
      unfold get_strongest_card. rewrite bool_decide_eq_false_2 by done.
      fold sorted. rewrite Hpick. split.
      * intros Hhand.
        destruct (proj1 (list_remove_spec _ _) Hhand) as (h1 & h2 & Eh & Hh1 & ->).
        by exists h1, h2.
      * intros Hout. by rewrite (proj2 (list_remove_spec _ _) Hout).
  - intros Hnone.
    assert (sorted = legal) as Heq by (by apply (Permutation_all_equal NO_CARD)).
    split; [done|].
    unfold get_strongest_card. case_bool_decide as Hlen.
    + by rewrite Heq.
    + fold sorted. unfold pick_sorted.
      destruct sorted as [|first rest] eqn:Hs.
      { apply Permutation_nil_l in Hperm. by subst legal. }
      rewrite (proj2 (getitem_0 _ first)) by done. simpl.
      rewrite decide_True; [done|]. apply Hnone. rewrite <- Hperm. set_solver.
Qed.

End ChosenCards.

Lemma get_weakest_card_chooses_witness :
  let p := heap Game36.start 0 in
  let t := Deck36.hearts in
  let legal := [Deck36.no_card; (8, Deck36.hearts); (10, Deck36.spades);
                (8, Deck36.spades)]%Z in
  ∃ sorted,
    sorted ≡ₚ legal
    ∧ (∀ i j x y, i < j → sorted !! i = Some x → sorted !! j = Some y →
         y ≠ Deck36.no_card → x ≠ Deck36.no_card ∧ (x.1 ≤ y.1)%Z)
    ∧ ((∃ x, x ∈ legal ∧ x ≠ Deck36.no_card) →
       ∃ c, c ∈ legal ∧ c ≠ Deck36.no_card
         ∧ (∀ x, x ∈ legal → x ≠ Deck36.no_card → weaker t c x)
         ∧ (c ∈ _hand p →
            ∃ h1 h2, _hand p = h1 ++ c :: h2 ∧ (c ∉ h1)
              ∧ @get_weakest_card Deck36.consts p legal
                = Ok (with_hand p (h1 ++ h2), c, sorted))
         ∧ ((c ∉ _hand p) →
            @get_weakest_card Deck36.consts p legal = Raise ValueError))
    ∧ ((∀ x, x ∈ legal → x = Deck36.no_card) →
       sorted = legal
       ∧ @get_weakest_card Deck36.consts p legal = Ok (p, Deck36.no_card, sorted)).
Proof.
  apply (@get_weakest_card_chooses Deck36.consts (heap Game36.start 0) Deck36.hearts).
  vm_compute. reflexivity.
Defined.

Lemma get_strongest_card_chooses_witness :
  let p := heap Game36.start 0 in
  let t := Deck36.hearts in
  let legal := [Deck36.no_card; (8, Deck36.hearts); (10, Deck36.spades);
                (8, Deck36.spades)]%Z in
  ∃ sorted,
    sorted ≡ₚ legal
    ∧ (∀ i j x y, i < j → sorted !! i = Some x → sorted !! j = Some y →
         (@strongest_key Deck36.consts y ≤ @strongest_key Deck36.consts x)%Z)
    ∧ ((∃ x, x ∈ legal ∧ x ≠ Deck36.no_card) →
       ∃ c, c ∈ legal ∧ c ≠ Deck36.no_card
         ∧ (∀ x, x ∈ legal → x ≠ Deck36.no_card →
              (c.2 ≠ t ∧ x.2 = t) ∨ ((c.2 = t ↔ x.2 = t) ∧ (x.1 ≤ c.1)%Z))
         ∧ (c ∈ _hand p →
            ∃ h1 h2, _hand p = h1 ++ c :: h2 ∧ (c ∉ h1)
              ∧ @get_strongest_card Deck36.consts p legal
                = Ok (with_hand p (h1 ++ h2), c, sorted))
         ∧ ((c ∉ _hand p) →
            @get_strongest_card Deck36.consts p legal = Raise ValueError))
    ∧ ((∀ x, x ∈ legal → x = Deck36.no_card) →
       sorted = legal
       ∧ @get_strongest_card Deck36.consts p legal = Ok (p, Deck36.no_card, sorted)).
Proof.
  apply (@get_strongest_card_chooses Deck36.consts (heap Game36.start 0) Deck36.hearts).
  - vm_compute. reflexivity.
  - intros x Hx Hreal.
    apply elem_of_cons in Hx as [->|Hx]; [done|].
    apply elem_of_cons in Hx as [->|Hx]; [reflexivity|].
    apply elem_of_cons in Hx as [->|Hx]; [reflexivity|].
    apply list_elem_of_singleton in Hx as ->. reflexivity.
Defined.

(** ** What a [step] leaves of the ring and of the deck *)

Section StepFrame.
Context `{DeckConsts}.

Lemma run_phase_frame s action m :
  run_phase s action = Ok m →
  active_players m = active_players s ∧ deck m = deck s
  ∧ players m = players s ∧ trump_suit m = trump_suit s.
Proof.
  unfold run_phase. simpl. destruct (attack_phase s).
  - destruct (decide (action = NO_CARD)) as [->|Hreal].
    + unfold do_attack_phase. simpl.
      rewrite decide_False by (by intros ?).
      intros E. apply bind_Ok in E as (lp & _ & E).
      destruct (decide _); [by injection E as <-|].
      apply bind_Ok in E as (i & _ & E). apply bind_Ok in E as (next & _ & E).
      apply bind_Ok in E as (d & _ & E).
      destruct (decide _); [|by injection E as <-].
      apply bind_Ok in E as (lp' & _ & E).
      destruct (decide _).
      * apply bind_Ok in E as (i' & _ & E). apply bind_Ok in E as (next' & _ & E).
        by injection E as <-.
      * apply bind_Ok in E as (i' & _ & E). apply bind_Ok in E as (prev & _ & E).
        by injection E as <-.
    + unfold do_attack_phase. simpl. rewrite decide_True by done.
      by intros [= <-].
  - unfold do_defence_phase. simpl. destruct (decide (action ≠ NO_CARD)).
    + intros [= <-]. by destruct (_ && _).
    + destruct (turn_player s); [|done]. by intros [= <-].
Qed.

Lemma resolve_round_frame s s' :
  resolve_round s = Ok s' →
  (∀ p, p ∈ active_players s' → p ∈ active_players s ∧ hand_size_of s' p ≠ 0%Z)
  ∧ length (active_players s') ≤ length (active_players s)
  ∧ (∃ k, deck s' = drop k (deck s))
  ∧ players s' = players s ∧ trump_suit s' = trump_suit s.
Proof.
  unfold resolve_round. intros E.
  apply bind_Ok in E as (s1 & E1 & E). apply update_end_round_players_spec in E1 as ->.
  apply bind_Ok in E as (s2 & E2 & E).
  destruct (update_players_hands_effect _ _ E2) as (_ & _ & k & Hk).
  apply update_players_hands_spec in E2 as [Eq2 _].
  assert (active_players s2 = active_players s ∧ players s2 = players s
          ∧ trump_suit s2 = trump_suit s) as (Hact2 & Hp2 & Ht2) by (by rewrite Eq2).
  clear Eq2.
  apply bind_Ok in E as (s3 & E3 & E). rewrite remove_winners_spec in E3.
  injection E3 as E3.
  assert (deck s3 = deck s2 ∧ heap s3 = heap s2 ∧ players s3 = players s2
          ∧ trump_suit s3 = trump_suit s2
          ∧ active_players s3
            = filter (fun p => hand_size_of s2 p ≠ 0%Z) (active_players s2))
    as (Hd3 & Hh3 & Hp3 & Ht3 & Hact3) by (by rewrite <- E3).
  clear E3.
  apply bind_Ok in E as (s4 & E4 & E).
  apply update_active_players_order_spec in E4 as (l & lo & E4 & Hlen4 & Hin4).
  assert (deck s4 = deck s3 ∧ heap s4 = heap s3 ∧ players s4 = players s3
          ∧ trump_suit s4 = trump_suit s3 ∧ active_players s4 = l)
    as (Hd4 & Hh4 & Hp4 & Ht4 & Hact4) by (by rewrite E4).
  clear E4.
  assert (deck s' = deck s4 ∧ heap s' = heap s4 ∧ players s' = players s4
          ∧ trump_suit s' = trump_suit s4 ∧ active_players s' = active_players s4)
    as (Hd5 & Hh5 & Hp5 & Ht5 & Hact5).
  { destruct (negb (game_over s4)); [|by injection E as <-].
    unfold do_reset_round in E.
    apply bind_Ok in E as (a & _ & E). apply bind_Ok in E as (d & _ & E).
    by injection E as <-. }
  split_and!.
  - intros p Hp. rewrite Hact5, Hact4 in Hp. apply Hin4 in Hp.
    rewrite Hact3 in Hp. apply list_elem_of_filter in Hp as [Hne Hp].
    split; [by rewrite <- Hact2|].
    unfold hand_size_of in *. by rewrite Hh5, Hh4, Hh3.
  - rewrite Hact5, Hact4, Hlen4, Hact3, <- Hact2. apply length_filter.
  - exists k. congruence.
  - congruence.
  - congruence.
Qed.

(** One [step] never brings a player back into the ring, never puts a card
    back into the deck, and changes neither the list of players nor the
    trump suit; the tuple it returns is read off the state it leaves. *)
Theorem step_shrinks_ring_and_deck s action s' out :
  step s action = Ok (s', out) →
  (∀ p, p ∈ active_players s' → p ∈ active_players s)
  ∧ length (active_players s') ≤ length (active_players s)
  ∧ (∃ k, deck s' = drop k (deck s))
  ∧ players s' = players s ∧ trump_suit s' = trump_suit s
  ∧ out = (state s', reward s', game_over s').
Proof.
  unfold step. intros E.
  apply bind_Ok in E as (m & Em & E). apply bind_Ok in E as (r & _ & E).
  apply bind_Ok in E as (c & Ec & E). apply bind_Ok in E as (s2 & E2 & E).
  injection E as <- <-.
  apply run_phase_frame in Em as (Hactm & Hdm & Hpm & Htm).
  apply check_end_round_spec in Ec as (t & rr & Hc & _).
  assert (active_players c = active_players s ∧ deck c = deck s
          ∧ players c = players s ∧ trump_suit c = trump_suit s)
    as (Hactc & Hdc & Hpc & Htc) by (by rewrite Hc).
  clear Hc.
  assert ((∀ p, p ∈ active_players s2 → p ∈ active_players c)
          ∧ length (active_players s2) ≤ length (active_players c)
          ∧ (∃ k, deck s2 = drop k (deck c))
          ∧ players s2 = players c ∧ trump_suit s2 = trump_suit c)
    as (Hin & Hlen & Hdeck & Hp2 & Ht2).
  { destruct (reset_round c).
    - apply resolve_round_frame in E2 as (Hin & ? & ? & ? & ?).
      split_and!; try done. intros p Hp. by apply Hin.
    - injection E2 as <-. split_and!; try done. by exists 0. }
  rewrite update_legal_cards_eq. simpl.
  rewrite <- Hactc, <- Hdc, <- Hpc, <- Htc. split_and!; done.
Qed.

End StepFrame.

Lemma step_shrinks_ring_and_deck_witness :
  let s := Game36.played 0 (8, Deck36.hearts)%Z Game36.start in
  let s' := Game36.after_8H in
  (∀ p, p ∈ active_players s' → p ∈ active_players s)
  ∧ length (active_players s') ≤ length (active_players s)
  ∧ (∃ k, deck s' = drop k (deck s))
  ∧ players s' = players s
  ∧ trump_suit s' = trump_suit s
  ∧ (state s', 0%Z, false) = (state s', reward s', game_over s').
Proof.
  apply (@step_shrinks_ring_and_deck Deck36.consts
           (Game36.played 0 (8, Deck36.hearts)%Z Game36.start) (8, Deck36.hearts)%Z).
  vm_compute. reflexivity.
Defined.

(** ** LearningPlayer *)

Section LearningPlayer.
Context `{DeckConsts}.

Lemma remember_hand_spec name hand : ∀ m unknown own,
  name ≠ "unknown" →
  m !! "unknown" = Some unknown → m !! name = Some own →
  NoDup hand → (∀ c, c ∈ hand → c ∈ unknown) →
  ∃ m' unknown',
    Learning.remember_hand name m hand = Learning.Returns m'
    ∧ m' !! "unknown" = Some unknown'
    ∧ unknown ≡ₚ hand ++ unknown'
    ∧ m' !! name = Some (own ++ hand)
    ∧ ∀ k, k ≠ "unknown" → k ≠ name → m' !! k = m !! k.
Proof.
  induction hand as [|card hand IH]; intros m unknown own Hname Hu Ho Hnd Hsub.
  - exists m, unknown. rewrite app_nil_r. done.
  - apply list.NoDup_cons in Hnd as [Hcard Hnd].
    destruct (proj1 (list_remove_spec unknown card)) as (l1 & l2 & -> & Hl1 & Hrem).
    { apply Hsub. set_solver. }
    simpl. unfold Learning.remember_card. rewrite Hu, Hrem.
    rewrite lookup_insert_ne by done. rewrite Ho.
    destruct (IH (<[name := own ++ [card]]> (<["unknown" := l1 ++ l2]> m))
                (l1 ++ l2) (own ++ [card])) as (m' & u' & -> & Hu' & Hperm & Ho' & Hk);
      try done.
    + rewrite lookup_insert_ne by done. by rewrite lookup_insert_eq.
    + by rewrite lookup_insert_eq.
    + intros c Hc. assert (c ∈ l1 ++ card :: l2) as Hin by (apply Hsub; set_solver).
      assert (c ≠ card) by (by intros ->). set_solver.
    + exists m', u'. split; [done|]. split; [done|]. split_and!.
      * rewrite <- Permutation_middle. simpl. by rewrite Hperm.
      * by rewrite Ho', <- app_assoc.
      * intros k Hk1 Hk2. rewrite Hk by done. by rewrite !lookup_insert_ne.
Qed.

(** [initialize_for_game] of a player whose name is a key of the memory
    (and is not the key of the unknown cards), with a hand of distinct cards
    of the deck: the call returns; the hand is listed under the player's
    name, the unknown cards are the rest of the deck, and every other list
    is empty. *)
Theorem initialize_for_game_splits_deck name hand
    (cards_memory : gmap string (list CardType)) :
  name ≠ "unknown" →
  is_Some (cards_memory !! name) →
  NoDup hand →
  Forall (fun c => c ∈ get_full_list_of_cards) hand →
  ∃ m unknown,
    Learning.initialize_for_game name hand cards_memory = Learning.Returns m
    ∧ m !! "unknown" = Some unknown
    ∧ get_full_list_of_cards ≡ₚ hand ++ unknown
    ∧ m !! name = Some hand
    ∧ ∀ k, k ≠ "unknown" → k ≠ name →
        m !! k = (fun _ => []) <$> (cards_memory !! k).
Proof.
  intros Hname [own Hown] Hnd Hsub. rewrite list.Forall_forall in Hsub.
  unfold Learning.initialize_for_game.
  destruct (remember_hand_spec name hand
              (<["unknown" := get_full_list_of_cards]> ((fun _ => []) <$> cards_memory))
              get_full_list_of_cards [])
    as (m & u & -> & Hu & Hperm & Ho & Hk); try done.
  - by rewrite lookup_insert_eq.
  - rewrite lookup_insert_ne by done. by rewrite lookup_fmap, Hown.
  - exists m, u. split; [done|]. split; [done|]. split; [done|]. split; [done|].
    intros k Hk1 Hk2. rewrite Hk by done.
    rewrite lookup_insert_ne by done. by rewrite lookup_fmap.
Qed.

(** The two ways [initialize_for_game] raises on the first card of the
    hand: [ValueError] if the card is no card of the deck, [KeyError] if the
    card is one but the memory has no list under the player's name. *)
Theorem initialize_for_game_raises name card hand
    (cards_memory : gmap string (list CardType)) :
  ((card ∉ get_full_list_of_cards) →
   Learning.initialize_for_game name (card :: hand) cards_memory
   = Learning.RaisesValueError)
  ∧ (card ∈ get_full_list_of_cards → name ≠ "unknown" →
     cards_memory !! name = None →
     Learning.initialize_for_game name (card :: hand) cards_memory
     = Learning.RaisesKeyError name).
Proof.
  unfold Learning.initialize_for_game. simpl. unfold Learning.remember_card.
  rewrite lookup_insert_eq. split.
  - intros Hout. by rewrite (proj2 (list_remove_spec _ _) Hout).
  - intros Hin Hname Hnone.
    destruct (proj1 (list_remove_spec _ _) Hin) as (l1 & l2 & _ & _ & ->).
    rewrite !lookup_insert_ne by done. by rewrite lookup_fmap, Hnone.
Qed.

End LearningPlayer.

Lemma initialize_for_game_splits_deck_witness :
  let hand := _hand (heap Game36.start 0) in
  let cards_memory := Learning.first_initialize ["A"; "B"] ∅ in
  ∃ m unknown,
    @Learning.initialize_for_game Deck36.consts "A" hand cards_memory
    = Learning.Returns m
    ∧ m !! "unknown" = Some unknown
    ∧ Deck36.full ≡ₚ hand ++ unknown
    ∧ m !! "A" = Some hand
    ∧ ∀ k, k ≠ "unknown" → k ≠ "A" →
        m !! k = (fun _ => []) <$> (cards_memory !! k).
Proof.
  apply (@initialize_for_game_splits_deck Deck36.consts "A"
           (_hand (heap Game36.start 0)) (Learning.first_initialize ["A"; "B"] ∅)).
  - discriminate.
  - apply (bool_decide_unpack _). vm_compute. exact I.
  - apply (bool_decide_unpack _). vm_compute. exact I.
  - apply (bool_decide_unpack _). vm_compute. exact I.
Defined.
